(** * Distributed-framework: actor engine, ring-buffer mailbox, remote
      stream batching and cluster agent.

    A shallow embedding of the Go sources (packages [ringbuffer], [actor],
    [remote] and [cluster]) together with the properties stated about them.

    Conventions of the embedding:
    - a Go [int64]/[int32] is a [Z]; arithmetic that can leave the range is
      wrapped with [int64]/[int32];
    - a runtime panic (division by zero, index out of range, [make] with a
      negative length, nil dereference) is the [None] of an [option];
    - a Go pointer that may be nil is an [option];
    - a Go [map] is a stdpp [gmap]; where the order of a [range] over it
      matters, the order is a parameter: any enumeration of the entries. *)

From Stdlib Require Import ZArith Lia Ascii String.
From stdpp Require Import gmap strings list fin_maps.

Local Open Scope Z_scope.

(** ** Machine integers and slices *)

Definition int64 (z : Z) : Z := (z + 2 ^ 63) `mod` 2 ^ 64 - 2 ^ 63.
Definition int32 (z : Z) : Z := (z + 2 ^ 31) `mod` 2 ^ 32 - 2 ^ 31.
Definition max_int64 : Z := 2 ^ 63 - 1.

(** Go's [a % b] on signed integers: truncated remainder, panics on [b = 0]. *)
Definition go_rem (a b : Z) : option Z :=
  if decide (b = 0) then None else Some (Z.rem a b).

(** [s[i]] : panics out of range. *)
Definition index {A} (s : list A) (i : Z) : option A :=
  if decide (0 ≤ i) then s !! Z.to_nat i else None.

(** [s[i] = x] : panics out of range. *)
Definition store {A} (s : list A) (i : Z) (x : A) : option (list A) :=
  if decide (0 ≤ i < Z.of_nat (length s)) then Some (<[Z.to_nat i := x]> s)
  else None.

(** [make([]T, n)] : a slice of [n] zero values, panics on a negative [n]. *)
Definition make {A} (zero : A) (n : Z) : option (list A) :=
  if decide (0 ≤ n) then Some (replicate (Z.to_nat n) zero) else None.

Lemma int64_id z : - 2 ^ 63 ≤ z ≤ max_int64 → int64 z = z.
Proof.
  unfold int64, max_int64. intros Hz.
  rewrite Z.mod_small; lia.
Qed.

Lemma int32_id z : - 2 ^ 31 ≤ z ≤ 2 ^ 31 - 1 → int32 z = z.
Proof. intros Hz. unfold int32. rewrite Z.mod_small; lia. Qed.

Lemma go_rem_mod a b : 0 ≤ a → 0 < b → go_rem a b = Some (a `mod` b).
Proof.
  intros Ha Hb. unfold go_rem.
  destruct (decide (b = 0)) as [->|_]; [lia|].
  by rewrite Z.rem_mod_nonneg by lia.
Qed.

Lemma index_nonneg {A} (s : list A) i : 0 ≤ i → index s i = s !! Z.to_nat i.
Proof. intros Hi. unfold index. by rewrite decide_True. Qed.

Lemma store_in_range {A} (s : list A) i x :
  0 ≤ i < Z.of_nat (length s) → store s i x = Some (<[Z.to_nat i := x]> s).
Proof. intros Hi. unfold store. by rewrite decide_True. Qed.

(** ** Package ringbuffer *)

Module RingBuffer.
Section RB.
Context {T : Type}.
(** The zero value of [T] ([var t T]). *)
Variable zero : T.

(** [buffer]; the Go field [mod] is spelled [mod_]. *)
Record buffer := Buffer {
  items : list T;
  head : Z;
  tail : Z;
  mod_ : Z
}.

Record RingBuffer := RB {
  len : Z;
  content : buffer
}.

Definition New (size : Z) : option RingBuffer :=
  its ← make zero size;
  Some {| len := 0;
          content := {| items := its; head := 0; tail := 0; mod_ := size |} |}.

(** The copy loop of [Push]:
    [for i := 0; i < mod; i++ { newBuff[i] = items[(tail+i) % mod] }],
    entered at [i] with [n] iterations left. *)
Fixpoint copy_loop (c : buffer) (i : Z) (n : nat) (newBuff : list T)
  : option (list T) :=
  match n with
  | O => Some newBuff
  | S n' =>
      idx ← go_rem (int64 (tail c + i)) (mod_ c);
      x ← index (items c) idx;
      nb ← store newBuff i x;
      copy_loop c (i + 1) n' nb
  end.

Definition Push (rb : RingBuffer) (item : T) : option RingBuffer :=
  let c := content rb in
  t1 ← go_rem (int64 (tail c + 1)) (mod_ c);
  let c1 := {| items := items c; head := head c; tail := t1; mod_ := mod_ c |} in
  c2 ← (if decide (tail c1 = head c1) then
          let size := int64 (mod_ c1 * 2) in
          newBuff ← make zero size;
          newBuff ← copy_loop c1 0 (Z.to_nat (mod_ c1)) newBuff;
          Some {| items := newBuff; head := 0; tail := mod_ c1; mod_ := size |}
        else Some c1);
  its ← store (items c2) (tail c2) item;
  Some {| len := int64 (len rb + 1);
          content := {| items := its; head := head c2; tail := tail c2;
                        mod_ := mod_ c2 |} |}.

Definition Len (rb : RingBuffer) : Z := len rb.

(** [Pop] returns the new state and Go's [(T, bool)]. *)
Definition Pop (rb : RingBuffer) : option (RingBuffer * (T * bool)) :=
  if decide (len rb = 0) then Some (rb, (zero, false))
  else
    let c := content rb in
    h1 ← go_rem (int64 (head c + 1)) (mod_ c);
    item ← index (items c) h1;
    its ← store (items c) h1 zero;
    Some ({| len := int64 (len rb - 1);
             content := {| items := its; head := h1; tail := tail c;
                           mod_ := mod_ c |} |},
          (item, true)).

(** The loop of [PopN]: reads [n] slots after [head] into [out] and clears
    them; [its] is the backing array of the ring. *)
Fixpoint popn_loop (c : buffer) (i : Z) (n : nat) (its out : list T)
  : option (list T * list T) :=
  match n with
  | O => Some (its, out)
  | S n' =>
      pos ← go_rem (int64 (int64 (head c + 1) + i)) (mod_ c);
      x ← index its pos;
      out' ← store out i x;
      its' ← store its pos zero;
      popn_loop c (i + 1) n' its' out'
  end.

(** [PopN] returns the new state and Go's [([]T, bool)]; the nil slice of
    the empty case is [[]]. *)
Definition PopN (rb : RingBuffer) (n : Z)
  : option (RingBuffer * (list T * bool)) :=
  if decide (len rb = 0) then Some (rb, ([], false))
  else
    let c := content rb in
    let n := if decide (len rb ≤ n) then len rb else n in
    let len' := int64 (len rb - n) in
    out ← make zero n;
    '(its, out) ← popn_loop c 0 (Z.to_nat n) (items c) out;
    h' ← go_rem (int64 (head c + n)) (mod_ c);
    Some ({| len := len';
             content := {| items := its; head := h'; tail := tail c;
                           mod_ := mod_ c |} |},
          (out, true)).

(** *** Abstraction: the live elements, oldest first *)

Definition slot (c : buffer) (i : Z) : T :=
  default zero (items c !! Z.to_nat ((head c + 1 + i) `mod` mod_ c)).

Definition live (rb : RingBuffer) : list T :=
  slot (content rb) <$> seqZ 0 (len rb).

(** The representation invariant of every buffer built by [New] and the
    three operations. *)
Record wf (rb : RingBuffer) : Prop := {
  wf_mod : 0 < mod_ (content rb) ≤ max_int64;
  wf_items : Z.of_nat (length (items (content rb))) = mod_ (content rb);
  wf_head : 0 ≤ head (content rb) < mod_ (content rb);
  wf_len : 0 ≤ len rb < mod_ (content rb);
  wf_tail : tail (content rb) = (head (content rb) + len rb) `mod` mod_ (content rb)
}.

(** A buffer is full when advancing [tail] would reach [head]. *)
Definition full (rb : RingBuffer) : Prop :=
  (tail (content rb) + 1) `mod` mod_ (content rb) = head (content rb).

(** *** Operation sequences and the functional FIFO queue *)

Inductive op :=
| OpPush (x : T)
| OpPop
| OpPopN (n : Z).

(** What the caller observes of each operation. *)
Inductive res :=
| RPush
| RPop (r : T * bool)
| RPopN (r : list T * bool).

Definition step (rb : RingBuffer) (o : op) : option (RingBuffer * res) :=
  match o with
  | OpPush x => rb' ← Push rb x; Some (rb', RPush)
  | OpPop => '(rb', r) ← Pop rb; Some (rb', RPop r)
  | OpPopN n => '(rb', r) ← PopN rb n; Some (rb', RPopN r)
  end.

Fixpoint run (rb : RingBuffer) (ops : list op) : option (RingBuffer * list res) :=
  match ops with
  | [] => Some (rb, [])
  | o :: ops' =>
      '(rb1, r) ← step rb o;
      '(rb2, rs) ← run rb1 ops';
      Some (rb2, r :: rs)
  end.





(** After a push [x] onto [rb] that produced [rb']: the capacity doubled, the
    live elements of [rb] sit oldest-first in the fresh array from offset [k]
    on, and [x] follows them. *)
Definition copied_at (k : Z) (rb : RingBuffer) (x : T) (rb' : RingBuffer) : Prop :=
  mod_ (content rb') = mod_ (content rb) * 2 ∧
  (∀ i : nat, Z.of_nat i < len rb →
     items (content rb') !! Z.to_nat (k + Z.of_nat i) = live rb !! i) ∧
  items (content rb') !! Z.to_nat (k + len rb) = Some x.

(** *** Helper facts on machine arithmetic and slices *)

Lemma mod_offset_inj m h i j :
  0 < m → 0 ≤ i < m → 0 ≤ j < m →
  (h + i) `mod` m = (h + j) `mod` m → i = j.
Proof.
  intros Hm Hi Hj Heq.
  pose proof (Z.div_mod (h + i) m ltac:(lia)) as E1.
  pose proof (Z.div_mod (h + j) m ltac:(lia)) as E2.
  rewrite Heq in E1.
  set (d := (h + i) `div` m - (h + j) `div` m).
  assert (i - j = m * d) as E by (unfold d; lia).
  destruct (decide (d = 0)) as [Hd|Hd]; [rewrite Hd in E; lia|].
  destruct (decide (0 < d)); nia.
Qed.

Lemma mod_pos_range a m : 0 < m → 0 ≤ a `mod` m < m.
Proof. intros. apply Z.mod_pos_bound. lia. Qed.

Lemma fmap_seqZ_eq (f : Z → T) n (l : list T) :
  length l = Z.to_nat n →
  (∀ i : nat, Z.of_nat i < n → l !! i = Some (f (Z.of_nat i))) →
  f <$> seqZ 0 n = l.
Proof.
  intros Hlen Hl. apply list_eq. intros i.
  rewrite list_lookup_fmap.
  destruct (decide (Z.of_nat i < n)) as [Hi|Hi].
  - rewrite lookup_seqZ_lt by done. rewrite Hl by done. simpl. f_equal.
  - rewrite lookup_seqZ_ge by lia. simpl. symmetry.
    apply lookup_ge_None. lia.
Qed.

Lemma live_length rb : length (live rb) = Z.to_nat (len rb).
Proof. unfold live. by rewrite length_fmap, length_seqZ. Qed.

Lemma live_lookup rb (i : nat) :
  Z.of_nat i < len rb → live rb !! i = Some (slot (content rb) (Z.of_nat i)).
Proof.
  intros Hi. unfold live. rewrite list_lookup_fmap, lookup_seqZ_lt by done.
  simpl. do 2 f_equal.
Qed.

(** *** The copy loop of [Push] *)

Lemma copy_loop_spec c n : ∀ i nb,
  0 < mod_ c → mod_ c * 2 ≤ max_int64 →
  0 ≤ tail c < mod_ c →
  Z.of_nat (length (items c)) = mod_ c →
  0 ≤ i → i + Z.of_nat n ≤ mod_ c → i + Z.of_nat n ≤ Z.of_nat (length nb) →
  ∃ nb', copy_loop c i n nb = Some nb' ∧ length nb' = length nb ∧
    (∀ j, i ≤ j < i + Z.of_nat n →
       nb' !! Z.to_nat j = items c !! Z.to_nat ((tail c + j) `mod` mod_ c)) ∧
    (∀ k : nat, ¬ (i ≤ Z.of_nat k < i + Z.of_nat n) → nb' !! k = nb !! k).
Proof.
  induction n as [|n IH]; intros i nb Hm Hmax Ht Hits Hi Hin Hnb.
  - exists nb. simpl. split_and!; [done|done| |done]. intros j Hj. lia.
  - simpl.
    rewrite int64_id by (unfold max_int64 in *; lia).
    rewrite go_rem_mod by lia. simpl.
    pose proof (mod_pos_range (tail c + i) (mod_ c) Hm) as Hr.
    rewrite index_nonneg by lia.
    destruct (lookup_lt_is_Some_2 (items c) (Z.to_nat ((tail c + i) `mod` mod_ c)))
      as [x Hx]; [lia|].
    rewrite Hx. simpl.
    rewrite store_in_range by lia. simpl.
    destruct (IH (i + 1) (<[Z.to_nat i := x]> nb)) as (nb' & Hrun & Hlen & Hin' & Hout);
      try done; try lia.
    { rewrite length_insert. lia. }
    exists nb'. split; [done|]. rewrite length_insert in Hlen.
    split; [done|]. split.
    + intros j Hj. destruct (decide (j = i)) as [->|Hne].
      * rewrite Hout by lia. rewrite list_lookup_insert_eq by lia. done.
      * apply Hin'. lia.
    + intros k Hk. rewrite Hout by lia.
      rewrite list_lookup_insert_ne by lia. done.
Qed.

(** *** [Push] *)

Lemma full_len rb : wf rb → full rb ↔ len rb + 1 = mod_ (content rb).
Proof.
  intros [Hm Hits Hh Hl Ht]. unfold full. rewrite Ht.
  rewrite Z.add_mod_idemp_l by lia. split.
  - intros Heq. destruct (decide (len rb + 1 < mod_ (content rb))) as [Hlt|]; [|lia].
    assert (len rb + 1 = 0); [|lia].
    apply (mod_offset_inj (mod_ (content rb)) (head (content rb))); try lia.
    rewrite Z.add_0_r, (Z.mod_small (head _)) by lia.
    rewrite <- Heq. f_equal. lia.
  - intros Heq.
    replace (head (content rb) + len rb + 1)
      with (head (content rb) + 1 * mod_ (content rb)) by lia.
    rewrite Z.mod_add by lia. apply Z.mod_small. lia.
Qed.


(** A push onto a full buffer: the state after the doubling, slot by slot. *)
Lemma Push_grow rb x :
  wf rb → full rb → mod_ (content rb) * 2 ≤ max_int64 →
  ∃ its, Push rb x = Some {| len := len rb + 1;
      content := {| items := its; head := 0; tail := mod_ (content rb);
                    mod_ := mod_ (content rb) * 2 |} |} ∧
    Z.of_nat (length its) = mod_ (content rb) * 2 ∧
    (∀ j, 0 ≤ j < mod_ (content rb) →
       its !! Z.to_nat j =
       items (content rb) !! Z.to_nat ((head (content rb) + j) `mod` mod_ (content rb))) ∧
    its !! Z.to_nat (mod_ (content rb)) = Some x ∧
    (∀ j, mod_ (content rb) < j < mod_ (content rb) * 2 →
       its !! Z.to_nat j = Some zero).
Proof.
  intros Hwf Hfull Hmax. pose proof Hwf as [Hm Hits Hh Hl Ht].
  unfold full in Hfull. unfold Push.
  pose proof (mod_pos_range (head (content rb) + len rb) (mod_ (content rb))
                ltac:(lia)) as Htr. rewrite <- Ht in Htr.
  rewrite (int64_id (tail (content rb) + 1)) by (unfold max_int64 in *; lia).
  rewrite go_rem_mod by lia. simpl.
  rewrite decide_True by done. simpl.
  rewrite (int64_id (mod_ (content rb) * 2)) by (unfold max_int64 in *; lia).
  unfold make. rewrite decide_True by lia. simpl.
  set (c1 := {| items := items (content rb); head := head (content rb);
                tail := (tail (content rb) + 1) `mod` mod_ (content rb);
                mod_ := mod_ (content rb) |}).
  destruct (copy_loop_spec c1 (Z.to_nat (mod_ c1)) 0
              (replicate (Z.to_nat (mod_ (content rb) * 2)) zero))
    as (nb & Hrun & Hlen & Hin & Hout); try (simpl; lia).
  { simpl. rewrite length_replicate. lia. }
  simpl in Hrun. rewrite Hrun. simpl. rewrite length_replicate in Hlen.
  rewrite store_in_range by lia. simpl.
  rewrite int64_id by (unfold max_int64 in *; lia).
  eexists. split; [reflexivity|]. rewrite length_insert.
  split; [lia|]. split; [|split].
  - intros j Hj. rewrite list_lookup_insert_ne by lia.
    rewrite Hin by (simpl; lia). simpl. rewrite Hfull. done.
  - rewrite list_lookup_insert_eq by lia. done.
  - intros j Hj. rewrite list_lookup_insert_ne by lia.
    rewrite Hout by (simpl; lia).
    apply lookup_replicate_2. lia.
Qed.

(** A doubling that leaves the [int64] range makes a negative length, and
    [make] panics. *)
Lemma Push_overflow rb x :
  wf rb → full rb → max_int64 < mod_ (content rb) * 2 → Push rb x = None.
Proof.
  intros Hwf Hfull Hmax. pose proof Hwf as [Hm Hits Hh Hl Ht].
  unfold full in Hfull. unfold Push.
  pose proof (mod_pos_range (head (content rb) + len rb) (mod_ (content rb))
                ltac:(lia)) as Htr. rewrite <- Ht in Htr.
  rewrite (int64_id (tail (content rb) + 1)) by (unfold max_int64 in *; lia).
  rewrite go_rem_mod by lia. simpl.
  rewrite decide_True by done. simpl.
  assert (int64 (mod_ (content rb) * 2) < 0) as Hneg.
  { unfold int64, max_int64 in *.
    replace (mod_ (content rb) * 2 + 2 ^ 63)
      with (mod_ (content rb) * 2 - 2 ^ 63 + 1 * 2 ^ 64) by lia.
    rewrite Z.mod_add by lia. rewrite Z.mod_small; lia. }
  unfold make. by rewrite decide_False by lia.
Qed.


(** *** [Pop] and [PopN] *)

Lemma popn_loop_spec c n : ∀ i its out,
  0 < mod_ c → mod_ c * 2 ≤ max_int64 → 0 ≤ head c < mod_ c →
  Z.of_nat (length its) = mod_ c →
  0 ≤ i → i + Z.of_nat n ≤ Z.of_nat (length out) → i + Z.of_nat n ≤ mod_ c →
  ∃ its' out', popn_loop c i n its out = Some (its', out') ∧
    length its' = length its ∧ length out' = length out ∧
    (∀ j, i ≤ j < i + Z.of_nat n →
       out' !! Z.to_nat j = its !! Z.to_nat ((head c + 1 + j) `mod` mod_ c)) ∧
    (∀ k : nat, ¬ (i ≤ Z.of_nat k < i + Z.of_nat n) → out' !! k = out !! k) ∧
    (∀ p : nat,
       (∀ j, i ≤ j < i + Z.of_nat n → p ≠ Z.to_nat ((head c + 1 + j) `mod` mod_ c)) →
       its' !! p = its !! p).
Proof.
  induction n as [|n IH]; intros i its out Hm Hmax Hh Hits Hi Hout Hin.
  - exists its, out. simpl. split_and!; try done. intros j Hj. lia.
  - simpl.
    rewrite (int64_id (head c + 1)) by (unfold max_int64 in *; lia).
    rewrite int64_id by (unfold max_int64 in *; lia).
    rewrite go_rem_mod by lia. simpl.
    pose proof (mod_pos_range (head c + 1 + i) (mod_ c) Hm) as Hr.
    set (pos := (head c + 1 + i) `mod` mod_ c) in *.
    rewrite index_nonneg by lia.
    destruct (lookup_lt_is_Some_2 its (Z.to_nat pos)) as [x Hx]; [lia|].
    rewrite Hx. simpl.
    rewrite !store_in_range by lia. simpl.
    destruct (IH (i + 1) (<[Z.to_nat pos := zero]> its) (<[Z.to_nat i := x]> out))
      as (its' & out' & Hrun & Hlen1 & Hlen2 & Hread & Hkeep & Hrest);
      try done; try lia; try (rewrite length_insert; lia).
    exists its', out'. rewrite length_insert in Hlen1, Hlen2.
    assert (∀ j, i < j < i + Z.of_nat (S n) →
              Z.to_nat ((head c + 1 + j) `mod` mod_ c) ≠ Z.to_nat pos) as Hdiff.
    { intros j Hj E. apply Z2Nat.inj in E; try lia; cycle 1.
      { apply mod_pos_range. lia. }
      unfold pos in E. apply mod_offset_inj in E; lia. }
    split_and!; try done.
    + intros j Hj. destruct (decide (j = i)) as [->|Hne].
      * rewrite Hkeep by lia. rewrite list_lookup_insert_eq by lia. done.
      * rewrite Hread by lia. rewrite list_lookup_insert_ne; [done|].
        intros E. symmetry in E. revert E. apply Hdiff. lia.
    + intros k Hk. rewrite Hkeep by lia.
      rewrite list_lookup_insert_ne by lia. done.
    + intros p Hp. rewrite Hrest.
      * rewrite list_lookup_insert_ne; [done|].
        intros E. apply (Hp i); [lia|]. done.
      * intros j Hj. apply Hp. lia.
Qed.

Lemma slot_Some c i :
  0 < mod_ c → Z.of_nat (length (items c)) = mod_ c →
  items c !! Z.to_nat ((head c + 1 + i) `mod` mod_ c) = Some (slot c i).
Proof.
  intros Hm Hits. unfold slot.
  pose proof (mod_pos_range (head c + 1 + i) (mod_ c) Hm) as Hr.
  destruct (lookup_lt_is_Some_2 (items c) (Z.to_nat ((head c + 1 + i) `mod` mod_ c)))
    as [x Hx]; [lia|].
  by rewrite Hx.
Qed.


Lemma PopN_empty rb n : len rb = 0 → PopN rb n = Some (rb, ([], false)) ∧ live rb = [].
Proof.
  intros H0. unfold PopN, live. rewrite decide_True by done.
  by rewrite H0.
Qed.

Lemma PopN_spec rb n :
  wf rb → mod_ (content rb) * 2 ≤ max_int64 → 0 < len rb → 0 ≤ n →
  ∃ rb' out, PopN rb n = Some (rb', (out, true)) ∧ wf rb' ∧
    live rb = out ++ live rb' ∧
    length out = Z.to_nat (Z.min n (len rb)) ∧
    mod_ (content rb') = mod_ (content rb).
Proof.
  intros Hwf Hmax Hpos Hn. pose proof Hwf as [Hm Hits Hh Hl Ht].
  unfold PopN. rewrite decide_False by lia.
  set (n' := if decide (len rb ≤ n) then len rb else n).
  assert (n' = Z.min n (len rb)) as Hn'.
  { unfold n'. destruct (decide (len rb ≤ n)); lia. }
  clearbody n'.
  unfold make. rewrite decide_True by lia. simpl.
  destruct (popn_loop_spec (content rb) (Z.to_nat n') 0 (items (content rb))
              (replicate (Z.to_nat n') zero))
    as (its' & out' & Hrun & Hlen1 & Hlen2 & Hread & _ & Hrest);
    try done; try lia.
  { rewrite length_replicate. lia. }
  rewrite Hrun. simpl. rewrite length_replicate in Hlen2.
  rewrite (int64_id (head (content rb) + n')) by (unfold max_int64 in *; lia).
  rewrite go_rem_mod by lia. simpl.
  rewrite (int64_id (len rb - n')) by (unfold max_int64 in *; lia).
  eexists _, out'. split; [reflexivity|].
  pose proof (mod_pos_range (head (content rb) + n') (mod_ (content rb))
                ltac:(lia)) as Hr.
  split_and!; simpl; try done; try lia.
  - constructor; simpl; try lia.
    rewrite Ht, Z.add_mod_idemp_l by lia. f_equal. lia.
  - apply fmap_seqZ_eq.
    + rewrite length_app, live_length. simpl. lia.
    + intros i Hi.
      destruct (decide (Z.of_nat i < n')) as [Hlt|Hge].
      * rewrite lookup_app_l by lia.
        rewrite <- (Nat2Z.id i) at 1. rewrite Hread by lia.
        apply slot_Some; [lia|done].
      * rewrite lookup_app_r by lia. rewrite Hlen2.
        rewrite live_lookup by (simpl; lia).
        f_equal. unfold slot. simpl.
        rewrite <- Z.add_assoc, Z.add_mod_idemp_l by lia.
        replace (head (content rb) + n' + (1 + Z.of_nat (i - Z.to_nat n')))
          with (head (content rb) + 1 + Z.of_nat i) by lia.
        rewrite Hrest; [done|].
        intros j Hj E. apply Z2Nat.inj in E; try (apply mod_pos_range; lia).
        apply mod_offset_inj in E; lia.
Qed.

(** With a negative count on a non-empty buffer [make] panics. *)
Lemma PopN_negative rb n : len rb ≠ 0 → 0 ≤ len rb → n < 0 → PopN rb n = None.
Proof.
  intros Hl Hl0 Hn. unfold PopN. rewrite decide_False by done.
  rewrite (decide_False (P := len rb ≤ n)) by lia.
  unfold make. by rewrite decide_False by lia.
Qed.







(** C4 (amended). A push onto a full buffer doubles the capacity and copies
    the [n] live elements, oldest first, to offsets [1..n] of the fresh array
    (offset [0] receives the vacated slot under [head], and the new [head] is
    [0]); the pushed element is stored right after them, at offset [n+1],
    which is the old capacity. *)
Theorem Push_full_copies rb x :
  wf rb → full rb → mod_ (content rb) * 2 ≤ max_int64 →
  ∃ rb', Push rb x = Some rb' ∧ copied_at 1 rb x rb' ∧
         head (content rb') = 0 ∧ tail (content rb') = mod_ (content rb) ∧
         len rb' = len rb + 1 ∧ len rb + 1 = mod_ (content rb) ∧
         items (content rb') !! 0%nat = items (content rb) !! Z.to_nat (head (content rb)).
Proof.
  intros Hwf Hfull Hmax. pose proof Hwf as [Hm Hits Hh Hl Ht].
  destruct (Push_grow rb x Hwf Hfull Hmax) as (its & -> & Hlen & Hlow & Hat & _).
  apply (full_len rb Hwf) in Hfull.
  eexists. split; [reflexivity|]. simpl.
  split_and!; try done.
  - split_and!; simpl; [done| |].
    + intros i Hi. rewrite Hlow by lia. rewrite live_lookup by done.
      rewrite Z.add_assoc. apply slot_Some; [lia|done].
    + by replace (1 + len rb) with (mod_ (content rb)) by lia.
  - change 0%nat with (Z.to_nat 0). rewrite (Hlow 0) by lia.
    by rewrite Z.add_0_r, Z.mod_small by lia.
Qed.


End RB.

(** The buffer after [New(2); Push(7)]: one live element, no free slot. *)
Definition ex_full : RingBuffer :=
  {| len := 1; content := {| items := [0; 7]; head := 0; tail := 1; mod_ := 2 |} |}.

Lemma ex_full_reached : (rb ← New 0 2; Push 0 rb 7) = Some ex_full.
Proof. reflexivity. Qed.

Lemma ex_full_wf : wf ex_full.
Proof. constructor; try (simpl; unfold max_int64; lia); reflexivity. Defined.

(** C4 as stated fails: after [New(2); Push(7); Push(8)] the live element [7]
    is at offset [1] of the doubled array, not at offset [0]. *)
Lemma Push_full_offsets_counterexample :
  full ex_full ∧
  ∃ rb', Push 0 ex_full 8 = Some rb' ∧ ¬ copied_at 0 0 ex_full 8 rb'.
Proof.
  split; [reflexivity|].
  eexists. split; [reflexivity|].
  intros (_ & Hcopy & _). specialize (Hcopy 0%nat ltac:(simpl; lia)).
  vm_compute in Hcopy. discriminate.
Qed.

Lemma Push_full_copies_witness :
  ∃ rb', Push 0 ex_full 8 = Some rb' ∧ copied_at 0 1 ex_full 8 rb' ∧
         head (content rb') = 0 ∧ tail (content rb') = 2.
Proof.
  destruct (Push_full_copies 0 ex_full 8 ex_full_wf)
    as (rb' & HP & Hc & Hh & Ht & _).
  - reflexivity.
  - simpl. unfold max_int64. lia.
  - exists rb'. split_and!; done.
Defined.



(** *** Degenerate sizes and counts *)

Section RBEdges.
Context {T : Type}.
Variable zero : T.

(** X1. The sizes [New] does not check.  A negative size panics in [make].
    Size zero gives a buffer on which [Pop] and [PopN] report it empty, and
    on which every [Push] panics, its index arithmetic dividing by zero. *)
Theorem New_degenerate_sizes :
  (∀ size, size < 0 → New zero size = None) ∧
  ∃ rb, New zero 0 = Some rb ∧
    (∀ x, Push zero rb x = None) ∧
    Pop zero rb = Some (rb, (zero, false)) ∧
    (∀ n, PopN zero rb n = Some (rb, ([], false))).
Proof.
  split.
  - intros size Hs. unfold New, make. by rewrite decide_False by lia.
  - eexists. split; [reflexivity|]. split_and!; try done.
Qed.

(** X2. The counts [PopN] does not check, on a buffer that holds
    something.  A negative count panics in [make].  Count zero returns an
    empty slice with [true] and leaves the content as it is.  A count of at
    least the length returns everything, oldest first, and leaves the buffer
    empty. *)
Theorem PopN_counts rb :
  wf rb → mod_ (content rb) * 2 ≤ max_int64 → 0 < len rb →
  (∀ n, n < 0 → PopN zero rb n = None) ∧
  (∃ rb', PopN zero rb 0 = Some (rb', ([], true)) ∧ wf rb' ∧
          live zero rb' = live zero rb) ∧
  (∀ n, len rb ≤ n →
     ∃ rb', PopN zero rb n = Some (rb', (live zero rb, true)) ∧ wf rb' ∧
            live zero rb' = [] ∧ Len rb' = 0).
Proof.
  intros Hwf Hcap Hlen. split_and!.
  - intros n Hn. apply PopN_negative; lia.
  - destruct (PopN_spec zero rb 0 Hwf Hcap Hlen) as (rb' & out & HP & Hwf' & Hlive & Hout & _);
      [lia|].
    replace (Z.to_nat (0 `min` len rb)) with 0%nat in Hout by lia.
    apply nil_length_inv in Hout as ->.
    exists rb'. by split_and!.
  - intros n Hn.
    destruct (PopN_spec zero rb n Hwf Hcap Hlen) as (rb' & out & HP & Hwf' & Hlive & Hout & _);
      [lia|].
    replace (Z.to_nat (n `min` len rb)) with (Z.to_nat (len rb)) in Hout by lia.
    pose proof (live_length zero rb) as Hl. rewrite Hlive, length_app, Hout in Hl.
    assert (length (live zero rb') = 0%nat) as Hnil by lia.
    pose proof Hnil as Hnil'. apply nil_length_inv in Hnil'.
    rewrite Hnil', app_nil_r in Hlive. subst out.
    exists rb'. split_and!; try done.
    rewrite live_length in Hnil. pose proof (wf_len _ Hwf'). unfold Len. lia.
Qed.

End RBEdges.

Lemma PopN_counts_witness :
  ∃ rb', PopN 0 ex_full 5 = Some (rb', (live 0 ex_full, true)) ∧ Len rb' = 0.
Proof.
  destruct (PopN_counts 0 ex_full ex_full_wf) as (_ & _ & Hall);
    [vm_compute; discriminate|reflexivity|].
  destruct (Hall 5) as (rb' & HP & _ & _ & Hl); [vm_compute; discriminate|].
  exists rb'. split; [exact HP|exact Hl].
Defined.
End RingBuffer.


(** ** Package actor: PIDs, messages, registry and engine *)

Module Actor.

Local Open Scope string_scope.

(** [pidSeparator] and [LocalLookupAddr]. *)
Definition pidSeparator : string := "/".
Definition LocalLookupAddr : string := "local".

Record PID := mkPID { Address : string; ID : string }.

#[global] Instance PID_eq_dec : EqDecision PID.
Proof. solve_decision. Defined.

Definition NewPID (address id : string) : PID := {| Address := address; ID := id |}.

(** [PID.Equals]. *)
Definition Equals (pid other : PID) : bool :=
  bool_decide (Address pid = Address other) && bool_decide (ID pid = ID other).

(** The values that travel as [any]: user payloads, the lifecycle messages
    of types.go, the private poison pill (its [cancel] function is a handle,
    [None] for a nil function), the events of the event stream and the
    [streamDeliver] of package remote.  Timestamps and stack traces are not
    represented. *)
Inductive Msg :=
| User (payload : string)
| Initialized
| Started
| Stopped
| poisonPill (cancel : option nat) (graceful : bool)
| ActorStartedEvent (pid : PID)
| ActorInitializedEvent (pid : PID)
| ActorStoppedEvent (pid : PID)
| ActorRestartedEvent (pid : PID) (Restarts : Z)
| ActorMaxRestartsExceededEvent (pid : PID)
| ActorDuplicateIdEvent (pid : PID)
| EngineRemoteMissingEvent (Target : option PID) (Sender : option PID) (Message : Msg)
| RemoteUnreachableEvent (ListenAddr : string)
| DeadLetterEvent (Target : option PID) (Message : Msg) (Sender : option PID)
| streamDeliver (sender : option PID) (target : option PID) (msg : Msg).

Record Envelope := mkEnvelope { Msg_ : Msg; Sender : option PID }.

(** *** Options (opts.go) *)

Record Opts := mkOpts {
  Kind : string;
  OptID : string;
  MaxRestarts : Z;
  InboxSize : Z
}.

Definition defaultInboxSize : Z := 1024.
Definition defaultMaxRestarts : Z := 3.

Definition DefaultOpts : Opts :=
  {| Kind := ""; OptID := ""; MaxRestarts := defaultMaxRestarts;
     InboxSize := defaultInboxSize |}.

Definition OptFunc := Opts → Opts.

Definition WithID (id : string) : OptFunc :=
  λ o, {| Kind := Kind o; OptID := id; MaxRestarts := MaxRestarts o;
          InboxSize := InboxSize o |}.

Definition WithInboxSize (size : Z) : OptFunc :=
  λ o, {| Kind := Kind o; OptID := OptID o; MaxRestarts := MaxRestarts o;
          InboxSize := size |}.

(** *** Engine and registry (engine.go, registry.go)

    A [Processer] is an interface; the engine only calls its methods.  A
    registered process is represented by its identity [ref] (the Go pointer)
    and its PID, and the method calls the engine makes on it are recorded as
    effects. *)

Record Proc := mkProc { ref : nat; PID_ : PID }.

Inductive Effect :=
| ProcStart (p : Proc)
| ProcSend (p : Proc) (to : option PID) (msg : Msg) (sender : option PID).

(** The [Remoter] of package remote: [Remote.Send] forwards to the stream
    router through the engine. *)
Record Remote := mkRemote { addr : string; streamRouterPID : option PID }.

Record Engine := mkEngine {
  Registry : gmap string Proc;
  address : string;
  remote : option Remote;
  eventStream : option PID
}.

(** [Registry.get]. *)
Definition Registry_get (e : Engine) (pid : option PID) : option Proc :=
  match pid with
  | None => None
  | Some pid => Registry e !! ID pid
  end.

(** [Engine.isLocalMessage]. *)
Definition isLocalMessage (e : Engine) (pid : option PID) : bool :=
  match pid with
  | None => false
  | Some pid => bool_decide (address e = Address pid)
  end.

(** [send], [SendLocal], [BroadcastEvent] and [Remote.Send] call each other;
    [send_rec] stands for the recursive call to [send]. *)
Section SendBody.
Variable send_rec : Engine → option PID → Msg → option PID → option (list Effect).

Definition BroadcastEvent_body (e : Engine) (msg : Msg) : option (list Effect) :=
  match eventStream e with
  | Some es => send_rec e (Some es) msg None
  | None => Some []
  end.

Definition SendLocal_body (e : Engine) (pid : option PID) (msg : Msg)
    (sender : option PID) : option (list Effect) :=
  match Registry_get e pid with
  | None => BroadcastEvent_body e (DeadLetterEvent pid msg sender)
  | Some proc => Some [ProcSend proc pid msg sender]
  end.

Definition Remote_Send_body (r : Remote) (e : Engine) (pid : option PID)
    (msg : Msg) (sender : option PID) : option (list Effect) :=
  send_rec e (streamRouterPID r) (streamDeliver sender pid msg) None.

Definition send_body (e : Engine) (pid : option PID) (msg : Msg)
    (sender : option PID) : option (list Effect) :=
  match pid with
  | None => Some []
  | Some _ =>
      if isLocalMessage e pid then SendLocal_body e pid msg sender
      else match remote e with
           | None => BroadcastEvent_body e
                       (EngineRemoteMissingEvent pid sender msg)
           | Some r => Remote_Send_body r e pid msg sender
           end
  end.
End SendBody.

(** [Engine.send]; [None] when the nesting of calls exceeds [fuel] (without
    a registered event stream a dead letter about the event stream is itself
    a dead letter, and the Go calls nest without bound). *)
Fixpoint send (fuel : nat) (e : Engine) (pid : option PID) (msg : Msg)
    (sender : option PID) : option (list Effect) :=
  match fuel with
  | O => None
  | S fuel' => send_body (send fuel') e pid msg sender
  end.

Definition Send (fuel : nat) (e : Engine) (pid : option PID) (msg : Msg) :=
  send fuel e pid msg None.
Definition SendWithSender (fuel : nat) (e : Engine) (pid : option PID)
    (msg : Msg) (sender : option PID) := send fuel e pid msg sender.
Definition BroadcastEvent (fuel : nat) := BroadcastEvent_body (send fuel).
Definition SendLocal (fuel : nat) := SendLocal_body (send fuel).
Definition Remote_Send (fuel : nat) := Remote_Send_body (send fuel).

(** [Registry.add]. *)
Definition Registry_add (fuel : nat) (e : Engine) (proc : Proc)
    : option (Engine * list Effect) :=
  let id := ID (PID_ proc) in
  match Registry e !! id with
  | Some _ =>
      evs ← BroadcastEvent fuel e (ActorDuplicateIdEvent (PID_ proc));
      Some (e, evs)
  | None =>
      Some ({| Registry := <[id := proc]> (Registry e); address := address e;
               remote := remote e; eventStream := eventStream e |},
            [ProcStart proc])
  end.

(** [Engine.SpawnProc]. *)
Definition SpawnProc (fuel : nat) (e : Engine) (p : Proc)
    : option (Engine * list Effect * PID) :=
  '(e', evs) ← Registry_add fuel e p;
  Some (e', evs, PID_ p).

(** [newProcess]: the process object allocated at [r] for [opts]. *)
Definition newProcess (e : Engine) (r : nat) (opts : Opts) : Proc :=
  {| ref := r; PID_ := NewPID (address e) (Kind opts ++ pidSeparator ++ OptID opts) |}.

(** [Engine.Spawn]; [rand_id] is [strconv.Itoa(rand.Intn(math.MaxInt))] and
    [r] the address of the new process object. *)
Definition Spawn (fuel : nat) (e : Engine) (r : nat) (rand_id : string)
    (kind : string) (opts : list OptFunc) : option (Engine * list Effect * PID) :=
  let options := {| Kind := kind; OptID := OptID DefaultOpts;
                    MaxRestarts := MaxRestarts DefaultOpts;
                    InboxSize := InboxSize DefaultOpts |} in
  let options := foldl (λ o f, f o) options opts in
  let options :=
    if decide (String.length (OptID options) = 0%nat)
    then WithID rand_id options else options in
  SpawnProc fuel e (newProcess e r options).

(** [Remote.Start], as far as the engine is concerned: the stream router is
    spawned and remembered.  [listening] tells whether the listener could be
    set up; [r] and [rand_id] are those of the router process. *)
Definition Remote_Start (fuel : nat) (listen_addr : string) (listening : bool)
    (e : Engine) (r : nat) (rand_id : string) : option (Engine * list Effect) :=
  if listening then
    '(e', evs, router) ← Spawn fuel e r rand_id "router" [WithInboxSize (1024 * 1024)];
    Some ({| Registry := Registry e'; address := address e';
             remote := Some (mkRemote listen_addr (Some router));
             eventStream := eventStream e' |}, evs)
  else None.

(** [NewEngine]; [config_remote] is the listen address of the configured
    remote, if any.  [None] is the error return. *)
Definition NewEngine (fuel : nat) (config_remote : option string) (listening : bool)
    (r_router : nat) (id_router : string) (r_es : nat) (id_es : string)
    : option (Engine * list Effect) :=
  let e := mkEngine ∅ LocalLookupAddr None None in
  '(e, evs1) ← match config_remote with
               | None => Some (e, [])
               | Some listen_addr =>
                   let e := mkEngine (Registry e) listen_addr
                              (Some (mkRemote listen_addr None)) None in
                   Remote_Start fuel listen_addr listening e r_router id_router
               end;
  '(e', evs2, es) ← Spawn fuel e r_es id_es "eventstream" [];
  Some ({| Registry := Registry e'; address := address e'; remote := remote e';
           eventStream := Some es |}, (evs1 ++ evs2)%list).

(** The event stream of a running engine: the PID stored by [NewEngine], on
    the engine's own address, and still registered. *)
Definition eventstream_live (e : Engine) (es : PID) (esp : Proc) : Prop :=
  eventStream e = Some es ∧ Address es = address e ∧
  Registry e !! ID es = Some esp.

(** [msg] is broadcast exactly once and nothing else happens: the only
    effect is its delivery, without sender, to the event-stream process. *)
Definition broadcast_once (es : PID) (esp : Proc) (msg : Msg) : list Effect :=
  [ProcSend esp (Some es) msg None].

(** *** Processes (types.go) and the inbox status (inbox.go) *)

(** What a panic carries: the [*InternalError] of a failed dial, a Go
    runtime error, or any other value. *)
Inductive PanicValue :=
| InternalError
| RuntimeError
| UserPanic (reason : string).

#[global] Instance PanicValue_eq_dec : EqDecision PanicValue.
Proof. solve_decision. Defined.

(** [procStatus] of the inbox. *)
Definition stopped : Z := 0.
Definition starting : Z := 1.
Definition idle : Z := 2.
Definition running : Z := 3.

(** What an observer sees of a process, in order: a call of the receive
    chain (with the number of the receiver incarnation that got it), a
    broadcast on the event stream, the steps of cleanup, a sleep. *)
Inductive Obs :=
| Delivered (incarnation : nat) (msg : Msg) (sender : option PID)
| Broadcast (msg : Msg)
| Detached
| Poisoned (child : PID)
| Unregistered
| Cancelled (cancel : nat)
| Scheduled
| Slept.

Section Process.
(** The state of a receiver. *)
Context {R : Type}.

(** A call of [Receive] returns, or panics, having changed the receiver. *)
Inductive Outcome :=
| Returns (r : R)
| Panics (r : R) (v : PanicValue).

(** [ReceiveFunc], a function of the context: what it does with the message and sender
    of the context, on the receiver of the context. *)
Definition ReceiveFunc := Msg → option PID → R → Outcome.
Definition MiddlewareFunc := ReceiveFunc → ReceiveFunc.

(** [Opts.Producer]: the receiver returned by the [n]-th call. *)
Variable Producer : nat → R.
(** [Receiver.Receive]. *)
Variable Receive : ReceiveFunc.

Record process := mkProcess {
  p_MaxRestarts : Z;
  p_Middleware : list MiddlewareFunc;
  pid : PID;
  has_parent : bool;
  children : list PID;
  restarts : Z;
  mbuffer : list Envelope;
  ctx_receiver : option R;
  ctx_message : option Msg;
  ctx_sender : option PID;
  procStatus : Z;
  produced : nat;
  trace : list Obs
}.

Definition set_restarts (n : Z) (p : process) : process :=
  mkProcess (p_MaxRestarts p) (p_Middleware p) (pid p) (has_parent p) (children p)
    n (mbuffer p) (ctx_receiver p) (ctx_message p) (ctx_sender p)
    (procStatus p) (produced p) (trace p).
Definition set_mbuffer (b : list Envelope) (p : process) : process :=
  mkProcess (p_MaxRestarts p) (p_Middleware p) (pid p) (has_parent p) (children p)
    (restarts p) b (ctx_receiver p) (ctx_message p) (ctx_sender p)
    (procStatus p) (produced p) (trace p).
Definition set_receiver (r : option R) (p : process) : process :=
  mkProcess (p_MaxRestarts p) (p_Middleware p) (pid p) (has_parent p) (children p)
    (restarts p) (mbuffer p) r (ctx_message p) (ctx_sender p)
    (procStatus p) (produced p) (trace p).
Definition set_message (m : Msg) (p : process) : process :=
  mkProcess (p_MaxRestarts p) (p_Middleware p) (pid p) (has_parent p) (children p)
    (restarts p) (mbuffer p) (ctx_receiver p) (Some m) (ctx_sender p)
    (procStatus p) (produced p) (trace p).
Definition set_sender (s : option PID) (p : process) : process :=
  mkProcess (p_MaxRestarts p) (p_Middleware p) (pid p) (has_parent p) (children p)
    (restarts p) (mbuffer p) (ctx_receiver p) (ctx_message p) s
    (procStatus p) (produced p) (trace p).
Definition set_status (s : Z) (p : process) : process :=
  mkProcess (p_MaxRestarts p) (p_Middleware p) (pid p) (has_parent p) (children p)
    (restarts p) (mbuffer p) (ctx_receiver p) (ctx_message p) (ctx_sender p)
    s (produced p) (trace p).
Definition set_produced (n : nat) (p : process) : process :=
  mkProcess (p_MaxRestarts p) (p_Middleware p) (pid p) (has_parent p) (children p)
    (restarts p) (mbuffer p) (ctx_receiver p) (ctx_message p) (ctx_sender p)
    (procStatus p) n (trace p).
Definition log (o : list Obs) (p : process) : process :=
  mkProcess (p_MaxRestarts p) (p_Middleware p) (pid p) (has_parent p) (children p)
    (restarts p) (mbuffer p) (ctx_receiver p) (ctx_message p) (ctx_sender p)
    (procStatus p) (produced p) (trace p ++ o).

(** The result of a method of [process]: it returns, a panic escapes it, or
    the nesting of restarts exceeds the fuel. *)
Inductive Res :=
| Ok (p : process)
| Panic (v : PanicValue) (p : process)
| OutOfFuel.

Definition bind (r : Res) (k : process → Res) : Res :=
  match r with
  | Ok p => k p
  | Panic v p => Panic v p
  | OutOfFuel => OutOfFuel
  end.

(** [applyMiddleware]: [rcv = middleware[i](rcv)] for [i] from last to first. *)
Definition applyMiddleware (rcv : ReceiveFunc) (middleware : list MiddlewareFunc)
    : ReceiveFunc :=
  foldr (λ mw rcv, mw rcv) rcv middleware.

(** [p.context.message = m; f(p.context)]. A nil receiver is a runtime error. *)
Definition deliver (f : ReceiveFunc) (m : Msg) (p : process) : Res :=
  let p := set_message m p in
  match ctx_receiver p with
  | None => Panic RuntimeError p
  | Some r =>
      let p := log [Delivered (produced p) m (ctx_sender p)] p in
      match f m (ctx_sender p) r with
      | Returns r' => Ok (set_receiver (Some r') p)
      | Panics r' v => Panic v (set_receiver (Some r') p)
      end
  end.

Definition is_pill (m : Msg) : bool :=
  match m with poisonPill _ _ => true | _ => false end.

(** [process.invokeMsg]. *)
Definition invokeMsg (msg : Envelope) (p : process) : Res :=
  if is_pill (Msg_ msg) then Ok p
  else
    let p := set_sender (Sender msg) p in
    match p_Middleware p with
    | [] => deliver Receive (Msg_ msg) p
    | _ => deliver (applyMiddleware Receive (p_Middleware p)) (Msg_ msg) p
    end.

(** [Inbox.Start]: from [stopped] the status goes to [starting], [idle] and,
    by [schedule], [running] with the drain task submitted. *)
Definition inbox_Start (p : process) : process :=
  if decide (procStatus p = stopped) then log [Scheduled] (set_status running p)
  else p.

(** [process.cleanup]; the deferred [cancel()] runs last, also when the
    receiver panics, and calling a nil [cancel] is a runtime error. *)
Definition cleanup (cancel : option nat) (p : process) : Res :=
  let p := if has_parent p then log [Detached] p else p in
  let p := log (Poisoned <$> children p) p in
  let p := set_status stopped p in
  let p := log [Unregistered] p in
  let r := bind (deliver (applyMiddleware Receive (p_Middleware p)) Stopped p)
             (λ p, Ok (log [Broadcast (ActorStoppedEvent (pid p))] p)) in
  match r, cancel with
  | Ok p, Some c => Ok (log [Cancelled c] p)
  | Panic v p, Some c => Panic v (log [Cancelled c] p)
  | Ok p, None => Panic RuntimeError p
  | Panic _ p, None => Panic RuntimeError p
  | OutOfFuel, _ => OutOfFuel
  end.

(** [for _, m := range msgs { p.invokeMsg(m) }]. *)
Fixpoint invoke_all (msgs : list Envelope) (p : process) : Res :=
  match msgs with
  | [] => Ok p
  | m :: msgs' => bind (invokeMsg m p) (invoke_all msgs')
  end.

(** The loop of [Invoke] over the messages [rest] still to visit, with the
    counters [nproc] and [processed]; returns the value of [nproc] with the
    result, for the deferred recovery. *)
Fixpoint invoke_loop (msgs rest : list Envelope) (nproc processed : nat)
    (p : process) : Res * nat :=
  match rest with
  | [] => (Ok p, nproc)
  | msg :: rest' =>
      let nproc := S nproc in
      match Msg_ msg with
      | poisonPill cancel graceful =>
          let r := if graceful then invoke_all (drop processed msgs) p else Ok p in
          (bind r (cleanup cancel), nproc)
      | _ =>
          match invokeMsg msg p with
          | Ok p' => invoke_loop msgs rest' nproc (S processed) p'
          | r => (r, nproc)
          end
      end
  end.

(** [Start], [Invoke] and [tryRestart] call each other; [start_rec] stands
    for the call to [Start]. *)
Section Bodies.
Variable start_rec : process → Res.

(** [process.tryRestart]. *)
Definition tryRestart_body (v : PanicValue) (p : process) : Res :=
  match v with
  | InternalError => start_rec (log [Slept] p)
  | _ =>
      if decide (restarts p = p_MaxRestarts p) then
        cleanup None (log [Broadcast (ActorMaxRestartsExceededEvent (pid p))] p)
      else
        let p := set_restarts (int32 (restarts p + 1)) p in
        let p := log [Broadcast (ActorRestartedEvent (pid p) (restarts p)); Slept] p in
        start_rec p
  end.

(** The deferred function of [Invoke] and [Start] once [recover] returned
    [v]: the receiver gets [Stopped] directly, without middleware. *)
Definition recovered (v : PanicValue) (save : process → process) (p : process) : Res :=
  bind (deliver Receive Stopped p) (λ p, tryRestart_body v (save p)).

(** [process.Invoke]. *)
Definition Invoke_body (msgs : list Envelope) (p : process) : Res :=
  match invoke_loop msgs msgs 0 0 p with
  | (Panic v p', nproc) => recovered v (set_mbuffer (drop nproc msgs)) p'
  | (r, _) => r
  end.

(** [process.Start]. *)
Definition Start_body (p : process) : Res :=
  let p := set_receiver (Some (Producer (produced p))) p in
  let p := set_produced (S (produced p)) p in
  let chain := applyMiddleware Receive (p_Middleware p) in
  let r :=
    bind (deliver chain Initialized p) (λ p,
    let p := log [Broadcast (ActorInitializedEvent (pid p))] p in
    bind (deliver chain Started p) (λ p,
    let p := log [Broadcast (ActorStartedEvent (pid p))] p in
    bind (match mbuffer p with
          | [] => Ok p
          | _ => bind (Invoke_body (mbuffer p) p) (λ p, Ok (set_mbuffer [] p))
          end) (λ p,
    Ok (inbox_Start p)))) in
  match r with
  | Panic v p' => recovered v (λ p, p) p'
  | r => r
  end.
End Bodies.

Fixpoint Start (fuel : nat) (p : process) : Res :=
  match fuel with
  | O => OutOfFuel
  | S fuel' => Start_body (Start fuel') p
  end.

Definition Invoke (fuel : nat) := Invoke_body (Start fuel).
Definition tryRestart (fuel : nat) := tryRestart_body (Start fuel).

(** The deliveries of a trace: which incarnation received which message. *)
Definition deliveries (t : list Obs) : list (nat * Msg) :=
  omap (λ o, match o with Delivered k m _ => Some (k, m) | _ => None end) t.

(** Feeding a receiver a list of envelopes through [f]; [None] if one panics. *)
Fixpoint feed (f : ReceiveFunc) (r : R) (msgs : list Envelope) : option R :=
  match msgs with
  | [] => Some r
  | m :: msgs' =>
      match f (Msg_ m) (Sender m) r with
      | Returns r' => feed f r' msgs'
      | Panics _ _ => None
      end
  end.

Definition no_pill (msgs : list Envelope) : Prop :=
  Forall (λ m, is_pill (Msg_ m) = false) msgs.

(** Everything of a process that a delivery leaves alone. *)
Definition frame (p : process) :=
  (p_MaxRestarts p, p_Middleware p, pid p, has_parent p, children p,
   restarts p, mbuffer p, procStatus p, produced p).

(** The trace entries of a batch delivered to incarnation [k]. *)
Definition delivered_to (k : nat) (msgs : list Envelope) : list Obs :=
  (λ m, Delivered k (Msg_ m) (Sender m)) <$> msgs.

End Process.

(** *** Properties of the engine *)

Lemma Equals_eq pid other : Equals pid other = true ↔ pid = other.
Proof.
  unfold Equals. rewrite andb_true_iff, !bool_decide_eq_true.
  destruct pid, other. simpl. split; [by intros [-> ->]|by intros [= -> ->]].
Qed.

Lemma isLocalMessage_true e pid :
  Address pid = address e → isLocalMessage e (Some pid) = true.
Proof. intros H. simpl. by rewrite bool_decide_eq_true. Qed.

Lemma isLocalMessage_false e pid :
  Address pid ≠ address e → isLocalMessage e (Some pid) = false.
Proof. intros H. simpl. by rewrite bool_decide_eq_false. Qed.

(** A broadcast with a live event stream is one delivery to its process. *)
Lemma BroadcastEvent_live fuel e es esp msg :
  eventstream_live e es esp →
  BroadcastEvent (S fuel) e msg = Some (broadcast_once es esp msg).
Proof.
  intros (Hes & Haddr & Hreg). unfold BroadcastEvent, BroadcastEvent_body.
  rewrite Hes. simpl. rewrite bool_decide_eq_true_2 by done.
  unfold SendLocal_body. simpl. by rewrite Hreg.
Qed.

(** X3. [NewEngine] without remote, or with a remote that can listen, always
    succeeds and leaves the engine with a running event stream: the PID of
    the event stream is stored, lies on the engine's own address and is
    registered. *)
Lemma NewEngine_live fuel config_remote r_router id_router r_es id_es :
  ∃ e evs es esp,
    NewEngine fuel config_remote true r_router id_router r_es id_es = Some (e, evs) ∧
    eventstream_live e es esp.
Proof.
  unfold NewEngine. destruct config_remote as [listen_addr|].
  - unfold Remote_Start, Spawn, SpawnProc, Registry_add. cbn.
    rewrite lookup_empty. cbn.
    destruct (decide (String.length id_router = 0%nat)); cbn;
      destruct (decide (String.length id_es = 0%nat)); cbn;
      rewrite lookup_insert_ne by discriminate; rewrite lookup_empty; cbn;
      (eexists _, _, _, _; split; [reflexivity|]);
      (split_and!; [reflexivity|reflexivity|]); cbn; apply lookup_insert_eq.
  - unfold Spawn, SpawnProc, Registry_add. cbn. rewrite lookup_empty. cbn.
    eexists _, _, _, _. split; [reflexivity|].
    split_and!; [reflexivity|reflexivity|]. cbn. apply lookup_insert_eq.
Qed.

(** C1. [Send]/[SendWithSender] on an engine whose event stream is running:
    a nil target is dropped without any effect; a local target that is not
    registered yields exactly one [DeadLetterEvent] broadcast; a non-local
    target without remote yields exactly one [EngineRemoteMissingEvent]
    broadcast; a non-local target with a remote is handed, as a
    [streamDeliver], to the remote's stream router. *)
Theorem send_routing fuel e es esp msg sender :
  eventstream_live e es esp →
  (∀ pid, Send fuel e pid msg = SendWithSender fuel e pid msg None) ∧
  SendWithSender (S fuel) e None msg sender = Some [] ∧
  (∀ pid, Address pid = address e → Registry e !! ID pid = None →
     SendWithSender (S (S fuel)) e (Some pid) msg sender
     = Some (broadcast_once es esp (DeadLetterEvent (Some pid) msg sender))) ∧
  (∀ pid, Address pid ≠ address e → remote e = None →
     SendWithSender (S (S fuel)) e (Some pid) msg sender
     = Some (broadcast_once es esp (EngineRemoteMissingEvent (Some pid) sender msg))) ∧
  (∀ pid r, Address pid ≠ address e → remote e = Some r →
     SendWithSender (S fuel) e (Some pid) msg sender
     = Remote_Send fuel r e (Some pid) msg sender ∧
     ∀ router rp,
       streamRouterPID r = Some router → Address router = address e →
       Registry e !! ID router = Some rp →
       SendWithSender (S (S fuel)) e (Some pid) msg sender
       = Some [ProcSend rp (Some router) (streamDeliver sender (Some pid) msg) None]).
Proof.
  intros Hlive. split_and!; try done.
  - intros pid Haddr Hreg. unfold SendWithSender.
    change (send (S (S fuel)) e (Some pid) msg sender)
      with (send_body (send (S fuel)) e (Some pid) msg sender).
    unfold send_body. rewrite isLocalMessage_true by done.
    unfold SendLocal_body. simpl Registry_get. rewrite Hreg.
    by apply (BroadcastEvent_live fuel).
  - intros pid Haddr Hrem. unfold SendWithSender.
    change (send (S (S fuel)) e (Some pid) msg sender)
      with (send_body (send (S fuel)) e (Some pid) msg sender).
    unfold send_body. rewrite isLocalMessage_false by done. rewrite Hrem.
    by apply (BroadcastEvent_live fuel).
  - intros pid r Haddr Hrem. unfold SendWithSender. split.
    + change (send (S fuel) e (Some pid) msg sender)
        with (send_body (send fuel) e (Some pid) msg sender).
      unfold send_body. rewrite isLocalMessage_false by done. by rewrite Hrem.
    + intros router rp Hr Hra Hreg.
      change (send (S (S fuel)) e (Some pid) msg sender)
        with (send_body (send (S fuel)) e (Some pid) msg sender).
      unfold send_body. rewrite isLocalMessage_false by done. rewrite Hrem.
      unfold Remote_Send_body. rewrite Hr.
      change (send (S fuel) e (Some router) (streamDeliver sender (Some pid) msg) None)
        with (send_body (send fuel) e (Some router)
                (streamDeliver sender (Some pid) msg) None).
      unfold send_body. rewrite isLocalMessage_true by done.
      unfold SendLocal_body. simpl Registry_get. by rewrite Hreg.
Qed.


(** *** Properties of processes *)

Section ProcessProperties.
Context {R : Type}.
Variable Producer : nat → R.
Variable Receive : ReceiveFunc (R:=R).

Local Open Scope list_scope.

Local Abbreviation chain p := (applyMiddleware Receive (p_Middleware p)).

Lemma deliver_returns (f : @ReceiveFunc R) m (p : @process R) r r' :
  ctx_receiver p = Some r → f m (ctx_sender p) r = Returns r' →
  ∃ p1, deliver f m p = Ok p1 ∧ frame p1 = frame p ∧
        ctx_receiver p1 = Some r' ∧ ctx_sender p1 = ctx_sender p ∧
        trace p1 = trace p ++ [Delivered (produced p) m (ctx_sender p)].
Proof.
  intros Hr Hf. unfold deliver. simpl. rewrite Hr, Hf.
  eexists. split; [reflexivity|]. done.
Qed.

Lemma deliver_panics (f : @ReceiveFunc R) m (p : @process R) r r' v :
  ctx_receiver p = Some r → f m (ctx_sender p) r = Panics r' v →
  ∃ p1, deliver f m p = Panic v p1 ∧ frame p1 = frame p ∧
        ctx_receiver p1 = Some r' ∧ ctx_sender p1 = ctx_sender p ∧
        trace p1 = trace p ++ [Delivered (produced p) m (ctx_sender p)].
Proof.
  intros Hr Hf. unfold deliver. simpl. rewrite Hr, Hf.
  eexists. split; [reflexivity|]. done.
Qed.

Lemma invokeMsg_deliver msg (p : @process R) :
  is_pill (Msg_ msg) = false →
  invokeMsg Receive msg p = deliver (chain p) (Msg_ msg) (set_sender (Sender msg) p).
Proof.
  intros Hp. unfold invokeMsg. rewrite Hp. simpl.
  by destruct (p_Middleware p).
Qed.

Lemma frame_Middleware (p p1 : @process R) :
  frame p1 = frame p → p_Middleware p1 = p_Middleware p.
Proof. unfold frame. congruence. Qed.

Lemma frame_produced (p p1 : @process R) :
  frame p1 = frame p → produced p1 = produced p.
Proof. unfold frame. congruence. Qed.

(** A prefix without pill that the receiver handles is delivered message by
    message and the loop goes on behind it. *)
Lemma invoke_loop_prefix msgs pre : ∀ rest n k (p : @process R) r r1,
  no_pill pre → ctx_receiver p = Some r → feed (chain p) r pre = Some r1 →
  ∃ p1, invoke_loop Receive msgs (pre ++ rest) n k p
        = invoke_loop Receive msgs rest (n + length pre) (k + length pre) p1 ∧
        frame p1 = frame p ∧ ctx_receiver p1 = Some r1 ∧
        trace p1 = trace p ++ delivered_to (produced p) pre.
Proof.
  induction pre as [|m pre IH]; intros rest n k p r r1 Hnp Hr Hfeed.
  - simpl in *. exists p. rewrite !Nat.add_0_r, app_nil_r.
    split_and!; congruence.
  - apply Forall_cons in Hnp as [Hm Hnp]. simpl in Hfeed.
    destruct (chain p (Msg_ m) (Sender m) r) as [r'|] eqn:Hc; [|done].
    destruct (deliver_returns (chain p) (Msg_ m) (set_sender (Sender m) p) r r')
      as (p0 & Hd & Hfr & Hr0 & _ & Htr); [done|done|].
    simpl in Htr.
    assert (frame p0 = frame p) as Hfr' by (rewrite Hfr; done).
    destruct (IH rest (S n) (S k) p0 r' r1 Hnp Hr0) as (p1 & Hl & Hfr1 & Hr1 & Htr1).
    { by rewrite (frame_Middleware p p0). }
    exists p1. split_and!.
    + simpl. rewrite <- invokeMsg_deliver in Hd by done.
      destruct (Msg_ m); try done; rewrite Hd, Hl; f_equal; lia.
    + congruence.
    + done.
    + rewrite Htr1, Htr, (frame_produced p p0) by done.
      by rewrite <- app_assoc.
Qed.

Lemma invoke_loop_nonpill msgs m rest n k (p : @process R) :
  is_pill (Msg_ m) = false →
  invoke_loop Receive msgs (m :: rest) n k p
  = match invokeMsg Receive m p with
    | Ok p' => invoke_loop Receive msgs rest (S n) (S k) p'
    | r => (r, S n)
    end.
Proof. intros Hm. simpl. by destruct (Msg_ m). Qed.

(** A batch without pill that the receiver handles: [Invoke] delivers it. *)
Lemma Invoke_body_ok start msgs (p : @process R) r r1 :
  no_pill msgs → ctx_receiver p = Some r → feed (chain p) r msgs = Some r1 →
  ∃ p1, Invoke_body Receive start msgs p = Ok p1 ∧ frame p1 = frame p ∧
        ctx_receiver p1 = Some r1 ∧
        trace p1 = trace p ++ delivered_to (produced p) msgs.
Proof.
  intros Hnp Hr Hfeed.
  destruct (invoke_loop_prefix msgs msgs [] 0 0 p r r1 Hnp Hr Hfeed)
    as (p1 & Hl & Hfr & Hr1 & Htr).
  exists p1. unfold Invoke_body. rewrite app_nil_r in Hl. rewrite Hl. simpl.
  done.
Qed.

(** [Start] with a buffered tail: the fresh receiver gets [Initialized] and
    [Started], then the buffered messages, and the buffer is emptied. *)
Lemma Start_replays fuel (p : @process R) tl a1 a2 a3 :
  mbuffer p = tl → no_pill tl → procStatus p ≠ stopped →
  chain p Initialized (ctx_sender p) (Producer (produced p)) = Returns a1 →
  chain p Started (ctx_sender p) a1 = Returns a2 →
  feed (chain p) a2 tl = Some a3 →
  ∃ p', Start Producer Receive (S fuel) p = Ok p' ∧
    trace p' = trace p ++
      [Delivered (S (produced p)) Initialized (ctx_sender p);
       Broadcast (ActorInitializedEvent (pid p));
       Delivered (S (produced p)) Started (ctx_sender p);
       Broadcast (ActorStartedEvent (pid p))] ++
      delivered_to (S (produced p)) tl ∧
    ctx_receiver p' = Some a3 ∧ restarts p' = restarts p ∧
    p_MaxRestarts p' = p_MaxRestarts p ∧
    mbuffer p' = [] ∧ produced p' = S (produced p).
Proof.
  intros Hbuf Hnp Hst Hi Hs Hfeed.
  change (Start Producer Receive (S fuel) p)
    with (Start_body Producer Receive (Start Producer Receive fuel) p).
  unfold Start_body. cbv zeta.
  pose (p0 := set_produced (S (produced p))
                (set_receiver (Some (Producer (produced p))) p)).
  change (set_produced _ (set_receiver _ p)) with p0.
  change (p_Middleware p0) with (p_Middleware p).
  destruct (deliver_returns (chain p) Initialized p0 (Producer (produced p)) a1)
    as (p1 & -> & Hf1 & Hr1 & Hs1 & Ht1); [done|done|].
  simpl bind.
  set (p1' := log [Broadcast (ActorInitializedEvent (pid p1))] p1).
  destruct (deliver_returns (chain p) Started p1' a1 a2)
    as (p2 & -> & Hf2 & Hr2 & Hs2 & Ht2); [done| |].
  { simpl. by rewrite Hs1. }
  simpl bind.
  set (p2' := log [Broadcast (ActorStartedEvent (pid p2))] p2).
  assert (frame p2 = frame p0) as Hf20.
  { rewrite Hf2. unfold p1'. unfold frame in *. simpl. done. }
  unfold frame in Hf1, Hf20. simpl in Hf1, Hf20.
  injection Hf20 as Hmax Hmw Hpid Hpar Hch Hres Hmb Hstat Hprod.
  injection Hf1 as Hmax1 Hmw1 Hpid1 Hpar1 Hch1 Hres1 Hmb1 Hstat1 Hprod1.
  assert (trace p2' = trace p ++
      [Delivered (S (produced p)) Initialized (ctx_sender p);
       Broadcast (ActorInitializedEvent (pid p));
       Delivered (S (produced p)) Started (ctx_sender p);
       Broadcast (ActorStartedEvent (pid p))]) as Htr.
  { unfold p2'. simpl. rewrite Ht2. unfold p1'. simpl. rewrite Ht1. simpl.
    rewrite Hs1, Hprod1, Hpid1, Hpid. simpl.
    by rewrite <- !app_assoc. }
  destruct tl as [|m tl].
  - change (mbuffer p2') with (mbuffer p2). rewrite Hmb, Hbuf. simpl bind.
    unfold inbox_Start. rewrite decide_False by (simpl; congruence).
    exists p2'. split; [done|]. simpl in Hfeed.
    split_and!; simpl; try congruence.
    exact Htr.
  - change (mbuffer p2') with (mbuffer p2). rewrite Hmb, Hbuf.
    destruct (Invoke_body_ok (Start Producer Receive fuel) (m :: tl) p2' a2 a3)
      as (p3 & -> & Hf3 & Hr3 & Ht3); [done|done| |].
    { by change (p_Middleware p2') with (p_Middleware p2); rewrite Hmw. }
    simpl bind.
    unfold frame in Hf3. simpl in Hf3.
    injection Hf3 as Hmax3 Hmw3 Hpid3 Hpar3 Hch3 Hres3 Hmb3 Hstat3 Hprod3.
    unfold inbox_Start. rewrite decide_False by (simpl; congruence).
    eexists. split; [reflexivity|]. simpl.
    split_and!; try congruence.
    rewrite Ht3, Htr. simpl. rewrite Hprod. by rewrite <- app_assoc.
Qed.

Lemma deliveries_app (t1 t2 : list Obs) :
  deliveries (t1 ++ t2) = deliveries t1 ++ deliveries t2.
Proof. apply omap_app. Qed.

Lemma deliveries_delivered_to k (msgs : list Envelope) :
  deliveries (delivered_to k msgs) = (λ e, (k, Msg_ e)) <$> msgs.
Proof.
  induction msgs as [|m msgs IH]; [done|].
  change (deliveries (delivered_to k (m :: msgs)))
    with ((k, Msg_ m) :: deliveries (delivered_to k msgs)).
  by rewrite IH.
Qed.

(** X4. Restart with replay, for a batch that holds no poison pill.  The receiver
    handles the messages before index [length pre], panics (not with an
    [InternalError]) on the message [m] at that index, and the restart
    counter is below [MaxRestarts]; the old receiver takes [Stopped] and the
    fresh one [Initialized], [Started] and the tail [tl] without panic.  Then
    the loop stops with [nproc] just past [m], so that the tail behind [m] is
    what is saved in [mbuffer]; and [Invoke] returns after the fresh
    incarnation has received [Initialized], [Started] and then the tail, [m]
    itself being delivered once, to the old incarnation only. *)
Lemma Invoke_replays_tail fuel (p : @process R) pre m tl r r1 r2 v r3 a1 a2 a3 :
  ctx_receiver p = Some r →
  procStatus p ≠ stopped →
  (- 2 ^ 31 ≤ restarts p < p_MaxRestarts p)%Z → (p_MaxRestarts p ≤ 2 ^ 31 - 1)%Z →
  no_pill (pre ++ m :: tl) →
  feed (chain p) r pre = Some r1 →
  chain p (Msg_ m) (Sender m) r1 = Panics r2 v → v ≠ InternalError →
  Receive Stopped (Sender m) r2 = Returns r3 →
  chain p Initialized (Sender m) (Producer (produced p)) = Returns a1 →
  chain p Started (Sender m) a1 = Returns a2 →
  feed (chain p) a2 tl = Some a3 →
  (∃ p2, invoke_loop Receive (pre ++ m :: tl) (pre ++ m :: tl) 0 0 p
         = (Panic v p2, S (length pre)) ∧
         drop (S (length pre)) (pre ++ m :: tl) = tl) ∧
  ∃ p', Invoke Producer Receive (S fuel) (pre ++ m :: tl) p = Ok p' ∧
    deliveries (trace p') =
      deliveries (trace p) ++ ((λ e, (produced p, Msg_ e)) <$> pre) ++
      [(produced p, Msg_ m); (produced p, Stopped);
       (S (produced p), Initialized); (S (produced p), Started)] ++
      ((λ e, (S (produced p), Msg_ e)) <$> tl) ∧
    ctx_receiver p' = Some a3 ∧ restarts p' = (restarts p + 1)%Z ∧
    mbuffer p' = [] ∧ produced p' = S (produced p).
Proof.
  intros Hr Hst Hres Hmax Hnp Hpre Hm Hv Hstop Hinit Hstart Htl.
  apply Forall_app in Hnp as [Hnp_pre Hnp]. apply Forall_cons in Hnp as [Hnp_m Hnp_tl].
  set (msgs := pre ++ m :: tl).
  destruct (invoke_loop_prefix msgs pre (m :: tl) 0 0 p r r1 Hnp_pre Hr Hpre)
    as (p1 & Hl & Hf1 & Hr1 & Ht1).
  pose proof Hf1 as Hf1'. unfold frame in Hf1'.
  injection Hf1' as Hmax1 Hmw1 Hpid1 Hpar1 Hch1 Hres1 Hmb1 Hstat1 Hprod1.
  destruct (deliver_panics (chain p) (Msg_ m) (set_sender (Sender m) p1) r1 r2 v)
    as (p2 & Hd & Hf2 & Hr2 & Hs2 & Ht2); [done|done|].
  simpl in Hs2, Ht2. unfold frame in Hf2. simpl in Hf2.
  injection Hf2 as Hmax2 Hmw2 Hpid2 Hpar2 Hch2 Hres2 Hmb2 Hstat2 Hprod2.
  assert (invoke_loop Receive msgs msgs 0 0 p = (Panic v p2, S (length pre))) as Hloop.
  { unfold msgs at 2. rewrite Hl, invoke_loop_nonpill by done.
    rewrite invokeMsg_deliver by done. rewrite Hmw1, Hd. done. }
  assert (drop (S (length pre)) msgs = tl) as Hdrop.
  { unfold msgs. rewrite drop_app_ge by lia.
    by replace (S (length pre) - length pre)%nat with 1%nat by lia. }
  split; [by exists p2|].
  unfold Invoke, Invoke_body. rewrite Hloop, Hdrop. unfold recovered.
  destruct (deliver_returns Receive Stopped p2 r2 r3)
    as (p3 & -> & Hf3 & Hr3 & Hs3 & Ht3); [done|by rewrite Hs2|].
  simpl bind. unfold frame in Hf3.
  injection Hf3 as Hmax3 Hmw3 Hpid3 Hpar3 Hch3 Hres3 Hmb3 Hstat3 Hprod3.
  set (p4 := log [Broadcast (ActorRestartedEvent (pid p3) (int32 (restarts p3 + 1)%Z)); Slept]
               (set_restarts (int32 (restarts p3 + 1)%Z) (set_mbuffer tl p3))).
  change (tryRestart_body Receive _ v (set_mbuffer tl p3))
    with (tryRestart_body Receive (Start Producer Receive (S fuel)) v (set_mbuffer tl p3)).
  assert (tryRestart_body Receive (Start Producer Receive (S fuel)) v (set_mbuffer tl p3)
          = Start Producer Receive (S fuel) p4) as ->.
  { unfold tryRestart_body. rewrite decide_False by (simpl; lia).
    by destruct v. }
  destruct (Start_replays fuel p4 tl a1 a2 a3)
    as (p' & HS & Htr & Hrcv & Hrs & _ & Hbuf & Hprod); try done.
  { simpl. congruence. }
  { simpl. rewrite Hmw3, Hmw2, Hmw1, Hs3, Hs2, Hprod3, Hprod2, Hprod1. done. }
  { simpl. rewrite Hmw3, Hmw2, Hmw1, Hs3, Hs2. done. }
  { simpl. rewrite Hmw3, Hmw2, Hmw1. done. }
  exists p'. split; [done|]. split_and!; try done.
  - rewrite Htr. simpl. rewrite Ht3, Ht2, Ht1.
    rewrite Hprod3, Hprod2, Hprod1.
    rewrite !deliveries_app, !deliveries_delivered_to. simpl.
    rewrite <- !app_assoc. by rewrite deliveries_delivered_to.
  - rewrite Hrs. simpl. rewrite int32_id; lia.
  - rewrite Hprod. simpl. congruence.
Qed.

End ProcessProperties.


(** *** A receiver that panics on "crash" in its first incarnation *)

(** The receiver keeps the number of the [Producer] call that made it and the
    payloads it has handled. *)
Definition ex_Producer (n : nat) : nat * list string := (n, []).

Definition ex_Receive : ReceiveFunc (R := nat * list string) :=
  λ msg _ r,
    match msg with
    | User s =>
        if bool_decide (s = "crash") && bool_decide (r.1 = 0%nat)
        then Panics r (UserPanic "crash")
        else Returns (r.1, (r.2 ++ [s])%list)
    | _ => Returns r
    end.

Definition ex_pid : PID := NewPID "local" "worker/1".

(** The process as [newProcess] leaves it, with [MaxRestarts = 3]. *)
Definition ex_new : process (R := nat * list string) :=
  mkProcess 3 [] ex_pid false [] 0 [] None None None stopped 0 [].

(** The process once started. *)
Definition ex_started : process (R := nat * list string) :=
  mkProcess 3 [] ex_pid false [] 0 [] (Some (0%nat, [])) (Some Started) None
    running 1
    [Delivered 1 Initialized None; Broadcast (ActorInitializedEvent ex_pid);
     Delivered 1 Started None; Broadcast (ActorStartedEvent ex_pid); Scheduled].

Lemma ex_started_reached : Start ex_Producer ex_Receive 1 ex_new = Ok ex_started.
Proof. reflexivity. Qed.

Definition env (m : Msg) : Envelope := mkEnvelope m None.

(** Scenario S3: the batch "a", "crash", "b". *)
Lemma Invoke_replays_tail_example :
  ∃ p', Invoke ex_Producer ex_Receive 1
          [env (User "a"); env (User "crash"); env (User "b")] ex_started = Ok p' ∧
    deliveries (trace p') =
      [(1%nat, Initialized); (1%nat, Started);
       (1%nat, User "a"); (1%nat, User "crash"); (1%nat, Stopped);
       (2%nat, Initialized); (2%nat, Started); (2%nat, User "b")] ∧
    ctx_receiver p' = Some (1%nat, ["b"]) ∧ restarts p' = 1%Z.
Proof.
  destruct (Invoke_replays_tail ex_Producer ex_Receive 0 ex_started
              [env (User "a")] (env (User "crash")) [env (User "b")]
              (0%nat, []) (0%nat, ["a"]) (0%nat, ["a"]) (UserPanic "crash")
              (0%nat, ["a"]) (1%nat, []) (1%nat, []) (1%nat, ["b"]))
    as (_ & p' & HI & Hd & Hr & Hres & _); try reflexivity; try done.
  - repeat constructor.
  - exists p'. split_and!; done.
Defined.

(** C2 fails on a batch with a graceful poison pill in front.  The batch is
    [pill; "a"; "crash"; "b"]: the graceful drain hands "a" and then "crash"
    to the receiver, which panics; [nproc] still counts the pill only, so
    [mbuffer] becomes ["a"; "crash"; "b"] instead of ["b"], and after the
    restart the fresh receiver gets "a" and "crash" a second time. *)
Theorem Invoke_graceful_pill_replays_processed :
  let batch := [env (poisonPill (Some 0%nat) true); env (User "a");
                env (User "crash"); env (User "b")] in
  (∃ p2, invoke_loop ex_Receive batch batch 0 0 ex_started
         = (Panic (UserPanic "crash") p2, 1%nat)) ∧
  drop 1 batch = [env (User "a"); env (User "crash"); env (User "b")] ∧
  ∃ p', Invoke ex_Producer ex_Receive 1 batch ex_started = Ok p' ∧
    deliveries (trace p') =
      [(1%nat, Initialized); (1%nat, Started);
       (1%nat, User "a"); (1%nat, User "crash"); (1%nat, Stopped);
       (2%nat, Initialized); (2%nat, Started);
       (2%nat, User "a"); (2%nat, User "crash"); (2%nat, User "b")] ∧
    procStatus p' = running.
Proof.
  split; [|split].
  - eexists. vm_compute. reflexivity.
  - reflexivity.
  - eexists. split; [vm_compute; reflexivity|]. split; reflexivity.
Qed.


(** *** An engine without remote whose event stream is running *)

Definition ex_es : PID := NewPID "local" "eventstream/1".
Definition ex_esp : Proc := mkProc 0 ex_es.
Definition ex_engine : Engine :=
  mkEngine {[ "eventstream/1" := ex_esp ]} "local" None (Some ex_es).

Lemma ex_engine_live : eventstream_live ex_engine ex_es ex_esp.
Proof. split_and!; reflexivity. Defined.

(** Scenario S2: a send to the unknown local PID [local/missing]. *)
Lemma send_routing_witness :
  SendWithSender 2 ex_engine (Some (NewPID "local" "missing")) (User "42") None
  = Some (broadcast_once ex_es ex_esp
            (DeadLetterEvent (Some (NewPID "local" "missing")) (User "42") None)).
Proof.
  destruct (send_routing 0 ex_engine ex_es ex_esp (User "42") None ex_engine_live)
    as (_ & _ & Hdead & _).
  apply Hdead; reflexivity.
Defined.


(** *** More of the engine: registry lookups and removal, poison pills,
        requests *)

(** [Registry.Remove]. *)
Definition Registry_Remove (e : Engine) (pid : PID) : Engine :=
  {| Registry := delete (ID pid) (Registry e); address := address e;
     remote := remote e; eventStream := eventStream e |}.



(** [Engine.sendPoisonPill]; [cancel] is the handle of the cancel function
    of the fresh context, and the boolean of the result tells whether the
    engine has called it before returning. *)
Definition sendPoisonPill (fuel : nat) (e : Engine) (cancel : nat)
    (graceful : bool) (pid : option PID) : option (list Effect * bool) :=
  let pill := poisonPill (Some cancel) graceful in
  match Registry_get e pid with
  | None =>
      evs ← BroadcastEvent fuel e (DeadLetterEvent pid pill None);
      Some (evs, true)
  | Some _ =>
      evs ← SendLocal fuel e pid pill None;
      Some (evs, false)
  end.

(** [Engine.Stop] and [Engine.Poison]. *)
Definition Stop (fuel : nat) (e : Engine) (cancel : nat) (pid : option PID) :=
  sendPoisonPill fuel e cancel false pid.
Definition Poison (fuel : nat) (e : Engine) (cancel : nat) (pid : option PID) :=
  sendPoisonPill fuel e cancel true pid.

(** [NewResponse]: the response object allocated at [r]; [rand_id] is
    [strconv.Itoa(rand.Intn(math.MaxInt32))]. *)
Definition NewResponse (e : Engine) (r : nat) (rand_id : string) : Proc :=
  {| ref := r;
     PID_ := NewPID (address e) ("response" ++ pidSeparator ++ rand_id) |}.

(** [Engine.Request]. *)
Definition Request (fuel : nat) (e : Engine) (r : nat) (rand_id : string)
    (pid : option PID) (msg : Msg) : option (Engine * list Effect * Proc) :=
  let resp := NewResponse e r rand_id in
  '(e', evs1) ← Registry_add fuel e resp;
  evs2 ← SendWithSender fuel e' pid msg (Some (PID_ resp));
  Some (e', (evs1 ++ evs2)%list, resp).

(** What [Response.Result] does to the engine, on either way out: the
    deferred [Registry.Remove] of the response. *)
Definition Response_Result (e : Engine) (resp : Proc) : Engine :=
  Registry_Remove e (PID_ resp).

(** [Engine.Subscribe] and [Engine.Unsubscribe] send to the event stream;
    the subscription messages are not among the values of [Msg]. *)

Lemma Registry_Remove_add e p :
  Registry e !! ID (PID_ p) = None →
  Registry_Remove
    {| Registry := <[ID (PID_ p) := p]> (Registry e); address := address e;
       remote := remote e; eventStream := eventStream e |} (PID_ p) = e.
Proof.
  intros Hfresh. unfold Registry_Remove. destruct e as [reg a rm es]. simpl in *.
  f_equal. by apply delete_insert_id.
Qed.

Lemma send_local_registered fuel e pid proc msg sender :
  Address pid = address e → Registry e !! ID pid = Some proc →
  send (S fuel) e (Some pid) msg sender = Some [ProcSend proc (Some pid) msg sender].
Proof.
  intros Haddr Hreg.
  change (send (S fuel) e (Some pid) msg sender)
    with (send_body (send fuel) e (Some pid) msg sender).
  unfold send_body. rewrite isLocalMessage_true by done.
  unfold SendLocal_body. simpl Registry_get. by rewrite Hreg.
Qed.


(** X6. Poisoning on an engine whose event stream is running.  A PID whose
    id is not registered (the nil PID included) gives exactly one
    [DeadLetterEvent] that carries the pill, and the returned context is
    cancelled at once.  A PID whose id is registered gets the pill delivered
    to that local process, whatever the address of the PID says: the pill is
    never handed to the remote, and the context is left for the process to
    cancel.  [Stop] sends the pill that is not graceful, [Poison] the
    graceful one. *)
Theorem sendPoisonPill_spec fuel e es esp cancel graceful :
  eventstream_live e es esp →
  let pill := poisonPill (Some cancel) graceful in
  (∀ pid, Registry_get e pid = None →
     sendPoisonPill (S fuel) e cancel graceful pid
     = Some (broadcast_once es esp (DeadLetterEvent pid pill None), true)) ∧
  (∀ pid proc, Registry e !! ID pid = Some proc →
     sendPoisonPill fuel e cancel graceful (Some pid)
     = Some ([ProcSend proc (Some pid) pill None], false)) ∧
  Stop fuel e cancel = sendPoisonPill fuel e cancel false ∧
  Poison fuel e cancel = sendPoisonPill fuel e cancel true.
Proof.
  intros Hlive pill. split_and!; [| |done|done].
  - intros pid Hnone. unfold sendPoisonPill. rewrite Hnone.
    by rewrite (BroadcastEvent_live fuel e es esp).
  - intros pid proc Hreg. unfold sendPoisonPill. simpl Registry_get.
    rewrite Hreg. unfold SendLocal, SendLocal_body. simpl Registry_get.
    by rewrite Hreg.
Qed.

(** X7. A request to a registered local process, made while the id drawn for
    the response is free: the response object is registered and started, the
    target gets the message with the PID of the response as its sender, a
    message sent to that PID reaches the response object, and [Result] leaves
    the engine as it was before the request. *)
Theorem Request_Result_roundtrip fuel e r rand_id pid proc msg :
  let resp := NewResponse e r rand_id in
  Registry e !! ID (PID_ resp) = None →
  Address pid = address e → Registry e !! ID pid = Some proc →
  ∃ e', Request (S fuel) e r rand_id (Some pid) msg
        = Some (e', [ProcStart resp; ProcSend proc (Some pid) msg (Some (PID_ resp))],
                resp) ∧
    (∀ reply sender,
       SendWithSender (S fuel) e' (Some (PID_ resp)) reply sender
       = Some [ProcSend resp (Some (PID_ resp)) reply sender]) ∧
    Response_Result e' resp = e.
Proof.
  intros resp Hfresh Haddr Hreg.
  set (e' := {| Registry := <[ID (PID_ resp) := resp]> (Registry e);
                address := address e; remote := remote e;
                eventStream := eventStream e |}).
  assert (ID pid ≠ ID (PID_ resp)) as Hne by congruence.
  exists e'. split_and!.
  - unfold Request. fold resp. unfold Registry_add. rewrite Hfresh.
    cbn [mbind option_bind]. fold e'. unfold SendWithSender.
    rewrite (send_local_registered fuel e' pid proc); [done|done|].
    simpl. by rewrite lookup_insert_ne.
  - intros reply sender. apply send_local_registered; [done|].
    simpl. apply lookup_insert_eq.
  - by apply Registry_Remove_add.
Qed.

(** X8. Once the process of the event stream is gone from the registry, a
    broadcast does not come back: the dead letter about the undeliverable
    event is itself an event for the event stream, and the calls nest without
    bound.  The same holds for any send to an unregistered local PID. *)
Theorem BroadcastEvent_unregistered_diverges e es :
  eventStream e = Some es → Address es = address e → Registry e !! ID es = None →
  ∀ fuel,
    (∀ msg, BroadcastEvent fuel e msg = None) ∧
    (∀ pid msg sender, Address pid = address e → Registry e !! ID pid = None →
       SendWithSender fuel e (Some pid) msg sender = None).
Proof.
  intros Hes Haddr Hreg.
  assert (∀ fuel msg, BroadcastEvent fuel e msg = None) as Hb.
  { induction fuel as [|fuel IH]; intros msg;
      unfold BroadcastEvent, BroadcastEvent_body; rewrite Hes; [done|].
    change (send (S fuel) e (Some es) msg None)
      with (send_body (send fuel) e (Some es) msg None).
    unfold send_body. rewrite isLocalMessage_true by done.
    unfold SendLocal_body. simpl Registry_get. rewrite Hreg.
    apply IH. }
  intros fuel. split; [done|].
  intros pid msg sender Hpa Hpr. unfold SendWithSender.
  destruct fuel as [|fuel]; [done|].
  change (send (S fuel) e (Some pid) msg sender)
    with (send_body (send fuel) e (Some pid) msg sender).
  unfold send_body. rewrite isLocalMessage_true by done.
  unfold SendLocal_body. simpl Registry_get. rewrite Hpr.
  apply Hb.
Qed.


Lemma sendPoisonPill_spec_witness :
  sendPoisonPill 1 ex_engine 9 true (Some (NewPID "local" "missing"))
  = Some (broadcast_once ex_es ex_esp
            (DeadLetterEvent (Some (NewPID "local" "missing"))
               (poisonPill (Some 9%nat) true) None), true) ∧
  sendPoisonPill 0 ex_engine 9 false (Some (NewPID "elsewhere:4000" "eventstream/1"))
  = Some ([ProcSend ex_esp (Some (NewPID "elsewhere:4000" "eventstream/1"))
             (poisonPill (Some 9%nat) false) None], false).
Proof.
  split.
  - destruct (sendPoisonPill_spec 0 ex_engine ex_es ex_esp 9 true ex_engine_live)
      as (Hdead & _).
    apply Hdead. reflexivity.
  - destruct (sendPoisonPill_spec 0 ex_engine ex_es ex_esp 9 false ex_engine_live)
      as (_ & Hsend & _).
    apply Hsend. reflexivity.
Defined.

Lemma Request_Result_roundtrip_witness :
  ∃ e', Request 1 ex_engine 8 "12345" (Some ex_es) (User "ping")
        = Some (e', [ProcStart (NewResponse ex_engine 8 "12345");
                     ProcSend ex_esp (Some ex_es) (User "ping")
                       (Some (NewPID "local" "response/12345"))],
                NewResponse ex_engine 8 "12345") ∧
    Response_Result e' (NewResponse ex_engine 8 "12345") = ex_engine.
Proof.
  destruct (Request_Result_roundtrip 0 ex_engine 8 "12345" ex_es ex_esp (User "ping"))
    as (e' & Hreq & _ & Hres); [reflexivity|reflexivity|reflexivity|].
  exists e'. split; [exact Hreq|exact Hres].
Defined.

(** The engine of the examples after its event stream has been removed. *)
Definition ex_engine_headless : Engine := Registry_Remove ex_engine ex_es.

Lemma BroadcastEvent_unregistered_diverges_witness :
  BroadcastEvent 1000 ex_engine_headless (ActorStartedEvent ex_pid) = None.
Proof.
  destruct (BroadcastEvent_unregistered_diverges ex_engine_headless ex_es)
    with (fuel := 1000%nat) as [Hb _]; [reflexivity|reflexivity|reflexivity|].
  apply Hb.
Defined.

(** *** The life of a process: first start, poison pills, the last restart *)

Section ProcessLifecycle.
Context {R : Type}.
Variable Producer : nat → R.
Variable Receive : ReceiveFunc (R:=R).

Local Open Scope list_scope.

Local Abbreviation chain p := (applyMiddleware Receive (p_Middleware p)).

(** The sender the context holds after the envelopes [msgs] went through
    [invokeMsg]: that of the last one. *)
Definition last_sender (s : option PID) (msgs : list Envelope) : option PID :=
  foldl (λ _ m, Sender m) s msgs.

(** The envelopes [invokeMsg] does not filter out. *)
Definition non_pills (msgs : list Envelope) : list Envelope :=
  filter (λ m, is_pill (Msg_ m) = false) msgs.

(** The trace entries of [cleanup], the call of [cancel] apart. *)
Definition cleanup_trace (p : @process R) : list Obs :=
  (if has_parent p then [Detached] else []) ++ (Poisoned <$> children p) ++
  [Unregistered; Delivered (produced p) Stopped (ctx_sender p);
   Broadcast (ActorStoppedEvent (pid p))].

(** No poison pill among the messages handed to a receiver. *)
Definition pill_free (t : list Obs) : Prop :=
  Forall (λ o, match o with Delivered _ m _ => is_pill m = false | _ => True end) t.

Definition res_pill_free (r : @Res R) : Prop :=
  match r with
  | Ok p | Panic _ p => pill_free (trace p)
  | OutOfFuel => True
  end.

Lemma last_sender_app s (l1 l2 : list Envelope) :
  last_sender s (l1 ++ l2) = last_sender (last_sender s l1) l2.
Proof. apply foldl_app. Qed.

Lemma feed_app (f : @ReceiveFunc R) (l1 l2 : list Envelope) : ∀ r,
  feed f r (l1 ++ l2) = match feed f r l1 with Some r1 => feed f r1 l2 | None => None end.
Proof.
  induction l1 as [|m l1 IH]; intros r; [done|]. simpl.
  destruct (f (Msg_ m) (Sender m) r); [apply IH|done].
Qed.

Lemma invoke_loop_prefix_sender msgs pre : ∀ rest n k (p : @process R) r r1,
  no_pill pre → ctx_receiver p = Some r → feed (chain p) r pre = Some r1 →
  ∃ p1, invoke_loop Receive msgs (pre ++ rest) n k p
        = invoke_loop Receive msgs rest (n + length pre) (k + length pre) p1 ∧
        frame p1 = frame p ∧ ctx_receiver p1 = Some r1 ∧
        ctx_sender p1 = last_sender (ctx_sender p) pre ∧
        trace p1 = trace p ++ delivered_to (produced p) pre.
Proof.
  induction pre as [|m pre IH]; intros rest n k p r r1 Hnp Hr Hfeed.
  - simpl in *. exists p. rewrite !Nat.add_0_r, app_nil_r.
    split_and!; congruence.
  - apply Forall_cons in Hnp as [Hm Hnp]. simpl in Hfeed.
    destruct (chain p (Msg_ m) (Sender m) r) as [r'|] eqn:Hc; [|done].
    destruct (deliver_returns (chain p) (Msg_ m) (set_sender (Sender m) p) r r')
      as (p0 & Hd & Hfr & Hr0 & Hs0 & Htr); [done|done|].
    simpl in Htr, Hs0.
    assert (frame p0 = frame p) as Hfr' by (rewrite Hfr; done).
    destruct (IH rest (S n) (S k) p0 r' r1 Hnp Hr0) as (p1 & Hl & Hfr1 & Hr1 & Hs1 & Htr1).
    { by rewrite (frame_Middleware p p0). }
    exists p1. split_and!.
    + simpl. rewrite <- invokeMsg_deliver in Hd by done.
      destruct (Msg_ m); try done; rewrite Hd, Hl; f_equal; lia.
    + congruence.
    + done.
    + rewrite Hs1, Hs0. done.
    + rewrite Htr1, Htr, (frame_produced p p0) by done.
      by rewrite <- app_assoc.
Qed.

Lemma invoke_all_feed msgs : ∀ (p : @process R) r r1,
  ctx_receiver p = Some r → feed (chain p) r (non_pills msgs) = Some r1 →
  ∃ p1, invoke_all Receive msgs p = Ok p1 ∧ frame p1 = frame p ∧
        ctx_receiver p1 = Some r1 ∧
        ctx_sender p1 = last_sender (ctx_sender p) (non_pills msgs) ∧
        trace p1 = trace p ++ delivered_to (produced p) (non_pills msgs).
Proof.
  induction msgs as [|m msgs IH]; intros p r r1 Hr Hfeed.
  - simpl in *. exists p. rewrite app_nil_r. split_and!; congruence.
  - unfold non_pills in *. rewrite filter_cons in Hfeed |- *.
    destruct (decide (is_pill (Msg_ m) = false)) as [Hm|Hm].
    + simpl in Hfeed.
      destruct (chain p (Msg_ m) (Sender m) r) as [r'|] eqn:Hc; [|done].
      destruct (deliver_returns (chain p) (Msg_ m) (set_sender (Sender m) p) r r')
        as (p0 & Hd & Hfr & Hr0 & Hs0 & Htr); [done|done|].
      simpl in Htr, Hs0.
      assert (frame p0 = frame p) as Hfr' by (rewrite Hfr; done).
      destruct (IH p0 r' r1 Hr0) as (p1 & Hl & Hfr1 & Hr1 & Hs1 & Htr1).
      { by rewrite (frame_Middleware p p0). }
      exists p1. split_and!.
      * simpl. rewrite invokeMsg_deliver by done. rewrite Hd. exact Hl.
      * congruence.
      * done.
      * rewrite Hs1, Hs0. done.
      * rewrite Htr1, Htr, (frame_produced p p0) by done.
        by rewrite <- app_assoc.
    + destruct (IH p r r1 Hr Hfeed) as (p1 & Hl & Hrest).
      exists p1. split; [|done].
      simpl. unfold invokeMsg. destruct (is_pill (Msg_ m)); [exact Hl|done].
Qed.

Lemma cleanup_returns cancel (p : @process R) r r' :
  ctx_receiver p = Some r → chain p Stopped (ctx_sender p) r = Returns r' →
  ∃ p1, cleanup Receive cancel p
        = match cancel with Some _ => Ok p1 | None => Panic RuntimeError p1 end ∧
    procStatus p1 = stopped ∧ ctx_receiver p1 = Some r' ∧
    restarts p1 = restarts p ∧ mbuffer p1 = mbuffer p ∧ produced p1 = produced p ∧
    trace p1 = trace p ++ cleanup_trace p ++
               match cancel with Some c => [Cancelled c] | None => [] end.
Proof.
  intros Hr Hc. unfold cleanup. cbv zeta.
  set (p0 := log [Unregistered] (set_status stopped
               (log (Poisoned <$> children (if has_parent p then log [Detached] p else p))
                  (if has_parent p then log [Detached] p else p)))).
  assert (p_Middleware p0 = p_Middleware p ∧ pid p0 = pid p ∧
          produced p0 = produced p ∧ restarts p0 = restarts p ∧
          mbuffer p0 = mbuffer p ∧ procStatus p0 = stopped ∧
          ctx_receiver p0 = Some r ∧ ctx_sender p0 = ctx_sender p)
    as (Hmw & Hpid & Hprod & Hres & Hmb & Hstat & Hr0 & Hs0).
  { unfold p0. by destruct (has_parent p). }
  assert (trace p0 = trace p ++ (if has_parent p then [Detached] else []) ++
                     (Poisoned <$> children p) ++ [Unregistered]) as Ht0.
  { unfold p0. destruct (has_parent p); simpl; rewrite <- ?app_assoc; done. }
  assert (frame p0 = (p_MaxRestarts p, p_Middleware p, pid p, has_parent p, children p,
                       restarts p, mbuffer p, stopped, produced p)) as Hf0.
  { unfold p0, frame. destruct (has_parent p) eqn:E; simpl; by rewrite ?E. }
  destruct (deliver_returns (applyMiddleware Receive (p_Middleware p0)) Stopped p0 r r')
    as (p1 & Hd & Hf1 & Hr1 & Hs1 & Ht1); [done|by rewrite Hmw, Hs0|].
  rewrite Hd. simpl bind.
  rewrite Hf0 in Hf1. unfold frame in Hf1.
  injection Hf1 as Hmax1 Hmw1 Hpid1 Hpar1 Hch1 Hres1 Hmb1 Hstat1 Hprod1.
  assert (trace (log [Broadcast (ActorStoppedEvent (pid p1))] p1)
          = trace p ++ cleanup_trace p) as Htr.
  { change (trace (log [Broadcast (ActorStoppedEvent (pid p1))] p1))
      with (trace p1 ++ [Broadcast (ActorStoppedEvent (pid p1))]).
    rewrite Ht1, Ht0, Hs0, Hprod, Hpid1. unfold cleanup_trace.
    rewrite <- !app_assoc. simpl. done. }
  destruct cancel as [c|].
  - eexists. split; [reflexivity|].
    change (trace (log [Cancelled c] (log [Broadcast (ActorStoppedEvent (pid p1))] p1)))
      with (trace (log [Broadcast (ActorStoppedEvent (pid p1))] p1) ++ [Cancelled c]).
    rewrite Htr, <- app_assoc. simpl.
    split_and!; congruence.
  - eexists. split; [reflexivity|]. rewrite Htr, app_nil_r. simpl.
    split_and!; congruence.
Qed.

(** X9. The first [Start] of a process (nothing buffered, inbox stopped)
    whose receiver handles [Initialized] and [Started]: the receiver made by
    the producer gets [Initialized], the event of it is broadcast, then the
    same for [Started], and only then is the inbox started; the restart
    counter is untouched. *)
Theorem Start_first fuel (p : @process R) a1 a2 :
  mbuffer p = [] → procStatus p = stopped →
  chain p Initialized (ctx_sender p) (Producer (produced p)) = Returns a1 →
  chain p Started (ctx_sender p) a1 = Returns a2 →
  ∃ p', Start Producer Receive (S fuel) p = Ok p' ∧
    trace p' = trace p ++
      [Delivered (S (produced p)) Initialized (ctx_sender p);
       Broadcast (ActorInitializedEvent (pid p));
       Delivered (S (produced p)) Started (ctx_sender p);
       Broadcast (ActorStartedEvent (pid p));
       Scheduled] ∧
    ctx_receiver p' = Some a2 ∧ procStatus p' = running ∧
    restarts p' = restarts p ∧ mbuffer p' = [] ∧ produced p' = S (produced p).
Proof.
  intros Hbuf Hst Hi Hs.
  change (Start Producer Receive (S fuel) p)
    with (Start_body Producer Receive (Start Producer Receive fuel) p).
  unfold Start_body. cbv zeta.
  pose (p0 := set_produced (S (produced p))
                (set_receiver (Some (Producer (produced p))) p)).
  change (set_produced _ (set_receiver _ p)) with p0.
  change (p_Middleware p0) with (p_Middleware p).
  destruct (deliver_returns (chain p) Initialized p0 (Producer (produced p)) a1)
    as (p1 & -> & Hf1 & Hr1 & Hs1 & Ht1); [done|done|].
  simpl bind.
  set (p1' := log [Broadcast (ActorInitializedEvent (pid p1))] p1).
  destruct (deliver_returns (chain p) Started p1' a1 a2)
    as (p2 & -> & Hf2 & Hr2 & Hs2 & Ht2); [done| |].
  { simpl. by rewrite Hs1. }
  simpl bind.
  set (p2' := log [Broadcast (ActorStartedEvent (pid p2))] p2).
  assert (frame p2 = frame p0) as Hf20.
  { rewrite Hf2. unfold p1'. unfold frame in *. simpl. done. }
  unfold frame in Hf1, Hf20. simpl in Hf1, Hf20.
  injection Hf20 as Hmax Hmw Hpid Hpar Hch Hres Hmb Hstat Hprod.
  injection Hf1 as Hmax1 Hmw1 Hpid1 Hpar1 Hch1 Hres1 Hmb1 Hstat1 Hprod1.
  change (mbuffer p2') with (mbuffer p2). rewrite Hmb, Hbuf. simpl bind.
  unfold inbox_Start. rewrite decide_True by (simpl; congruence).
  eexists. split; [reflexivity|]. simpl.
  split_and!; try congruence.
  rewrite Ht2. unfold p1'. simpl. rewrite Ht1. simpl.
  rewrite Hs1, Hprod1, Hpid1, Hpid. simpl.
  by rewrite <- !app_assoc.
Qed.

(** X10. A batch with a poison pill behind a prefix [pre] that holds none,
    for a receiver that handles what it is given.  The prefix is delivered;
    a pill that is not graceful ends the batch there, a graceful one lets the
    rest of the batch through first (further pills are skipped); the
    messages behind a pill that is not graceful are never delivered.  Then
    come the steps of cleanup ([Stopped] goes to the receiver with the sender
    of the last delivered envelope still in the context) and the call of the
    pill's [cancel].  No restart takes place, whatever the fuel. *)
Theorem Invoke_poison_pill fuel (p : @process R) pre c (graceful : bool) sd
    (rest : list Envelope) r r1 r2 r3 :
  let body := if graceful then non_pills rest else [] in
  let s := last_sender (ctx_sender p) (pre ++ body) in
  ctx_receiver p = Some r → no_pill pre →
  feed (chain p) r pre = Some r1 → feed (chain p) r1 body = Some r2 →
  chain p Stopped s r2 = Returns r3 →
  ∃ p', Invoke Producer Receive fuel
          (pre ++ mkEnvelope (poisonPill (Some c) graceful) sd :: rest) p = Ok p' ∧
    trace p' = trace p ++ delivered_to (produced p) (pre ++ body) ++
      (if has_parent p then [Detached] else []) ++ (Poisoned <$> children p) ++
      [Unregistered; Delivered (produced p) Stopped s;
       Broadcast (ActorStoppedEvent (pid p)); Cancelled c] ∧
    ctx_receiver p' = Some r3 ∧ procStatus p' = stopped ∧
    restarts p' = restarts p ∧ produced p' = produced p.
Proof.
  intros body s Hr Hnp Hpre Hbody Hstop.
  set (pill := mkEnvelope (poisonPill (Some c) graceful) sd).
  set (msgs := pre ++ pill :: rest).
  destruct (invoke_loop_prefix_sender msgs pre (pill :: rest) 0 0 p r r1 Hnp Hr Hpre)
    as (p1 & Hl & Hf1 & Hr1 & Hs1 & Ht1).
  pose proof Hf1 as Hf1'. unfold frame in Hf1'.
  injection Hf1' as Hmax1 Hmw1 Hpid1 Hpar1 Hch1 Hres1 Hmb1 Hstat1 Hprod1.
  assert (∃ p2, (if graceful then invoke_all Receive (drop (length pre) msgs) p1
                 else Ok p1) = Ok p2 ∧ frame p2 = frame p1 ∧
                ctx_receiver p2 = Some r2 ∧
                ctx_sender p2 = s ∧
                trace p2 = trace p ++ delivered_to (produced p) (pre ++ body))
    as (p2 & Hp2 & Hf2 & Hr2 & Hs2 & Ht2).
  { unfold s, body in *. destruct graceful.
    - assert (drop (length pre) msgs = pill :: rest) as ->.
      { unfold msgs. rewrite drop_app_ge by lia.
        by replace (length pre - length pre)%nat with 0%nat by lia. }
      destruct (invoke_all_feed (pill :: rest) p1 r1 r2 Hr1) as (p2 & HA & Hf2 & Hr2 & Hs2 & Ht2).
      { by rewrite Hmw1. }
      exists p2. split_and!; try done.
      + rewrite Hs2, Hs1, last_sender_app. done.
      + rewrite Ht2, Ht1, Hprod1. unfold delivered_to.
        rewrite fmap_app, <- app_assoc. done.
    - exists p1. simpl in Hbody. rewrite app_nil_r.
      split_and!; try done. congruence. }
  pose proof Hf2 as Hf2'. unfold frame in Hf2'.
  injection Hf2' as Hmax2 Hmw2 Hpid2 Hpar2 Hch2 Hres2 Hmb2 Hstat2 Hprod2.
  destruct (cleanup_returns (Some c) p2 r2 r3) as (p3 & Hc & Hst3 & Hr3 & Hres3 & Hmb3 & Hprod3 & Ht3);
    [done|by rewrite Hmw2, Hmw1, Hs2|].
  exists p3. split_and!; try congruence.
  - unfold Invoke, Invoke_body. fold msgs. unfold msgs at 2. rewrite Hl.
    simpl. rewrite Hp2. simpl bind. rewrite Hc. done.
  - rewrite Ht3, Ht2. unfold cleanup_trace.
    rewrite Hpar2, Hpar1, Hch2, Hch1, Hprod2, Hprod1, Hs2, Hpid2, Hpid1.
    rewrite <- !app_assoc. simpl. done.
Qed.

(** X11. The panic that finds the restart counter at [MaxRestarts] (and is
    not an [InternalError]).  The receiver gets [Stopped] from the recovery,
    [ActorMaxRestartsExceededEvent] is broadcast, and cleanup runs with a nil
    [cancel]: the inbox is stopped, the process unregistered, the receiver
    gets [Stopped] a second time and [ActorStoppedEvent] is broadcast.  The
    producer is not called again, the messages behind the failing one stay in
    [mbuffer] undelivered, and the deferred call of the nil [cancel] ends
    [Invoke] with a runtime panic that nothing recovers. *)
Theorem Invoke_max_restarts fuel (p : @process R) pre m tl r r1 r2 v r3 r4 :
  ctx_receiver p = Some r → restarts p = p_MaxRestarts p →
  no_pill (pre ++ [m]) → feed (chain p) r pre = Some r1 →
  chain p (Msg_ m) (Sender m) r1 = Panics r2 v → v ≠ InternalError →
  Receive Stopped (Sender m) r2 = Returns r3 →
  chain p Stopped (Sender m) r3 = Returns r4 →
  ∃ p', Invoke Producer Receive fuel (pre ++ m :: tl) p = Panic RuntimeError p' ∧
    trace p' = trace p ++ delivered_to (produced p) (pre ++ [m]) ++
      [Delivered (produced p) Stopped (Sender m);
       Broadcast (ActorMaxRestartsExceededEvent (pid p))] ++
      (if has_parent p then [Detached] else []) ++ (Poisoned <$> children p) ++
      [Unregistered; Delivered (produced p) Stopped (Sender m);
       Broadcast (ActorStoppedEvent (pid p))] ∧
    ctx_receiver p' = Some r4 ∧ procStatus p' = stopped ∧
    restarts p' = restarts p ∧ produced p' = produced p ∧ mbuffer p' = tl.
Proof.
  intros Hr Hres Hnp Hpre Hm Hv Hstop Hstop2.
  apply Forall_app in Hnp as [Hnp_pre Hnp_m].
  apply Forall_cons in Hnp_m as [Hnp_m _].
  set (msgs := pre ++ m :: tl).
  destruct (invoke_loop_prefix_sender msgs pre (m :: tl) 0 0 p r r1 Hnp_pre Hr Hpre)
    as (p1 & Hl & Hf1 & Hr1 & _ & Ht1).
  pose proof Hf1 as Hf1'. unfold frame in Hf1'.
  injection Hf1' as Hmax1 Hmw1 Hpid1 Hpar1 Hch1 Hres1 Hmb1 Hstat1 Hprod1.
  destruct (deliver_panics (chain p) (Msg_ m) (set_sender (Sender m) p1) r1 r2 v)
    as (p2 & Hd & Hf2 & Hr2 & Hs2 & Ht2); [done|done|].
  simpl in Hs2, Ht2. unfold frame in Hf2. simpl in Hf2.
  injection Hf2 as Hmax2 Hmw2 Hpid2 Hpar2 Hch2 Hres2 Hmb2 Hstat2 Hprod2.
  assert (invoke_loop Receive msgs msgs 0 0 p = (Panic v p2, S (length pre))) as Hloop.
  { unfold msgs at 2. rewrite Hl, invoke_loop_nonpill by done.
    rewrite invokeMsg_deliver by done. rewrite Hmw1, Hd. done. }
  assert (drop (S (length pre)) msgs = tl) as Hdrop.
  { unfold msgs. rewrite drop_app_ge by lia.
    by replace (S (length pre) - length pre)%nat with 1%nat by lia. }
  unfold Invoke, Invoke_body. fold msgs. rewrite Hloop, Hdrop. unfold recovered.
  destruct (deliver_returns Receive Stopped p2 r2 r3)
    as (p3 & -> & Hf3 & Hr3 & Hs3 & Ht3); [done|by rewrite Hs2|].
  simpl bind. unfold frame in Hf3.
  injection Hf3 as Hmax3 Hmw3 Hpid3 Hpar3 Hch3 Hres3 Hmb3 Hstat3 Hprod3.
  set (p4 := log [Broadcast (ActorMaxRestartsExceededEvent (pid (set_mbuffer tl p3)))]
               (set_mbuffer tl p3)).
  assert (tryRestart_body Receive (Start Producer Receive fuel) v (set_mbuffer tl p3)
          = cleanup Receive None p4) as ->.
  { unfold tryRestart_body. rewrite decide_True by (simpl; congruence).
    by destruct v. }
  destruct (cleanup_returns None p4 r3 r4)
    as (p5 & Hc & Hst5 & Hr5 & Hres5 & Hmb5 & Hprod5 & Ht5); [done| |].
  { simpl. rewrite Hmw3, Hmw2, Hmw1, Hs3, Hs2. done. }
  exists p5. split; [exact Hc|].
  split_and!; try done.
  - rewrite Ht5, app_nil_r. unfold cleanup_trace, p4. simpl.
    rewrite Ht3, Ht2, Ht1, Hs3, Hs2.
    rewrite Hpar3, Hpar2, Hpar1, Hch3, Hch2, Hch1, Hprod3, Hprod2, Hprod1,
      Hpid3, Hpid2, Hpid1.
    unfold delivered_to. rewrite fmap_app. simpl.
    rewrite <- !app_assoc. simpl. done.
  - rewrite Hres5. simpl. congruence.
  - rewrite Hprod5. simpl. congruence.
Qed.

Lemma pill_free_log o (p : @process R) :
  pill_free (trace p) → pill_free o → pill_free (trace (log o p)).
Proof. intros Hp Ho. simpl. by apply Forall_app. Qed.

Lemma deliver_pill_free (f : @ReceiveFunc R) m (p : @process R) :
  is_pill m = false → pill_free (trace p) → res_pill_free (deliver f m p).
Proof.
  intros Hm Hp. unfold deliver. simpl.
  destruct (ctx_receiver p) as [r|]; [|exact Hp].
  destruct (f m (ctx_sender p) r); simpl;
    (apply Forall_app; split; [exact Hp|by repeat constructor]).
Qed.

Lemma bind_pill_free (r : @Res R) k :
  res_pill_free r → (∀ p, pill_free (trace p) → res_pill_free (k p)) →
  res_pill_free (bind r k).
Proof. intros Hr Hk. destruct r; simpl; auto. Qed.

Lemma invokeMsg_pill_free msg (p : @process R) :
  pill_free (trace p) → res_pill_free (invokeMsg Receive msg p).
Proof.
  intros Hp. unfold invokeMsg.
  destruct (is_pill (Msg_ msg)) eqn:Hm; [exact Hp|].
  destruct (p_Middleware (set_sender (Sender msg) p)); by apply deliver_pill_free.
Qed.

Lemma invoke_all_pill_free msgs : ∀ p : @process R,
  pill_free (trace p) → res_pill_free (invoke_all Receive msgs p).
Proof.
  induction msgs as [|m msgs IH]; intros p Hp; [exact Hp|].
  simpl. apply bind_pill_free; [by apply invokeMsg_pill_free|exact IH].
Qed.

Lemma cleanup_pill_free cancel (p : @process R) :
  pill_free (trace p) → res_pill_free (cleanup Receive cancel p).
Proof.
  intros Hp. unfold cleanup. cbv zeta.
  set (p0 := log [Unregistered] _).
  assert (pill_free (trace p0)) as Hp0.
  { unfold p0. apply pill_free_log; [|by repeat constructor].
    change (pill_free (trace (log (Poisoned <$> children (if has_parent p then log [Detached] p else p))
                         (if has_parent p then log [Detached] p else p)))).
    apply pill_free_log.
    - destruct (has_parent p); [|done].
      apply pill_free_log; [done|by repeat constructor].
    - apply Forall_fmap. by apply Forall_true. }
  pose proof (deliver_pill_free (applyMiddleware Receive (p_Middleware p0)) Stopped p0
                eq_refl Hp0) as Hd.
  destruct (deliver (applyMiddleware Receive (p_Middleware p0)) Stopped p0) as [p1|v p1|];
    simpl in *; destruct cancel; simpl; try done;
    repeat (apply Forall_app; split; [|by repeat constructor]); done.
Qed.

Lemma invoke_loop_pill_free msgs rest : ∀ n k (p : @process R),
  pill_free (trace p) → res_pill_free (invoke_loop Receive msgs rest n k p).1.
Proof.
  induction rest as [|msg rest IH]; intros n k p Hp; [exact Hp|].
  simpl.
  pose proof (invokeMsg_pill_free msg p Hp) as Hi.
  destruct (Msg_ msg) eqn:Hm;
    try (destruct (invokeMsg Receive msg p) as [p'|v p'|]; simpl;
         [by apply IH|done|done]).
  simpl. apply bind_pill_free; [|intros; by apply cleanup_pill_free].
  destruct graceful; [by apply invoke_all_pill_free|exact Hp].
Qed.

Lemma tryRestart_pill_free start v (p : @process R) :
  (∀ p, pill_free (trace p) → res_pill_free (start p)) →
  pill_free (trace p) → res_pill_free (tryRestart_body Receive start v p).
Proof.
  intros Hstart Hp. unfold tryRestart_body.
  assert (res_pill_free (start (log [Slept] p))) as H1.
  { apply Hstart. apply pill_free_log; [done|by repeat constructor]. }
  assert (res_pill_free
            (if decide (restarts p = p_MaxRestarts p)
             then cleanup Receive None
                    (log [Broadcast (ActorMaxRestartsExceededEvent (pid p))] p)
             else start (log [Broadcast (ActorRestartedEvent
                                           (pid (set_restarts (int32 (restarts p + 1)) p))
                                           (restarts (set_restarts (int32 (restarts p + 1)) p)));
                              Slept]
                           (set_restarts (int32 (restarts p + 1)) p)))) as H2.
  { destruct (decide (restarts p = p_MaxRestarts p)).
    - apply cleanup_pill_free. apply pill_free_log; [done|by repeat constructor].
    - apply Hstart. apply pill_free_log; [done|by repeat constructor]. }
  destruct v; done.
Qed.

Lemma recovered_pill_free start v save (p : @process R) :
  (∀ p, pill_free (trace p) → res_pill_free (start p)) →
  (∀ p, trace (save p) = trace p) →
  pill_free (trace p) → res_pill_free (recovered Receive start v save p).
Proof.
  intros Hstart Hsave Hp. unfold recovered.
  apply bind_pill_free; [by apply deliver_pill_free|].
  intros p' Hp'. apply tryRestart_pill_free; [done|]. by rewrite Hsave.
Qed.

Lemma Invoke_body_pill_free start msgs (p : @process R) :
  (∀ p, pill_free (trace p) → res_pill_free (start p)) →
  pill_free (trace p) → res_pill_free (Invoke_body Receive start msgs p).
Proof.
  intros Hstart Hp. unfold Invoke_body.
  pose proof (invoke_loop_pill_free msgs msgs 0 0 p Hp) as Hl.
  destruct (invoke_loop Receive msgs msgs 0 0 p) as [[p'|v p'|] nproc]; simpl in Hl;
    [done| |done].
  by apply recovered_pill_free.
Qed.

Lemma Start_body_pill_free start (p : @process R) :
  (∀ p, pill_free (trace p) → res_pill_free (start p)) →
  pill_free (trace p) → res_pill_free (Start_body Producer Receive start p).
Proof.
  intros Hstart Hp. unfold Start_body. cbv zeta.
  set (p0 := set_produced _ _).
  set (body := bind _ _).
  assert (res_pill_free body) as Hbody.
  { unfold body. apply bind_pill_free; [by apply deliver_pill_free|].
    intros p1 Hp1. apply bind_pill_free.
    { apply deliver_pill_free; [done|].
      apply pill_free_log; [done|by repeat constructor]. }
    intros p2 Hp2. apply bind_pill_free.
    - set (p2' := log _ p2).
      assert (pill_free (trace p2')) as Hp2'.
      { apply pill_free_log; [done|by repeat constructor]. }
      destruct (mbuffer p2'); [done|].
      apply bind_pill_free; [by apply Invoke_body_pill_free|]. by intros.
    - intros p3 Hp3. unfold inbox_Start.
      destruct (decide (procStatus p3 = stopped)); [|done].
      apply pill_free_log; [done|by repeat constructor]. }
  destruct body as [p'|v p'|]; [done| |done].
  by apply recovered_pill_free.
Qed.

Lemma Start_pill_free fuel : ∀ p : @process R,
  pill_free (trace p) → res_pill_free (Start Producer Receive fuel p).
Proof.
  induction fuel as [|fuel IH]; intros p Hp; [done|].
  by apply Start_body_pill_free.
Qed.

(** X12. Poison pills are private to the engine: whatever the batch, the
    buffered messages, the middleware, and however the receiver panics and
    is restarted, no receiver is ever handed a [poisonPill], neither by
    [Invoke] nor by [Start]. *)
Theorem pill_never_delivered fuel msgs (p : @process R) :
  pill_free (trace p) →
  res_pill_free (Invoke Producer Receive fuel msgs p) ∧
  res_pill_free (Start Producer Receive fuel p).
Proof.
  intros Hp. split.
  - apply Invoke_body_pill_free; [apply Start_pill_free|done].
  - by apply Start_pill_free.
Qed.

End ProcessLifecycle.

(** The first start of the example process. *)
Lemma Start_first_witness :
  ∃ p', Start ex_Producer ex_Receive 1 ex_new = Ok p' ∧
    trace p' = [Delivered 1 Initialized None; Broadcast (ActorInitializedEvent ex_pid);
                Delivered 1 Started None; Broadcast (ActorStartedEvent ex_pid);
                Scheduled] ∧
    procStatus p' = running.
Proof.
  destruct (Start_first ex_Producer ex_Receive 0 ex_new (0%nat, []) (0%nat, []))
    as (p' & HS & Ht & _ & Hst & _); try reflexivity.
  exists p'. split_and!; done.
Defined.

(** The batch "a", graceful pill, "b": "b" is still delivered. *)
Lemma Invoke_poison_pill_witness :
  ∃ p', Invoke ex_Producer ex_Receive 0
          [env (User "a"); env (poisonPill (Some 4%nat) true); env (User "b")]
          ex_started = Ok p' ∧
    deliveries (trace p') =
      [(1%nat, Initialized); (1%nat, Started); (1%nat, User "a"); (1%nat, User "b");
       (1%nat, Stopped)] ∧
    procStatus p' = stopped.
Proof.
  destruct (Invoke_poison_pill ex_Producer ex_Receive 0 ex_started
              [env (User "a")] 4 true None [env (User "b")]
              (0%nat, []) (0%nat, ["a"]) (0%nat, ["a"; "b"]) (0%nat, ["a"; "b"]))
    as (p' & HI & Ht & _ & Hst & _); try reflexivity.
  - repeat constructor.
  - exists p'. split; [exact HI|]. split; [|exact Hst]. by rewrite Ht.
Defined.

(** The example process with its restarts used up. *)
Definition ex_exhausted : process (R := nat * list string) := set_restarts 3 ex_started.

Lemma Invoke_max_restarts_witness :
  ∃ p', Invoke ex_Producer ex_Receive 1
          [env (User "a"); env (User "crash"); env (User "b")] ex_exhausted
        = Panic RuntimeError p' ∧
    deliveries (trace p') =
      [(1%nat, Initialized); (1%nat, Started); (1%nat, User "a"); (1%nat, User "crash");
       (1%nat, Stopped); (1%nat, Stopped)] ∧
    mbuffer p' = [env (User "b")] ∧ procStatus p' = stopped.
Proof.
  destruct (Invoke_max_restarts ex_Producer ex_Receive 1 ex_exhausted
              [env (User "a")] (env (User "crash")) [env (User "b")]
              (0%nat, []) (0%nat, ["a"]) (0%nat, ["a"]) (UserPanic "crash")
              (0%nat, ["a"]) (0%nat, ["a"]))
    as (p' & HI & Ht & _ & Hst & _ & _ & Hmb); try reflexivity; try done.
  - repeat constructor.
  - exists p'. split; [exact HI|]. split_and!; [by rewrite Ht|exact Hmb|exact Hst].
Defined.

Lemma pill_never_delivered_witness :
  res_pill_free
    (Invoke ex_Producer ex_Receive 2
       [env (User "crash"); env (poisonPill None true); env (User "b")] ex_started).
Proof.
  apply (pill_never_delivered ex_Producer ex_Receive 2
           [env (User "crash"); env (poisonPill None true); env (User "b")] ex_started).
  repeat constructor.
Defined.

(** *** PIDSet: the slice of PIDs with its index map *)

Module PIDSet.

Local Open Scope list_scope.

(** [pidKey]. *)
Definition pidKey : Type := string * string.

(** [PIDSet]; a nil [lookup] map is [None]. *)
Record PIDSet := mkPIDSet {
  pids : list PID;
  lookup : option (gmap pidKey Z)
}.

(** [PIDSet.key]. *)
Definition key (pid : PID) : pidKey := (Address pid, ID pid).

(** Reading [p.lookup]: a nil map reads as an empty one. *)
Definition table (p : PIDSet) : gmap pidKey Z := default ∅ (lookup p).

(** [PIDSet.ensureInit]. *)
Definition ensureInit (p : PIDSet) : PIDSet :=
  match lookup p with
  | None => mkPIDSet (pids p) (Some ∅)
  | Some _ => p
  end.

(** [PIDSet.indexOf]. *)
Definition indexOf (p : PIDSet) (v : PID) : Z :=
  match table p !! key v with
  | Some idx => idx
  | None => -1
  end.

(** [PIDSet.Contains]. *)
Definition Contains (p : PIDSet) (v : PID) : bool :=
  bool_decide (is_Some (table p !! key v)).

(** [PIDSet.Add]. *)
Definition Add (p : PIDSet) (v : PID) : PIDSet :=
  let p := ensureInit p in
  if Contains p v then p
  else
    let pids' := pids p ++ [v] in
    mkPIDSet pids' (Some (<[key v := Z.of_nat (length pids') - 1]> (table p))).

(** [PIDSet.Remove]: the new set and the returned boolean; [None] is an
    index or slice bound out of range. *)
Definition Remove (p : PIDSet) (v : PID) : option (PIDSet * bool) :=
  let p := ensureInit p in
  let i := indexOf p v in
  if decide (i = -1) then Some (p, false)
  else
    let lk := delete (key v) (table p) in
    let n := Z.of_nat (length (pids p)) in
    '(ps, lk) ← (if decide (i < n - 1) then
                   lastPID ← index (pids p) (n - 1);
                   ps ← store (pids p) i lastPID;
                   Some (ps, <[key lastPID := i]> lk)
                 else Some (pids p, lk));
    if decide (0 ≤ n - 1)%Z
    then Some (mkPIDSet (take (Z.to_nat (n - 1)) ps) (Some lk), true)
    else None.

(** [NewPIDSet]. *)
Definition NewPIDSet (l : list PID) : PIDSet :=
  foldl Add (mkPIDSet [] None) l.

(** [PIDSet.Len], [Clear], [Empty], [Values], [Get] and [Clone]. *)
Definition Len (p : PIDSet) : Z := Z.of_nat (length (pids p)).
Definition Clear (p : PIDSet) : PIDSet := mkPIDSet (take 0 (pids p)) (Some ∅).
Definition Empty (p : PIDSet) : bool := bool_decide (Len p = 0).
Definition Values (p : PIDSet) : list PID := pids p.
Definition Get (p : PIDSet) (i : Z) : option PID := index (pids p) i.
Definition Clone (p : PIDSet) : PIDSet := NewPIDSet (pids p).

(** The representation invariant: the map sends the key of every element to
    its position in the slice, and holds nothing else. *)
Definition ok (p : PIDSet) : Prop :=
  (∀ (i : nat) pid, pids p !! i = Some pid → table p !! key pid = Some (Z.of_nat i)) ∧
  (∀ k i, table p !! k = Some i →
     (0 ≤ i)%Z ∧ ∃ pid, pids p !! Z.to_nat i = Some pid ∧ key pid = k).

Lemma key_inj pid1 pid2 : key pid1 = key pid2 → pid1 = pid2.
Proof. destruct pid1, pid2. unfold key. simpl. congruence. Qed.

Lemma table_ensureInit p : table (ensureInit p) = table p.
Proof. unfold ensureInit, table. destruct (lookup p) eqn:E; simpl; by rewrite ?E. Qed.

Lemma pids_ensureInit p : pids (ensureInit p) = pids p.
Proof. unfold ensureInit. by destruct (lookup p). Qed.

Lemma ok_ensureInit p : ok p → ok (ensureInit p).
Proof. unfold ok. by rewrite table_ensureInit, pids_ensureInit. Qed.

Lemma ensureInit_idemp p : ensureInit (ensureInit p) = ensureInit p.
Proof. unfold ensureInit. destruct (lookup p) eqn:E; simpl; by rewrite ?E. Qed.

Lemma Contains_ensureInit p v : Contains (ensureInit p) v = Contains p v.
Proof. unfold Contains. by rewrite table_ensureInit. Qed.

Lemma ok_empty : ok (mkPIDSet [] None).
Proof.
  split.
  - intros i pid H. simpl in H. by rewrite lookup_nil in H.
  - intros k i H. unfold table in H. simpl in H. by rewrite lookup_empty in H.
Qed.

Lemma Contains_elem_of p v : ok p → Contains p v = true ↔ v ∈ pids p.
Proof.
  intros [H1 H2]. unfold Contains. rewrite bool_decide_eq_true. split.
  - intros [i Hi]. destruct (H2 _ _ Hi) as (_ & pid & Hpid & Hk).
    apply key_inj in Hk as ->. by eapply list_elem_of_lookup_2.
  - intros Hin. apply list_elem_of_lookup_1 in Hin as [i Hi]. eauto.
Qed.

Lemma ok_NoDup p : ok p → NoDup (pids p).
Proof.
  intros [H1 _]. apply NoDup_alt. intros i j pid Hi Hj.
  apply H1 in Hi. apply H1 in Hj. rewrite Hi in Hj. injection Hj. lia.
Qed.

Lemma Add_known p v : Contains p v = true → Add p v = ensureInit p.
Proof. intros H. unfold Add. by rewrite Contains_ensureInit, H. Qed.

Lemma Add_fresh p v :
  Contains p v = false →
  Add p v = mkPIDSet (pids p ++ [v])
              (Some (<[key v := Z.of_nat (length (pids p))]> (table p))).
Proof.
  intros H. unfold Add. rewrite Contains_ensureInit, H, pids_ensureInit, table_ensureInit.
  rewrite length_app. simpl. do 3 f_equal. lia.
Qed.

Lemma Add_ok p v : ok p → ok (Add p v).
Proof.
  intros Hok. destruct (Contains p v) eqn:Hc.
  - rewrite Add_known by done. by apply ok_ensureInit.
  - rewrite Add_fresh by done. destruct Hok as [H1 H2].
    assert (table p !! key v = None) as Hnone.
    { unfold Contains in Hc. apply bool_decide_eq_false in Hc.
      by apply eq_None_not_Some. }
    split; unfold table; simpl.
    + intros i pid Hi. apply lookup_app_Some in Hi as [Hi|[Hlen Hi]].
      * rewrite lookup_insert_ne; [by apply H1|].
        intros E. apply key_inj in E as <-. apply H1 in Hi. congruence.
      * apply list_lookup_singleton_Some in Hi as [Hi ->].
        rewrite lookup_insert_eq. f_equal. lia.
    + intros k i Hk. destruct (decide (k = key v)) as [->|Hne].
      * rewrite lookup_insert_eq in Hk. injection Hk as <-. split; [lia|].
        exists v. split; [|done]. rewrite Nat2Z.id.
        rewrite lookup_app_r by lia. by rewrite Nat.sub_diag.
      * rewrite lookup_insert_ne in Hk by done.
        destruct (H2 _ _ Hk) as (Hi & pid & Hpid & Hkey). split; [done|].
        exists pid. split; [|done]. by apply lookup_app_l_Some.
Qed.

Lemma NewPIDSet_acc l : ∀ p,
  ok p →
  ok (foldl Add p l) ∧
  (∀ u, u ∈ pids (foldl Add p l) ↔ u ∈ pids p ∨ u ∈ l) ∧
  ((∀ u, u ∈ l → u ∉ pids p) → NoDup l → pids (foldl Add p l) = pids p ++ l).
Proof.
  induction l as [|v l IH]; intros p Hok.
  - simpl. split_and!; [done| |by rewrite app_nil_r].
    intros u. rewrite elem_of_nil. tauto.
  - simpl. destruct (IH (Add p v) (Add_ok p v Hok)) as (IH1 & IH2 & IH3).
    assert (∀ u, u ∈ pids (Add p v) ↔ u ∈ pids p ∨ u = v) as Hadd.
    { intros u. destruct (Contains p v) eqn:Hc.
      - rewrite Add_known, pids_ensureInit by done.
        apply Contains_elem_of in Hc; [|done]. split; [tauto|].
        intros [?| ->]; done.
      - rewrite Add_fresh by done. simpl.
        rewrite elem_of_app, list_elem_of_singleton. tauto. }
    split_and!; [done| |].
    + intros u. rewrite IH2, Hadd, elem_of_cons. tauto.
    + intros Hdisj Hnd. apply NoDup_cons in Hnd as [Hv Hnd].
      assert (Contains p v = false) as Hc.
      { apply not_true_is_false. intros Hc. apply Contains_elem_of in Hc; [|done].
        apply (Hdisj v); [left|done]. }
      rewrite IH3; [| |done].
      * rewrite Add_fresh by done. simpl. by rewrite <- app_assoc.
      * intros u Hu. rewrite Hadd. intros [Hp| ->]; [|done].
        apply (Hdisj u); [by right|done].
Qed.

Lemma lookup_insert_take_last (l : list PID) (i : nat) x :
  (i < length l - 1)%nat →
  ∀ j, take (length l - 1) (<[i := x]> l) !! j =
       if decide (j = i) then Some x
       else if decide (j < length l - 1)%nat then l !! j else None.
Proof.
  intros Hi j. destruct (decide (j < length l - 1)%nat) as [Hj|Hj].
  - rewrite lookup_take_lt by done.
    destruct (decide (j = i)) as [->|Hne].
    + apply list_lookup_insert_eq. lia.
    + by rewrite list_lookup_insert_ne.
  - rewrite decide_False by lia. apply lookup_take_ge. lia.
Qed.

Lemma Remove_absent p v :
  Contains p v = false → Remove p v = Some (ensureInit p, false).
Proof.
  intros Hc. unfold Remove, indexOf. rewrite table_ensureInit.
  unfold Contains in Hc. apply bool_decide_eq_false in Hc.
  apply eq_None_not_Some in Hc. by rewrite Hc.
Qed.

Lemma Remove_present p v :
  ok p → Contains p v = true →
  ∃ p', Remove p v = Some (p', true) ∧ ok p' ∧
    Len p' = Len p - 1 ∧
    (∀ u, u ∈ pids p' ↔ u ∈ pids p ∧ u ≠ v) ∧
    (∀ i : nat, pids p !! i = Some v →
       pids p' = take (length (pids p) - 1)
                   (match last (pids p) with
                    | Some l => <[i := l]> (pids p)
                    | None => pids p
                    end)).
Proof.
  intros Hok Hc. pose proof (ok_NoDup p Hok) as Hnd.
  destruct Hok as [H1 H2].
  unfold Contains in Hc. apply bool_decide_eq_true in Hc as [iz Hiz].
  destruct (H2 _ _ Hiz) as (Hiz0 & v' & Hv' & Hkey). apply key_inj in Hkey as ->.
  assert (∃ i : nat, iz = Z.of_nat i) as [i ->] by (exists (Z.to_nat iz); lia).
  rewrite Nat2Z.id in Hv'.
  pose proof (lookup_lt_Some _ _ _ Hv') as Hlt.
  set (n := length (pids p)) in *.
  assert (∃ l, pids p !! (n - 1)%nat = Some l ∧ last (pids p) = Some l) as (l & Hl & Hlast).
  { destruct (lookup_lt_is_Some_2 (pids p) (n - 1)) as [l Hl]; [lia|].
    exists l. split; [done|]. rewrite last_lookup.
    by replace (Init.Nat.pred (length (pids p))) with (n - 1)%nat by (unfold n; lia). }
  unfold Remove, indexOf. rewrite table_ensureInit, pids_ensureInit, Hiz.
  rewrite decide_False by lia. fold n.
  destruct (decide (Z.of_nat i < Z.of_nat n - 1)) as [Hin|Hin].
  - rewrite index_nonneg by lia.
    replace (Z.to_nat (Z.of_nat n - 1)) with (n - 1)%nat by lia.
    rewrite Hl. cbn [mbind option_bind].
    rewrite store_in_range by (fold n; lia). cbn [mbind option_bind].
    rewrite decide_True by lia. rewrite Nat2Z.id.
    eexists. split; [reflexivity|].
    assert (l ≠ v) as Hlv.
    { intros ->. pose proof (NoDup_lookup _ _ _ _ Hnd Hl Hv'). lia. }
    assert (∀ j, take (n - 1) (<[i := l]> (pids p)) !! j =
                 if decide (j = i) then Some l
                 else if decide (j < n - 1)%nat then pids p !! j else None) as Hlk.
    { intros j. apply lookup_insert_take_last. fold n. lia. }
    split_and!.
    + split; unfold table; simpl.
      * intros j pid Hj. rewrite Hlk in Hj.
        destruct (decide (j = i)) as [->|Hji].
        { injection Hj as <-. by rewrite lookup_insert_eq. }
        destruct (decide (j < n - 1)%nat) as [Hjn|]; [|done].
        assert (pid ≠ l) as Hpl.
        { intros ->. pose proof (NoDup_lookup _ _ _ _ Hnd Hl Hj). lia. }
        assert (pid ≠ v) as Hpv.
        { intros ->. pose proof (NoDup_lookup _ _ _ _ Hnd Hv' Hj). lia. }
        rewrite lookup_insert_ne by (intros E; by apply key_inj in E).
        rewrite lookup_delete_ne by (intros E; by apply key_inj in E).
        by apply H1.
      * intros k x Hk. destruct (decide (k = key l)) as [->|Hkl].
        { rewrite lookup_insert_eq in Hk. injection Hk as <-. split; [lia|].
          exists l. split; [|done]. rewrite Nat2Z.id, Hlk. by rewrite decide_True. }
        rewrite lookup_insert_ne in Hk by done.
        apply lookup_delete_Some in Hk as [Hkv Hk].
        destruct (H2 _ _ Hk) as (Hx0 & pid & Hpid & Hpk). split; [done|].
        exists pid. split; [|done]. rewrite Hlk.
        assert (Z.to_nat x ≠ i) as Hxi.
        { intros E. rewrite E in Hpid. congruence. }
        rewrite decide_False by done.
        assert (Z.to_nat x ≠ (n - 1)%nat) as Hxn.
        { intros E. rewrite E in Hpid. congruence. }
        pose proof (lookup_lt_Some _ _ _ Hpid). fold n in H.
        by rewrite decide_True by lia.
    + unfold Len. simpl. rewrite length_take, length_insert. fold n. lia.
    + intros u. simpl. rewrite list_elem_of_lookup. split.
      * intros [j Hj]. rewrite Hlk in Hj.
        destruct (decide (j = i)) as [->|Hji].
        { injection Hj as <-. split; [by eapply list_elem_of_lookup_2|done]. }
        destruct (decide (j < n - 1)%nat); [|done].
        split; [by eapply list_elem_of_lookup_2|].
        intros ->. pose proof (NoDup_lookup _ _ _ _ Hnd Hv' Hj). lia.
      * intros [Hu Huv]. apply list_elem_of_lookup_1 in Hu as [j Hj].
        destruct (decide (j = (n - 1)%nat)) as [->|Hjn].
        { exists i. rewrite Hlk, decide_True by done. congruence. }
        exists j. rewrite Hlk. rewrite decide_False by congruence.
        pose proof (lookup_lt_Some _ _ _ Hj). fold n in H.
        by rewrite decide_True by lia.
    + intros i' Hi'. simpl. rewrite Hlast.
      by rewrite (NoDup_lookup _ _ _ _ Hnd Hi' Hv').
  - assert (i = (n - 1)%nat) as Hi by lia.
    cbn [mbind option_bind]. rewrite decide_True by lia.
    replace (Z.to_nat (Z.of_nat n - 1)) with (n - 1)%nat by lia.
    eexists. split; [reflexivity|].
    split_and!.
    + split; unfold table; simpl.
      * intros j pid Hj. apply lookup_take_Some in Hj as [Hj Hjn].
        assert (pid ≠ v) as Hpv.
        { intros ->. pose proof (NoDup_lookup _ _ _ _ Hnd Hv' Hj). lia. }
        rewrite lookup_delete_ne by (intros E; by apply key_inj in E).
        by apply H1.
      * intros k x Hk. apply lookup_delete_Some in Hk as [Hkv Hk].
        destruct (H2 _ _ Hk) as (Hx0 & pid & Hpid & Hpk). split; [done|].
        exists pid. split; [|done].
        assert (Z.to_nat x ≠ i) as Hxi.
        { intros E. rewrite E in Hpid. congruence. }
        pose proof (lookup_lt_Some _ _ _ Hpid). fold n in H.
        rewrite lookup_take_lt by lia. done.
    + unfold Len. simpl. rewrite length_take. fold n. lia.
    + intros u. simpl. rewrite list_elem_of_lookup. split.
      * intros [j Hj]. apply lookup_take_Some in Hj as [Hj Hjn].
        split; [by eapply list_elem_of_lookup_2|].
        intros ->. pose proof (NoDup_lookup _ _ _ _ Hnd Hv' Hj). lia.
      * intros [Hu Huv]. apply list_elem_of_lookup_1 in Hu as [j Hj].
        exists j. pose proof (lookup_lt_Some _ _ _ Hj). fold n in H.
        assert (j ≠ i) by (intros ->; congruence).
        rewrite lookup_take_lt by lia. done.
    + intros i' Hi'. simpl. rewrite Hlast.
      rewrite (NoDup_lookup _ _ _ _ Hnd Hi' Hv'), Hi.
      rewrite take_insert_ge by lia. done.
Qed.

Lemma Contains_eq p q :
  ok p → ok q → (∀ u, u ∈ pids q ↔ u ∈ pids p) → ∀ u, Contains q u = Contains p u.
Proof.
  intros Hp Hq H u. apply eq_true_iff_eq.
  rewrite !Contains_elem_of by done. apply H.
Qed.

(** X13. [Add] on a set that satisfies the invariant keeps it.  An element
    already present leaves the values as they are; a new one is appended at
    the end; afterwards the element is contained, everything else is
    contained as before, and adding it again changes nothing. *)
Theorem Add_spec p v :
  ok p →
  ok (Add p v) ∧ Contains (Add p v) v = true ∧
  Values (Add p v) = (if Contains p v then Values p else Values p ++ [v]) ∧
  (∀ u, u ≠ v → Contains (Add p v) u = Contains p u) ∧
  Add (Add p v) v = Add p v.
Proof.
  intros Hok. pose proof (Add_ok p v Hok) as Hok'.
  assert (Values (Add p v) = (if Contains p v then Values p else Values p ++ [v])) as Hv.
  { unfold Values. destruct (Contains p v) eqn:Hc.
    - by rewrite Add_known, pids_ensureInit.
    - by rewrite Add_fresh. }
  assert (Contains (Add p v) v = true) as Hcv.
  { apply Contains_elem_of; [done|]. fold (Values (Add p v)). rewrite Hv.
    destruct (Contains p v) eqn:Hc.
    - by apply Contains_elem_of.
    - apply elem_of_app. right. by apply list_elem_of_singleton. }
  split_and!; try done.
  - intros u Hu. apply eq_true_iff_eq. rewrite !Contains_elem_of by done.
    fold (Values (Add p v)). rewrite Hv. unfold Values.
    destruct (Contains p v); [done|].
    rewrite elem_of_app, list_elem_of_singleton. tauto.
  - rewrite (Add_known (Add p v)) by done.
    unfold Add. destruct (Contains (ensureInit p) v); [apply ensureInit_idemp|done].
Qed.

(** X14. [Remove] on a set that satisfies the invariant never runs out of
    range and keeps the invariant.  It returns whether the element was
    contained; afterwards the element is not contained, everything else is
    contained as before, and the length has gone down by one exactly when
    the element was there.  The order of the values is not kept: the last
    value is moved into the place of the removed one. *)
Theorem Remove_spec p v :
  ok p →
  ∃ p', Remove p v = Some (p', Contains p v) ∧ ok p' ∧
    Contains p' v = false ∧
    (∀ u, u ≠ v → Contains p' u = Contains p u) ∧
    Len p' = (Len p - (if Contains p v then 1 else 0))%Z ∧
    (∀ i : nat, Values p !! i = Some v →
       Values p' = take (length (Values p) - 1)
                     (match last (Values p) with
                      | Some l => <[i := l]> (Values p)
                      | None => Values p
                      end)).
Proof.
  intros Hok. destruct (Contains p v) eqn:Hc.
  - destruct (Remove_present p v Hok Hc) as (p' & HR & Hok' & Hlen & Hmem & Hord).
    exists p'. split_and!; try done.
    + apply not_true_is_false. intros Hc'. apply Contains_elem_of in Hc'; [|done].
      apply Hmem in Hc' as [_ ?]. done.
    + intros u Hu. apply eq_true_iff_eq. rewrite !Contains_elem_of by done.
      rewrite Hmem. tauto.
  - exists (ensureInit p). rewrite Remove_absent by done.
    split_and!; try done.
    + by apply ok_ensureInit.
    + by rewrite Contains_ensureInit.
    + intros u _. apply Contains_ensureInit.
    + unfold Len. rewrite pids_ensureInit. lia.
    + intros i Hi. exfalso. apply list_elem_of_lookup_2 in Hi.
      apply Contains_elem_of in Hi; [congruence|done].
Qed.

(** X15. [NewPIDSet] builds a set that satisfies the invariant: its values
    are the given PIDs without repetition, each at the place of its first
    occurrence among the new ones, so a list without repetition is kept as
    it is.  [Clone] of a set that satisfies the invariant has the same
    values in the same order. *)
Theorem NewPIDSet_spec l :
  ok (NewPIDSet l) ∧ NoDup (Values (NewPIDSet l)) ∧
  (∀ u, u ∈ Values (NewPIDSet l) ↔ u ∈ l) ∧
  (NoDup l → Values (NewPIDSet l) = l) ∧
  (∀ p, ok p → Values (Clone p) = Values p ∧
               ∀ u, Contains (Clone p) u = Contains p u).
Proof.
  destruct (NewPIDSet_acc l (mkPIDSet [] None) ok_empty) as (H1 & H2 & H3).
  split_and!.
  - exact H1.
  - by apply ok_NoDup.
  - intros u. unfold Values, NewPIDSet. rewrite H2. simpl.
    rewrite elem_of_nil. tauto.
  - intros Hnd. unfold Values, NewPIDSet. rewrite H3; [done| |done].
    intros u _. simpl. apply not_elem_of_nil.
  - intros p Hok.
    destruct (NewPIDSet_acc (pids p) (mkPIDSet [] None) ok_empty) as (H1' & H2' & H3').
    assert (Values (Clone p) = Values p) as Hv.
    { unfold Values, Clone, NewPIDSet. rewrite H3'; [done| |by apply ok_NoDup].
      intros u _. simpl. apply not_elem_of_nil. }
    split; [done|]. apply Contains_eq; [done|done|].
    intros u. fold (Values (Clone p)). by rewrite Hv.
Qed.

(** X16. Adding an element that is not contained and removing it again gives
    the set back (with its map allocated). *)
Theorem Add_Remove_roundtrip p v :
  Contains p v = false → Remove (Add p v) v = Some (ensureInit p, true).
Proof.
  intros Hc. rewrite Add_fresh by done.
  assert (table p !! key v = None) as Hnone.
  { unfold Contains in Hc. apply bool_decide_eq_false in Hc.
    by apply eq_None_not_Some. }
  unfold Remove, indexOf, ensureInit, table. simpl.
  rewrite lookup_insert_eq. rewrite decide_False by lia.
  rewrite length_app. simpl. rewrite decide_False by lia.
  cbn [mbind option_bind]. rewrite decide_True by lia.
  replace (Z.to_nat (Z.of_nat (length (pids p) + 1) - 1)) with (length (pids p)) by lia.
  rewrite take_app_length. rewrite delete_insert_id by exact Hnone.
  destruct p as [ps [t|]]; simpl; done.
Qed.

(** A set of three PIDs. *)
Definition ex_a : PID := NewPID "local" "a/1".
Definition ex_b : PID := NewPID "local" "b/1".
Definition ex_c : PID := NewPID "remote:4000" "a/1".
Definition ex_set : PIDSet := NewPIDSet [ex_a; ex_b; ex_c].

Lemma ex_set_ok : ok ex_set.
Proof. apply (NewPIDSet_acc [ex_a; ex_b; ex_c] (mkPIDSet [] None) ok_empty). Qed.

Lemma Add_spec_witness :
  Values (Add ex_set ex_b) = [ex_a; ex_b; ex_c] ∧
  Values (Add ex_set (NewPID "local" "d/1")) = [ex_a; ex_b; ex_c; NewPID "local" "d/1"].
Proof.
  split.
  - destruct (Add_spec ex_set ex_b ex_set_ok) as (_ & _ & Hv & _). exact Hv.
  - destruct (Add_spec ex_set (NewPID "local" "d/1") ex_set_ok) as (_ & _ & Hv & _).
    exact Hv.
Defined.

Lemma Remove_spec_witness :
  ∃ p', Remove ex_set ex_a = Some (p', true) ∧ Values p' = [ex_c; ex_b] ∧
        Contains p' ex_a = false.
Proof.
  destruct (Remove_spec ex_set ex_a ex_set_ok) as (p' & HR & _ & Hc & _ & _ & Hord).
  exists p'. split; [exact HR|]. split; [|exact Hc].
  apply (Hord 0%nat). reflexivity.
Defined.

Lemma Add_Remove_roundtrip_witness :
  Remove (Add ex_set (NewPID "local" "d/1")) (NewPID "local" "d/1")
  = Some (ex_set, true).
Proof. apply (Add_Remove_roundtrip ex_set (NewPID "local" "d/1")). reflexivity. Defined.

End PIDSet.

(** *** The inbox (inbox.go): the ring buffer drained in batches *)

Module Inbox.

Local Open Scope list_scope.

Definition defaultThroughput : Z := 300.
Definition messageBatchSize : Z := 1024 * 4.

Section Inbox.
(** The state of the processer behind the [Processer] interface. *)
Context {P : Type}.
(** The zero value of [Envelope], which fills the free slots of the ring. *)
Variable zero : Envelope.

(** [Inbox].  [scheduler] is the throughput of the [goscheduler]; [pending]
    counts the calls of [process] handed to the scheduler and not yet run;
    [invoked] is the history of the batches handed to [proc.Invoke]. *)
Record Inbox := mkInbox {
  rb : RingBuffer.RingBuffer (T := Envelope);
  proc : option P;
  scheduler : Z;
  procStatus : Z;
  pending : nat;
  invoked : list (list Envelope)
}.

Definition set_rb (b : RingBuffer.RingBuffer) (ib : Inbox) : Inbox :=
  mkInbox b (proc ib) (scheduler ib) (procStatus ib) (pending ib) (invoked ib).
Definition set_proc (p : option P) (ib : Inbox) : Inbox :=
  mkInbox (rb ib) p (scheduler ib) (procStatus ib) (pending ib) (invoked ib).
Definition set_procStatus (s : Z) (ib : Inbox) : Inbox :=
  mkInbox (rb ib) (proc ib) (scheduler ib) s (pending ib) (invoked ib).
Definition set_pending (n : nat) (ib : Inbox) : Inbox :=
  mkInbox (rb ib) (proc ib) (scheduler ib) (procStatus ib) n (invoked ib).
Definition set_invoked (l : list (list Envelope)) (ib : Inbox) : Inbox :=
  mkInbox (rb ib) (proc ib) (scheduler ib) (procStatus ib) (pending ib) l.

(** [in.proc.Invoke(msgs)]: what the processer does with a batch, to itself
    and to the inbox it holds; [None] is a panic that escapes it. *)
Variable proc_Invoke : list Envelope → Inbox → option Inbox.


(** [Inbox.schedule]: the compare-and-swap from [idle] to [running] and the
    hand-over of [process] to the scheduler. *)
Definition schedule (ib : Inbox) : Inbox :=
  if decide (procStatus ib = idle)
  then set_pending (S (pending ib)) (set_procStatus running ib)
  else ib.

(** [Inbox.Send]. *)
Definition Send (ib : Inbox) (msg : Envelope) : option Inbox :=
  b ← RingBuffer.Push zero (rb ib) msg;
  Some (schedule (set_rb b ib)).

(** [Inbox.Start]. *)
Definition Start (ib : Inbox) (p : P) : Inbox :=
  if decide (procStatus ib = stopped)
  then schedule (set_procStatus idle (set_proc (Some p) (set_procStatus starting ib)))
  else ib.

(** [Inbox.Stop]. *)
Definition Stop (ib : Inbox) : Inbox := set_procStatus stopped ib.

(** How a drain ends: it returns, a panic escapes, or the loop has not come
    to its end within the fuel. *)
Inductive Run :=
| Done (ib : Inbox)
| Crash
| OutOfFuel.

(** The loop of [Inbox.run], entered with the counter [i], for the
    throughput [t] read before the loop; [runtime.Gosched] only yields the
    processor. *)
Fixpoint run_loop (fuel : nat) (t i : Z) (ib : Inbox) : Run :=
  match fuel with
  | O => OutOfFuel
  | S fuel' =>
      if decide (procStatus ib = stopped) then Done ib
      else
        let i := if decide (t < i)%Z then 0 else i in
        let i := (i + 1)%Z in
        match RingBuffer.PopN zero (rb ib) messageBatchSize with
        | None => Crash
        | Some (b, (msgs, ok)) =>
            let ib := set_rb b ib in
            if ok && bool_decide (0 < length msgs)%nat then
              match proc ib with
              | None => Crash
              | Some _ =>
                  match proc_Invoke msgs (set_invoked (invoked ib ++ [msgs]) ib) with
                  | Some ib' => run_loop fuel' t i ib'
                  | None => Crash
                  end
              end
            else Done ib
        end
  end.

(** [Inbox.run]. *)
Definition run (fuel : nat) (ib : Inbox) : Run := run_loop fuel (scheduler ib) 0 ib.

(** [Inbox.process]. *)
Definition process (fuel : nat) (ib : Inbox) : Run :=
  match run fuel ib with
  | Done ib =>
      if decide (procStatus ib = running) then
        let ib := set_procStatus idle ib in
        Done (if decide (0 < RingBuffer.Len (rb ib))%Z then schedule ib else ib)
      else Done ib
  | r => r
  end.



(** A processer that leaves the inbox alone: its [Invoke] neither sends to
    its own inbox nor stops it, and does not panic. *)
Definition consumes : Prop :=
  ∀ msgs ib, ∃ p, proc_Invoke msgs ib = Some (set_proc (Some p) ib).

Lemma run_loop_drains fuel : ∀ t i ib,
  consumes →
  RingBuffer.wf (rb ib) →
  (RingBuffer.mod_ (RingBuffer.content (rb ib)) * 2 ≤ max_int64)%Z →
  procStatus ib ≠ stopped → is_Some (proc ib) →
  (length (RingBuffer.live zero (rb ib)) < fuel)%nat →
  ∃ ib' batches, run_loop fuel t i ib = Done ib' ∧
    RingBuffer.wf (rb ib') ∧ RingBuffer.len (rb ib') = 0%Z ∧
    procStatus ib' = procStatus ib ∧ pending ib' = pending ib ∧
    scheduler ib' = scheduler ib ∧
    invoked ib' = invoked ib ++ batches ∧
    concat batches = RingBuffer.live zero (rb ib) ∧
    Forall (λ b, (0 < length b ≤ 4096)%nat) batches.
Proof.
  induction fuel as [|fuel IH]; intros t i ib Hcons Hwf Hcap Hst Hproc Hfuel; [lia|].
  simpl. rewrite decide_False by done.
  destruct (decide (RingBuffer.len (rb ib) = 0%Z)) as [Hz|Hnz].
  - destruct (RingBuffer.PopN_empty zero (rb ib) messageBatchSize Hz) as [-> Hlive].
    simpl. exists (set_rb (rb ib) ib), []. rewrite Hlive, app_nil_r.
    split_and!; done.
  - pose proof (RingBuffer.wf_len _ Hwf) as Hlen.
    destruct (RingBuffer.PopN_spec zero (rb ib) messageBatchSize Hwf Hcap)
      as (b & out & -> & Hwf' & Hlive & Hout & Hmod); [lia|done|].
    assert (0 < length out ≤ 4096)%nat as Hn.
    { rewrite Hout. unfold messageBatchSize. lia. }
    simpl. rewrite bool_decide_eq_true_2 by lia.
    destruct Hproc as [p Hp]. rewrite Hp.
    destruct (Hcons out (set_invoked (invoked ib ++ [out]) (set_rb b ib)))
      as [p' ->].
    set (ib1 := set_proc (Some p') _).
    destruct (IH t ((if decide (t < i)%Z then 0 else i) + 1)%Z ib1)
      as (ib' & batches & Hrun & Hwf2 & Hlen2 & Hst2 & Hpend2 & Hsch2 & Hinv2 & Hcat & Hall);
      try done.
    { simpl. by rewrite Hmod. }
    { simpl. rewrite Hlive, length_app in Hfuel. lia. }
    exists ib', (out :: batches).
    split_and!; try done.
    + rewrite Hinv2. simpl. by rewrite <- app_assoc.
    + simpl. by rewrite Hcat, Hlive.
    + by constructor.
Qed.



(** X17. Draining.  For a processer that leaves the inbox alone, [run] on an
    inbox that is not stopped returns after it has handed the processer
    everything that was in the buffer, oldest first, in batches of at least
    one and at most 4096 envelopes, and leaves the buffer empty; the status
    is left as it was. *)
Theorem run_drains fuel ib :
  consumes →
  RingBuffer.wf (rb ib) →
  (RingBuffer.mod_ (RingBuffer.content (rb ib)) * 2 ≤ max_int64)%Z →
  procStatus ib ≠ stopped → is_Some (proc ib) →
  (length (RingBuffer.live zero (rb ib)) < fuel)%nat →
  ∃ ib' batches, run fuel ib = Done ib' ∧
    RingBuffer.Len (rb ib') = 0%Z ∧ procStatus ib' = procStatus ib ∧
    invoked ib' = invoked ib ++ batches ∧
    concat batches = RingBuffer.live zero (rb ib) ∧
    Forall (λ b, (0 < length b ≤ 4096)%nat) batches.
Proof.
  intros Hcons Hwf Hcap Hst Hproc Hfuel.
  destruct (run_loop_drains fuel (scheduler ib) 0 ib) as (ib' & batches & H); try done.
  exists ib', batches. tauto.
Qed.


End Inbox.

(** An inbox whose processer counts the envelopes it has been handed. *)
Definition ex_zero : Envelope := mkEnvelope (User "") None.

Definition ex_Invoke (msgs : list Envelope) (ib : Inbox (P := nat)) : option Inbox :=
  Some (set_proc (Some (default 0%nat (proc ib) + length msgs)%nat) ib).

Lemma ex_Invoke_consumes : consumes ex_Invoke.
Proof. intros msgs ib. eexists. reflexivity. Qed.

(** An idle inbox that holds "a" and "b" in a ring of four slots. *)
Definition ex_inbox : Inbox (P := nat) :=
  mkInbox (RingBuffer.RB 2 (RingBuffer.Buffer
                              [ex_zero; env (User "a"); env (User "b"); ex_zero] 0 2 4))
    (Some 0%nat) defaultThroughput idle 0 [].

Lemma ex_inbox_wf : RingBuffer.wf (rb ex_inbox).
Proof. split; simpl; unfold max_int64; try lia; reflexivity. Qed.

Lemma run_drains_witness :
  ∃ ib', run ex_zero ex_Invoke 3 ex_inbox = Done ib' ∧
    concat (invoked ib') = [env (User "a"); env (User "b")] ∧
    RingBuffer.Len (rb ib') = 0%Z.
Proof.
  destruct (run_drains ex_zero ex_Invoke 3 ex_inbox ex_Invoke_consumes ex_inbox_wf)
    as (ib' & batches & HR & Hlen & _ & Hinv & Hcat & Hall);
    [simpl; unfold max_int64; lia|discriminate|by eexists|simpl; lia|].
  exists ib'. split; [exact HR|]. split; [|exact Hlen].
  rewrite Hinv. exact Hcat.
Defined.


End Inbox.

End Actor.

(** ** Package remote: the per-batch interning of the stream writer and the
       decoding of the stream reader *)

Module Remote.
Import Actor.

Local Open Scope string_scope.

(** The wire records. [Messages] holds pointers: an entry is nil where the
    writer skipped a message it could not serialize. *)
Record Message := mkMessage {
  Data : string;
  TypeNameIndex : Z;
  SenderIndex : Z;
  TargetIndex : Z
}.

Record Envelope := mkEnvelope {
  Senders : list PID;
  Targets : list PID;
  TypeNames : list string;
  Messages : list (option Message)
}.

(** What the reader hands to [Engine.SendLocal]. *)
Record Delivery := mkDelivery {
  d_target : PID;
  d_payload : Msg;
  d_sender : option PID
}.

Section Stream.
(** [xxh3.Hash], a function from byte strings to [uint64]. *)
Variable Hash : string → Z.
(** The serializer contract. *)
Variable TypeName : Msg → string.
Variable Serialize : Msg → option string.
Variable Deserialize : string → string → option Msg.

(** [PID.LookupKey]. *)
Definition LookupKey (pid : PID) : Z := Hash (Address pid ++ ID pid).

(** [lookupPIDs]; returns the map as the call leaves it. *)
Definition lookupPIDs (m : gmap Z Z) (pid : option PID) (pids : list PID)
    : Z * gmap Z Z * list PID :=
  match pid with
  | None => (0, m, pids)
  | Some pid =>
      let max := int32 (Z.of_nat (size m)) in
      let key := LookupKey pid in
      match m !! key with
      | Some id => (id, m, pids)
      | None => (max, <[key := max]> m, (pids ++ [pid])%list)
      end
  end.

(** [lookupTypeName]. *)
Definition lookupTypeName (m : gmap string Z) (name : string) (types : list string)
    : Z * gmap string Z * list string :=
  let max := int32 (Z.of_nat (size m)) in
  match m !! name with
  | Some id => (id, m, types)
  | None => (max, <[name := max]> m, (types ++ [name])%list)
  end.

(** The local variables of [streamWriter.Invoke]. *)
Record tables := mkTables {
  typeLookup : gmap string Z;
  typeNames : list string;
  senderLookup : gmap Z Z;
  senders : list PID;
  targetLookup : gmap Z Z;
  targets : list PID;
  messages : list (option Message)
}.

Definition empty_tables : tables := mkTables ∅ [] ∅ [] ∅ [] [].

(** One iteration of the loop of [Invoke]; the type assertion to
    [*streamDeliver] panics on any other message. *)
Definition Invoke_step (t : tables) (e : Actor.Envelope) : option tables :=
  match Msg_ e with
  | streamDeliver sender target msg =>
      let '(typeID, tl, tn) := lookupTypeName (typeLookup t) (TypeName msg) (typeNames t) in
      let '(senderID, sl, ss) := lookupPIDs (senderLookup t) sender (senders t) in
      let '(targetID, gl, ts) := lookupPIDs (targetLookup t) target (targets t) in
      let entry :=
        match Serialize msg with
        | None => None
        | Some b => Some (mkMessage b typeID senderID targetID)
        end in
      Some (mkTables tl tn sl ss gl ts (messages t ++ [entry])%list)
  | _ => None
  end.

Fixpoint Invoke_loop (t : tables) (msgs : list Actor.Envelope) : option tables :=
  match msgs with
  | [] => Some t
  | e :: msgs' => t' ← Invoke_step t e; Invoke_loop t' msgs'
  end.

(** [streamWriter.Invoke]: the envelope passed to [stream.Send]. *)
Definition Invoke (msgs : list Actor.Envelope) : option Envelope :=
  t ← Invoke_loop empty_tables msgs;
  Some (mkEnvelope (senders t) (targets t) (typeNames t) (messages t)).

(** How the body of [streamReader.Receive] ends for one envelope. *)
Inductive Ending :=
| Completed
| ReturnedErr
| Panicked.

(** The loop of [streamReader.Receive] over the messages of one envelope:
    the deliveries made, in order, and how the loop ended. *)
Fixpoint Receive_loop (envelope : Envelope) (msgs : list (option Message))
    : list Delivery * Ending :=
  match msgs with
  | [] => ([], Completed)
  | None :: _ => ([], Panicked)
  | Some msg :: msgs' =>
      match index (TypeNames envelope) (TypeNameIndex msg) with
      | None => ([], Panicked)
      | Some tname =>
          match Deserialize (Data msg) tname with
          | None => ([], ReturnedErr)
          | Some payload =>
              match index (Targets envelope) (TargetIndex msg) with
              | None => ([], Panicked)
              | Some target =>
                  let sender :=
                    if decide (0 < length (Senders envelope))%nat
                    then match index (Senders envelope) (SenderIndex msg) with
                         | Some s => Some (Some s)
                         | None => None
                         end
                    else Some None in
                  match sender with
                  | None => ([], Panicked)
                  | Some sender =>
                      let '(ds, e) := Receive_loop envelope msgs' in
                      (mkDelivery target payload sender :: ds, e)
                  end
              end
          end
      end
  end.

(** [streamReader.Receive] on one received envelope. *)
Definition Receive (envelope : Envelope) : list Delivery * Ending :=
  Receive_loop envelope (Messages envelope).

(** What the batch asks for: each [streamDeliver], in order, as the
    delivery of its message to its target with its sender. *)
Definition intended (msgs : list Actor.Envelope) : list (option PID * Msg * option PID) :=
  omap (λ e, match Msg_ e with
             | streamDeliver sender target msg => Some (target, msg, sender)
             | _ => None
             end) msgs.

Definition delivered (ds : list Delivery) : list (option PID * Msg * option PID) :=
  (λ d, (Some (d_target d), d_payload d, d_sender d)) <$> ds.

End Stream.


(** *** A serializer for user payloads *)

Definition ex_TypeName (m : Msg) : string :=
  match m with User _ => "User" | _ => "other" end.
Definition ex_Serialize (m : Msg) : option string :=
  match m with User s => Some s | _ => None end.
Definition ex_Deserialize (data tname : string) : option Msg :=
  if decide (tname = "User") then Some (User data) else None.

Definition deliver_env (sender target : option PID) (msg : Msg) : Actor.Envelope :=
  Actor.mkEnvelope (streamDeliver sender target msg) None.

Section StreamProperties.
Variable Hash : string → Z.
Variable TypeName : Msg → string.
Variable Serialize : Msg → option string.
Variable Deserialize : string → string → option Msg.

Local Open Scope list_scope.

Lemma lookupPIDs_fresh (m : gmap Z Z) pid pids :
  m !! LookupKey Hash pid = None →
  lookupPIDs Hash m (Some pid) pids
  = (int32 (Z.of_nat (size m)), <[LookupKey Hash pid := int32 (Z.of_nat (size m))]> m,
     (pids ++ [pid])%list).
Proof. intros H. unfold lookupPIDs. by rewrite H. Qed.

Lemma lookupPIDs_known (m : gmap Z Z) pid pids id :
  m !! LookupKey Hash pid = Some id →
  lookupPIDs Hash m (Some pid) pids = (id, m, pids).
Proof. intros H. unfold lookupPIDs. by rewrite H. Qed.

Lemma lookupTypeName_fresh (m : gmap string Z) name types :
  m !! name = None →
  lookupTypeName m name types
  = (int32 (Z.of_nat (size m)), <[name := int32 (Z.of_nat (size m))]> m,
     (types ++ [name])%list).
Proof. intros H. unfold lookupTypeName. by rewrite H. Qed.

Lemma lookupTypeName_known (m : gmap string Z) name types id :
  m !! name = Some id → lookupTypeName m name types = (id, m, types).
Proof. intros H. unfold lookupTypeName. by rewrite H. Qed.

Lemma Invoke_loop_cons t e msgs t' :
  Invoke_step Hash TypeName Serialize t e = Some t' →
  Invoke_loop Hash TypeName Serialize t (e :: msgs)
  = Invoke_loop Hash TypeName Serialize t' msgs.
Proof. intros H. simpl. by rewrite H. Qed.

(** *** Interning without collisions *)

(** Both lookup functions intern a value [v] under [key v]. *)
Definition intern {K V} `{Countable K} (key : V → K) (m : gmap K Z) (v : V)
    (l : list V) : Z * gmap K Z * list V :=
  match m !! key v with
  | Some id => (id, m, l)
  | None => (int32 (Z.of_nat (size m)), <[key v := int32 (Z.of_nat (size m))]> m, l ++ [v])
  end.

Lemma lookupPIDs_intern m pid pids :
  lookupPIDs Hash m (Some pid) pids = intern (LookupKey Hash) m pid pids.
Proof. reflexivity. Qed.

Lemma lookupTypeName_intern m name types :
  lookupTypeName m name types = intern (λ n, n) m name types.
Proof. reflexivity. Qed.

(** The map sends the key of every interned value to its position. *)
Definition table_ok {K V} `{Countable K} (key : V → K) (m : gmap K Z) (l : list V) : Prop :=
  size m = length l ∧
  ∀ k i, m !! k = Some i → (0 ≤ i)%Z ∧ ∃ v, l !! Z.to_nat i = Some v ∧ key v = k.

Lemma table_ok_empty {K V} `{Countable K} (key : V → K) : table_ok key ∅ [].
Proof. split; [done|]. intros k i Hk. by rewrite lookup_empty in Hk. Qed.

Lemma intern_ok {K V} `{Countable K} (key : V → K) m v l :
  table_ok key m l → (Z.of_nat (length l) < 2 ^ 31)%Z →
  (∀ w, w ∈ l → key w = key v → w = v) →
  table_ok key (intern key m v l).1.2 (intern key m v l).2 ∧
  index (intern key m v l).2 (intern key m v l).1.1 = Some v ∧
  (∃ ext, (intern key m v l).2 = l ++ ext) ∧
  (length (intern key m v l).2 ≤ S (length l))%nat ∧
  (∀ w, w ∈ (intern key m v l).2 → w ∈ l ∨ w = v).
Proof.
  intros [Hsize Hok] Hlen Hinj. unfold intern.
  destruct (m !! key v) as [i|] eqn:Hi; simpl.
  - destruct (Hok _ _ Hi) as (Hi0 & w & Hw & Hkw).
    split_and!.
    + done.
    + rewrite index_nonneg by done. rewrite Hw. f_equal.
      apply Hinj; [|done]. by eapply list_elem_of_lookup_2.
    + exists []. by rewrite app_nil_r.
    + lia.
    + intros w' ?. by left.
  - rewrite Hsize, int32_id by lia. split_and!.
    + split.
      * rewrite map_size_insert_None by done. rewrite length_app. simpl. lia.
      * intros k i Hk. apply lookup_insert_Some in Hk as [[<- <-]|[Hne Hk]].
        -- split; [lia|]. exists v. rewrite Nat2Z.id.
           split; [|done]. by rewrite lookup_app_r, Nat.sub_diag.
        -- destruct (Hok _ _ Hk) as (Hi0 & w & Hw & Hkw).
           split; [done|]. exists w. split; [|done].
           by apply lookup_app_l_Some.
    + rewrite index_nonneg by lia. rewrite Nat2Z.id.
      by rewrite lookup_app_r, Nat.sub_diag.
    + by exists [v].
    + rewrite length_app. simpl. lia.
    + intros w Hw. apply elem_of_app in Hw as [?|Hw]; [by left|].
      apply list_elem_of_singleton in Hw. by right.
Qed.

(** A [streamDeliver] with sender and target whose payload the serializer
    round-trips. *)
Definition good_deliver (e : Actor.Envelope) : Prop :=
  ∃ s t m b, Msg_ e = streamDeliver (Some s) (Some t) m ∧
             Serialize m = Some b ∧ Deserialize b (TypeName m) = Some m.

Definition batch_senders (msgs : list Actor.Envelope) : list PID :=
  omap (λ e, match Msg_ e with streamDeliver (Some s) _ _ => Some s | _ => None end) msgs.

Definition batch_targets (msgs : list Actor.Envelope) : list PID :=
  omap (λ e, match Msg_ e with streamDeliver _ (Some t) _ => Some t | _ => None end) msgs.

(** No two different PIDs of the list share their lookup key. *)
Definition collision_free (pids : list PID) : Prop :=
  ∀ p q, p ∈ pids → q ∈ pids → LookupKey Hash p = LookupKey Hash q → p = q.

(** The wire entry [entry] stands for the envelope [e] in the tables. *)
Definition resolves (tn : list string) (ss ts : list PID)
    (entry : option Message) (e : Actor.Envelope) : Prop :=
  ∃ s t m msg, Msg_ e = streamDeliver (Some s) (Some t) m ∧ entry = Some msg ∧
    index tn (TypeNameIndex msg) = Some (TypeName m) ∧
    Deserialize (Data msg) (TypeName m) = Some m ∧
    index ts (TargetIndex msg) = Some t ∧
    index ss (SenderIndex msg) = Some s.

Lemma index_app_l {A} (l ext : list A) i v :
  index l i = Some v → index (l ++ ext) i = Some v.
Proof.
  unfold index. destruct (decide (0 ≤ i)%Z); [|done].
  apply lookup_app_l_Some.
Qed.

Lemma resolves_mono tn ss ts e1 e2 e3 entry e :
  resolves tn ss ts entry e → resolves (tn ++ e1) (ss ++ e2) (ts ++ e3) entry e.
Proof.
  intros (s & t & m & msg & He & -> & Htn & Hd & Hts & Hss).
  exists s, t, m, msg. split_and!; try done; by apply index_app_l.
Qed.

(** The invariant of the loop of [Invoke] after the envelopes [done]. *)
Definition tables_ok (PS TS : list PID) (t : tables) (done : list Actor.Envelope) : Prop :=
  table_ok (λ n, n) (typeLookup t) (typeNames t) ∧
  table_ok (LookupKey Hash) (senderLookup t) (senders t) ∧
  table_ok (LookupKey Hash) (targetLookup t) (targets t) ∧
  (length (typeNames t) ≤ length done)%nat ∧
  (length (senders t) ≤ length done)%nat ∧
  (length (targets t) ≤ length done)%nat ∧
  (∀ p, p ∈ senders t → p ∈ PS) ∧ (∀ p, p ∈ targets t → p ∈ TS) ∧
  Forall2 (resolves (typeNames t) (senders t) (targets t)) (messages t) done.

Lemma Invoke_step_ok PS TS t done e :
  tables_ok PS TS t done → good_deliver e →
  collision_free PS → collision_free TS →
  (∀ s tg m, Msg_ e = streamDeliver (Some s) (Some tg) m → s ∈ PS ∧ tg ∈ TS) →
  (Z.of_nat (length done) < 2 ^ 31)%Z →
  ∃ t', Invoke_step Hash TypeName Serialize t e = Some t' ∧
        tables_ok PS TS t' (done ++ [e]).
Proof.
  intros (Htn & Hss & Hts & Ln & Ls & Lt & HPS & HTS & Hres)
    (s & tg & m & b & He & Hser & Hdes) Hcs Hct Hin Hlen.
  destruct (Hin s tg m He) as [HsPS HtTS].
  unfold Invoke_step. rewrite He, lookupTypeName_intern, !lookupPIDs_intern, Hser.
  destruct (intern_ok (λ n, n) (typeLookup t) (TypeName m) (typeNames t) Htn)
    as (Htn' & Hitn & [e1 Hen] & Ln' & _); [lia|by intros ? _ ->|].
  destruct (intern_ok (LookupKey Hash) (senderLookup t) s (senders t) Hss)
    as (Hss' & Hiss & [e2 Hes] & Ls' & Hs_in); [lia| |].
  { intros w Hw Hk. apply Hcs; auto. }
  destruct (intern_ok (LookupKey Hash) (targetLookup t) tg (targets t) Hts)
    as (Hts' & Hits & [e3 Het] & Lt' & Ht_in); [lia| |].
  { intros w Hw Hk. apply Hct; auto. }
  destruct (intern (λ n, n) (typeLookup t) (TypeName m) (typeNames t))
    as [[typeID tl] tn].
  destruct (intern (LookupKey Hash) (senderLookup t) s (senders t))
    as [[senderID sl] ss].
  destruct (intern (LookupKey Hash) (targetLookup t) tg (targets t))
    as [[targetID gl] ts].
  simpl in *. eexists. split; [reflexivity|].
  unfold tables_ok. simpl. rewrite length_app. simpl.
  split_and!; try done; try lia.
  - intros p Hp. destruct (Hs_in p Hp) as [?| ->]; auto.
  - intros p Hp. destruct (Ht_in p Hp) as [?| ->]; auto.
  - apply Forall2_app.
    + subst tn ss ts. eapply Forall2_impl; [exact Hres|].
      intros entry e0 Hr. by apply resolves_mono.
    + constructor; [|constructor].
      exists s, tg, m, (mkMessage b typeID senderID targetID).
      split_and!; done.
Qed.

Lemma Invoke_loop_ok PS TS rest : ∀ t done,
  tables_ok PS TS t done → Forall good_deliver rest →
  collision_free PS → collision_free TS →
  (∀ e s tg m, e ∈ rest → Msg_ e = streamDeliver (Some s) (Some tg) m → s ∈ PS ∧ tg ∈ TS) →
  (Z.of_nat (length done + length rest) < 2 ^ 31)%Z →
  ∃ t', Invoke_loop Hash TypeName Serialize t rest = Some t' ∧
        tables_ok PS TS t' (done ++ rest).
Proof.
  induction rest as [|e rest IH]; intros t done Hok Hgood Hcs Hct Hin Hlen.
  - exists t. by rewrite app_nil_r.
  - apply Forall_cons in Hgood as [He Hgood]. simpl in Hlen.
    destruct (Invoke_step_ok PS TS t done e Hok He Hcs Hct) as (t1 & Hstep & Hok1).
    { intros s tg m. apply Hin. left. }
    { lia. }
    destruct (IH t1 (done ++ [e]) Hok1 Hgood Hcs Hct) as (t' & Hloop & Hok').
    { intros e0 s tg m He0. apply Hin. by right. }
    { rewrite length_app. simpl. lia. }
    exists t'. split.
    + simpl. by rewrite Hstep.
    + by rewrite <- app_assoc in Hok'.
Qed.

Lemma Receive_loop_ok (wire : Envelope) entries : ∀ es,
  Forall2 (resolves (TypeNames wire) (Senders wire) (Targets wire)) entries es →
  ∃ ds, Receive_loop Deserialize wire entries = (ds, Completed) ∧
        delivered ds = intended es.
Proof.
  induction entries as [|entry entries IH]; intros es Hall.
  - apply Forall2_nil_inv_l in Hall as ->. by exists [].
  - apply Forall2_cons_inv_l in Hall as (e & es' & Hr & Hall & ->).
    destruct Hr as (s & t & m & msg & He & -> & Htn & Hd & Hts & Hss).
    destruct (IH es' Hall) as (ds & Hloop & Hds).
    simpl. rewrite Htn, Hd, Hts, Hss, Hloop.
    assert (0 < length (Senders wire))%nat as Hpos.
    { unfold index in Hss. destruct (decide (0 ≤ SenderIndex msg)%Z); [|done].
      apply lookup_lt_Some in Hss. lia. }
    rewrite decide_True by done.
    eexists. split; [reflexivity|].
    unfold delivered. rewrite fmap_cons. fold (delivered ds). rewrite Hds.
    unfold intended. simpl. by rewrite He.
Qed.

(** What does hold of the interning: when every message of the batch has a
    sender and a target, no two different senders and no two different
    targets of the batch share their lookup key, the serializer round-trips
    the payloads and the batch is shorter than [2^31], the reader delivers
    exactly what was enqueued. *)
Lemma Invoke_Receive_roundtrip msgs :
  Forall good_deliver msgs →
  collision_free (batch_senders msgs) → collision_free (batch_targets msgs) →
  (Z.of_nat (length msgs) < 2 ^ 31)%Z →
  ∃ wire ds, Invoke Hash TypeName Serialize msgs = Some wire ∧
    Receive Deserialize wire = (ds, Completed) ∧
    delivered ds = intended msgs.
Proof.
  intros Hgood Hcs Hct Hlen.
  destruct (Invoke_loop_ok (batch_senders msgs) (batch_targets msgs) msgs
              empty_tables []) as (t & Hloop & Hok); try done.
  - unfold tables_ok. simpl. split_and!; try done; try apply table_ok_empty.
    + intros p Hp. by apply elem_of_nil in Hp.
    + intros p Hp. by apply elem_of_nil in Hp.
  - intros e s tg m He Hm. unfold batch_senders, batch_targets. split.
    + apply list_elem_of_omap. exists e. split; [done|]. by rewrite Hm.
    + apply list_elem_of_omap. exists e. split; [done|]. by rewrite Hm.
  - simpl in Hok. destruct Hok as (_ & _ & _ & _ & _ & _ & _ & _ & Hres).
    unfold Invoke. rewrite Hloop. simpl.
    destruct (Receive_loop_ok
                (mkEnvelope (senders t) (targets t) (typeNames t) (messages t))
                (messages t) msgs Hres) as (ds & HR & Hds).
    eexists _, ds. split; [reflexivity|]. by split.
Qed.

(** PIDs whose address and id concatenate to the same string share their
    lookup key, whatever the hash. *)
Lemma LookupKey_concat p q :
  (Address p ++ ID p = Address q ++ ID q)%string → LookupKey Hash p = LookupKey Hash q.
Proof. unfold LookupKey. by intros ->. Qed.

End StreamProperties.

(** Two messages from the same sender to the same target: one table entry
    each, and both messages arrive as enqueued, whatever the hash. *)
Lemma Invoke_Receive_roundtrip_example (Hash : string → Z) :
  let T := NewPID "node:80" "echo/1" in
  let S := NewPID "node:90" "client/7" in
  let batch := [deliver_env (Some S) (Some T) (User "m1");
                deliver_env (Some S) (Some T) (User "m2")] in
  ∃ wire ds, Invoke Hash ex_TypeName ex_Serialize batch = Some wire ∧
    Receive ex_Deserialize wire = (ds, Completed) ∧
    delivered ds = [(Some T, User "m1", Some S); (Some T, User "m2", Some S)].
Proof.
  intros T S batch.
  apply (Invoke_Receive_roundtrip Hash ex_TypeName ex_Serialize ex_Deserialize batch).
  - repeat constructor; by eexists _, _, _, _.
  - intros p q Hp Hq _. simpl in Hp, Hq.
    repeat (apply elem_of_cons in Hp as [->|Hp]); [| |by apply elem_of_nil in Hp];
      repeat (apply elem_of_cons in Hq as [->|Hq]); try done;
      by apply elem_of_nil in Hq.
  - intros p q Hp Hq _. simpl in Hp, Hq.
    repeat (apply elem_of_cons in Hp as [->|Hp]); [| |by apply elem_of_nil in Hp];
      repeat (apply elem_of_cons in Hq as [->|Hq]); try done;
      by apply elem_of_nil in Hq.
  - simpl. lia.
Qed.

(** C9 fails on a batch that mixes an anonymous message with one that has a
    sender.  [lookupPIDs] gives the nil sender index [0] without an entry in
    the table, the sender of the second message takes index [0] as the first
    entry, and the reader, finding [Senders] non-empty, resolves index [0]
    for both: the anonymous message arrives with the sender of the other. *)
Theorem Invoke_nil_sender_misattributed (Hash : string → Z) :
  let T := NewPID "node:80" "echo/1" in
  let S := NewPID "node:90" "client/7" in
  let batch := [deliver_env None (Some T) (User "m1");
                deliver_env (Some S) (Some T) (User "m2")] in
  let wire := mkEnvelope [S] [T] ["User"]
                [Some (mkMessage "m1" 0 0 0); Some (mkMessage "m2" 0 0 0)] in
  Invoke Hash ex_TypeName ex_Serialize batch = Some wire ∧
  Receive ex_Deserialize wire
  = ([mkDelivery T (User "m1") (Some S); mkDelivery T (User "m2") (Some S)],
     Completed) ∧
  intended batch = [(Some T, User "m1", None); (Some T, User "m2", Some S)] ∧
  delivered (Receive ex_Deserialize wire).1 ≠ intended batch.
Proof.
  intros T S batch wire. split; [|split; [reflexivity|split; [reflexivity|discriminate]]].
  unfold Invoke, batch.
  erewrite Invoke_loop_cons; cycle 1.
  { unfold Invoke_step, deliver_env, empty_tables. cbn [Msg_ typeLookup typeNames
      senderLookup senders targetLookup targets messages ex_TypeName ex_Serialize].
    rewrite lookupTypeName_fresh by apply lookup_empty.
    rewrite lookupPIDs_fresh by apply lookup_empty.
    rewrite map_size_empty. cbn [lookupPIDs]. reflexivity. }
  erewrite Invoke_loop_cons; cycle 1.
  { unfold Invoke_step, deliver_env. cbn [Msg_ typeLookup typeNames
      senderLookup senders targetLookup targets messages ex_TypeName ex_Serialize].
    erewrite lookupTypeName_known by apply lookup_insert_eq.
    rewrite lookupPIDs_fresh by apply lookup_empty.
    erewrite lookupPIDs_known by apply lookup_insert_eq.
    rewrite map_size_empty. reflexivity. }
  reflexivity.
Qed.

(** C10 fails for PIDs whose address and id concatenate to the same string:
    they share the lookup key, so the second one is given the table index of
    the first and is not added to the table.  With the senders
    [node:8 | 080/7] and [node:80 | 80/7] the second message arrives with
    the sender of the first; with the targets [ab | c] and [a | bc] the
    second message is delivered to the target of the first. *)
Theorem Invoke_concat_collision (Hash : string → Z) :
  let T := NewPID "node:80" "echo/1" in
  let S1 := NewPID "node:8" "080/7" in
  let S2 := NewPID "node:80" "80/7" in
  let T1 := NewPID "ab" "c" in
  let T2 := NewPID "a" "bc" in
  let batch_s := [deliver_env (Some S1) (Some T) (User "m1");
                  deliver_env (Some S2) (Some T) (User "m2")] in
  let wire_s := mkEnvelope [S1] [T] ["User"]
                  [Some (mkMessage "m1" 0 0 0); Some (mkMessage "m2" 0 0 0)] in
  let batch_t := [deliver_env None (Some T1) (User "m1");
                  deliver_env None (Some T2) (User "m2")] in
  let wire_t := mkEnvelope [] [T1] ["User"]
                  [Some (mkMessage "m1" 0 0 0); Some (mkMessage "m2" 0 0 0)] in
  (Equals S1 S2 = false ∧ LookupKey Hash S1 = LookupKey Hash S2 ∧
   Invoke Hash ex_TypeName ex_Serialize batch_s = Some wire_s ∧
   Receive ex_Deserialize wire_s
   = ([mkDelivery T (User "m1") (Some S1); mkDelivery T (User "m2") (Some S1)],
      Completed) ∧
   delivered (Receive ex_Deserialize wire_s).1 ≠ intended batch_s) ∧
  (Equals T1 T2 = false ∧ LookupKey Hash T1 = LookupKey Hash T2 ∧
   Invoke Hash ex_TypeName ex_Serialize batch_t = Some wire_t ∧
   Receive ex_Deserialize wire_t
   = ([mkDelivery T1 (User "m1") None; mkDelivery T1 (User "m2") None],
      Completed) ∧
   delivered (Receive ex_Deserialize wire_t).1 ≠ intended batch_t).
Proof.
  intros T S1 S2 T1 T2 batch_s wire_s batch_t wire_t. split.
  - split; [done|]. split; [by apply LookupKey_concat|].
    split; [|split; [reflexivity|discriminate]].
    unfold Invoke, batch_s.
    erewrite Invoke_loop_cons; cycle 1.
    { unfold Invoke_step, deliver_env, empty_tables. cbn [Msg_ typeLookup typeNames
        senderLookup senders targetLookup targets messages ex_TypeName ex_Serialize].
      rewrite lookupTypeName_fresh by apply lookup_empty.
      rewrite !lookupPIDs_fresh by apply lookup_empty.
      rewrite map_size_empty. reflexivity. }
    erewrite Invoke_loop_cons; cycle 1.
    { unfold Invoke_step, deliver_env. cbn [Msg_ typeLookup typeNames
        senderLookup senders targetLookup targets messages ex_TypeName ex_Serialize].
      erewrite lookupTypeName_known by apply lookup_insert_eq.
      erewrite (lookupPIDs_known Hash _ S2)
        by (rewrite (LookupKey_concat Hash S2 S1) by reflexivity;
            apply lookup_insert_eq).
      erewrite lookupPIDs_known by apply lookup_insert_eq.
      reflexivity. }
    reflexivity.
  - split; [done|]. split; [by apply LookupKey_concat|].
    split; [|split; [reflexivity|discriminate]].
    unfold Invoke, batch_t.
    erewrite Invoke_loop_cons; cycle 1.
    { unfold Invoke_step, deliver_env, empty_tables. cbn [Msg_ typeLookup typeNames
        senderLookup senders targetLookup targets messages ex_TypeName ex_Serialize].
      rewrite lookupTypeName_fresh by apply lookup_empty.
      rewrite lookupPIDs_fresh by apply lookup_empty.
      rewrite map_size_empty. cbn [lookupPIDs]. reflexivity. }
    erewrite Invoke_loop_cons; cycle 1.
    { unfold Invoke_step, deliver_env. cbn [Msg_ typeLookup typeNames
        senderLookup senders targetLookup targets messages ex_TypeName ex_Serialize].
      erewrite lookupTypeName_known by apply lookup_insert_eq.
      erewrite (lookupPIDs_known Hash _ T2)
        by (rewrite (LookupKey_concat Hash T2 T1) by reflexivity;
            apply lookup_insert_eq).
      cbn [lookupPIDs]. reflexivity. }
    reflexivity.
Qed.


(** *** The tables of a batch on the wire *)

Section StreamWire.
Variable Hash : string → Z.
Variable TypeName : Msg → string.
Variable Serialize : Msg → option string.
Variable Deserialize : string → string → option Msg.

Local Open Scope list_scope.

(** In a table that satisfies [table_ok] every position is the value of the
    key of its element: the positions in the map are as many as the
    elements, below the length and pairwise different. *)
Lemma table_ok_position {K V} `{Countable K} (key : V → K) (m : gmap K Z) (l : list V)
    (i : nat) v :
  table_ok key m l → l !! i = Some v → m !! key v = Some (Z.of_nat i).
Proof.
  intros [Hsize Hok] Hi.
  set (pos := (λ kv : K * Z, Z.to_nat kv.2) <$> map_to_list m).
  assert (NoDup pos) as Hnd.
  { unfold pos. apply NoDup_fmap_2_strong; [|apply NoDup_map_to_list].
    intros [k1 i1] [k2 i2] H1 H2 E. simpl in E.
    apply elem_of_map_to_list in H1, H2.
    destruct (Hok _ _ H1) as (Hi1 & v1 & Hv1 & Hk1).
    destruct (Hok _ _ H2) as (Hi2 & v2 & Hv2 & Hk2).
    rewrite E in Hv1. assert (v1 = v2) as -> by congruence.
    f_equal; [congruence|lia]. }
  assert (∀ x, x ∈ pos → x ∈ seq 0 (length l)) as Hsub.
  { intros x Hx. unfold pos in Hx. apply list_elem_of_fmap in Hx as ([k j] & -> & Hkj).
    apply elem_of_map_to_list in Hkj. destruct (Hok _ _ Hkj) as (_ & w & Hw & _).
    simpl. apply elem_of_seq. apply lookup_lt_Some in Hw. lia. }
  assert (pos ≡ₚ seq 0 (length l)) as Hperm.
  { apply submseteq_length_Permutation; [by apply NoDup_submseteq|].
    unfold pos. rewrite length_fmap, length_seq, length_map_to_list. lia. }
  assert (i ∈ pos) as Hin.
  { rewrite Hperm. apply elem_of_seq. apply lookup_lt_Some in Hi. lia. }
  unfold pos in Hin. apply list_elem_of_fmap in Hin as ([k j] & Hj & Hkj).
  simpl in Hj. apply elem_of_map_to_list in Hkj.
  destruct (Hok _ _ Hkj) as (Hj0 & w & Hw & Hkw).
  rewrite <- Hj in Hw. assert (w = v) as -> by congruence.
  rewrite Hkw, Hkj. f_equal. lia.
Qed.

Lemma table_ok_NoDup {K V} `{Countable K} (key : V → K) (m : gmap K Z) (l : list V) :
  table_ok key m l → NoDup l.
Proof.
  intros Hok. apply NoDup_alt. intros i j v Hi Hj.
  pose proof (table_ok_position key m l i v Hok Hi) as E1.
  pose proof (table_ok_position key m l j v Hok Hj) as E2.
  rewrite E1 in E2. injection E2. lia.
Qed.

Lemma index_elem_of {A} (l : list A) i v : index l i = Some v → v ∈ l.
Proof.
  unfold index. destruct (decide (0 ≤ i)%Z); [|done].
  apply list_elem_of_lookup_2.
Qed.

(** X19. The wire form of a batch, under the conditions of the round trip
    (every message has a sender and a target, no two different senders and
    no two different targets share their lookup key, the serializer
    round-trips the payloads, the batch is shorter than [2^31]).  The reader
    delivers exactly what was enqueued, in order; the envelope holds one
    message entry per envelope of the batch; and each sender, target and
    type name of the batch is on the wire exactly once. *)
Theorem Invoke_wire_spec msgs :
  Forall (good_deliver TypeName Serialize Deserialize) msgs →
  collision_free Hash (batch_senders msgs) → collision_free Hash (batch_targets msgs) →
  (Z.of_nat (length msgs) < 2 ^ 31)%Z →
  ∃ wire ds, Invoke Hash TypeName Serialize msgs = Some wire ∧
    Receive Deserialize wire = (ds, Completed) ∧
    delivered ds = intended msgs ∧
    length (Messages wire) = length msgs ∧
    NoDup (Senders wire) ∧ NoDup (Targets wire) ∧ NoDup (TypeNames wire) ∧
    (∀ p, p ∈ Senders wire ↔ p ∈ batch_senders msgs) ∧
    (∀ p, p ∈ Targets wire ↔ p ∈ batch_targets msgs).
Proof.
  intros Hgood Hcs Hct Hlen.
  destruct (Invoke_loop_ok Hash TypeName Serialize Deserialize
              (batch_senders msgs) (batch_targets msgs) msgs
              empty_tables []) as (t & Hloop & Hok); try done.
  - unfold tables_ok. simpl. split_and!; try done; try apply table_ok_empty.
    + intros p Hp. by apply elem_of_nil in Hp.
    + intros p Hp. by apply elem_of_nil in Hp.
  - intros e s tg m He Hm. unfold batch_senders, batch_targets. split.
    + apply list_elem_of_omap. exists e. split; [done|]. by rewrite Hm.
    + apply list_elem_of_omap. exists e. split; [done|]. by rewrite Hm.
  - simpl in Hok.
    destruct Hok as (Htn & Hss & Hts & _ & _ & _ & HPS & HTS & Hres).
    unfold Invoke. rewrite Hloop. simpl.
    destruct (Receive_loop_ok TypeName Deserialize
                (mkEnvelope (senders t) (targets t) (typeNames t) (messages t))
                (messages t) msgs Hres) as (ds & HR & Hds).
    eexists _, ds. split; [reflexivity|]. simpl.
    split_and!; try done.
    + by eapply Forall2_length.
    + by eapply table_ok_NoDup.
    + by eapply table_ok_NoDup.
    + by eapply table_ok_NoDup.
    + intros p. split; [apply HPS|]. intros Hp.
      apply list_elem_of_omap in Hp as (e & He & Hm).
      apply list_elem_of_lookup_1 in He as [i Hi].
      destruct (Forall2_lookup_r _ _ _ _ _ Hres Hi) as (entry & _ & Hr).
      destruct Hr as (s & tg & m & msg & Hmsg & _ & _ & _ & _ & Hs).
      rewrite Hmsg in Hm. injection Hm as ->. by eapply index_elem_of.
    + intros p. split; [apply HTS|]. intros Hp.
      apply list_elem_of_omap in Hp as (e & He & Hm).
      apply list_elem_of_lookup_1 in He as [i Hi].
      destruct (Forall2_lookup_r _ _ _ _ _ Hres Hi) as (entry & _ & Hr).
      destruct Hr as (s & tg & m & msg & Hmsg & _ & _ & _ & Ht & _).
      rewrite Hmsg in Hm. injection Hm as ->. by eapply index_elem_of.
Qed.

End StreamWire.

(** A hash for the examples: the length of the key. *)
Definition ex_Hash (s : string) : Z := Z.of_nat (String.length s).

Lemma Invoke_wire_spec_witness :
  let T := NewPID "node:80" "echo/1" in
  let S := NewPID "node:90" "client/7" in
  let batch := [deliver_env (Some S) (Some T) (User "m1");
                deliver_env (Some S) (Some T) (User "m2")] in
  ∃ wire ds, Invoke ex_Hash ex_TypeName ex_Serialize batch = Some wire ∧
    Receive ex_Deserialize wire = (ds, Completed) ∧
    delivered ds = [(Some T, User "m1", Some S); (Some T, User "m2", Some S)] ∧
    length (Messages wire) = 2%nat.
Proof.
  intros T S batch.
  destruct (Invoke_wire_spec ex_Hash ex_TypeName ex_Serialize ex_Deserialize batch)
    as (wire & ds & HI & HR & Hd & Hl & _).
  - repeat constructor; by eexists _, _, _, _.
  - intros p q Hp Hq _. simpl in Hp, Hq.
    repeat (apply elem_of_cons in Hp as [->|Hp]); [| |by apply elem_of_nil in Hp];
      repeat (apply elem_of_cons in Hq as [->|Hq]); try done;
      by apply elem_of_nil in Hq.
  - intros p q Hp Hq _. simpl in Hp, Hq.
    repeat (apply elem_of_cons in Hp as [->|Hp]); [| |by apply elem_of_nil in Hp];
      repeat (apply elem_of_cons in Hq as [->|Hq]); try done;
      by apply elem_of_nil in Hq.
  - simpl. lia.
  - exists wire, ds. split_and!; done.
Defined.

(** *** The stream router and the life of a stream writer *)

(** [streamRouter]: the writers by remote address, and its own PID. *)
Record streamRouter := mkRouter {
  streams : gmap string PID;
  router_pid : option PID
}.

(** [newStreamWriter]: the writer object allocated at [r] for [address]. *)
Definition newStreamWriter (e : Engine) (r : nat) (address : string) : Proc :=
  mkProc r (NewPID (Actor.address e) ("stream" ++ "/" ++ address)).

(** How a handler of the router ends: it returns, it panics (a nil
    dereference), or the sends it makes exceed the fuel. *)
Inductive Handled :=
| Returned (s : streamRouter) (e : Engine) (effs : list Effect)
| NilDeref
| NoFuel.

(** [streamRouter.deliverStream]; [r] is the address a new writer would be
    allocated at. *)
Definition deliverStream (fuel : nat) (s : streamRouter) (e : Engine) (r : nat)
    (sender target : option PID) (msg : Msg) : Handled :=
  match target with
  | None => NilDeref
  | Some tg =>
      let address := Address tg in
      match streams s !! address with
      | Some swpid =>
          match Send fuel e (Some swpid) (streamDeliver sender target msg) with
          | Some effs => Returned s e effs
          | None => NoFuel
          end
      | None =>
          match SpawnProc fuel e (newStreamWriter e r address) with
          | Some (e', effs1, swpid) =>
              let s' := mkRouter (<[address := swpid]> (streams s)) (router_pid s) in
              match Send fuel e' (Some swpid) (streamDeliver sender target msg) with
              | Some effs2 => Returned s' e' (effs1 ++ effs2)%list
              | None => NoFuel
              end
          | None => NoFuel
          end
      end
  end.

(** [streamRouter.handleTerminateStream]. *)
Definition handleTerminateStream (s : streamRouter) (ListenAddr : string) : streamRouter :=
  mkRouter (delete ListenAddr (streams s)) (router_pid s).

(** [streamRouter.Receive]; [self] is the PID of the context. *)
Definition Router_Receive (fuel : nat) (s : streamRouter) (e : Engine) (r : nat)
    (self : PID) (msg : Msg) : Handled :=
  match msg with
  | Started => Returned (mkRouter (streams s) (Some self)) e []
  | streamDeliver sender target m => deliverStream fuel s e r sender target m
  | RemoteUnreachableEvent a => Returned (handleTerminateStream s a) e []
  | _ => Returned s e []
  end.

(** [streamWriter.Shutdown] of the writer [w] for [writeToAddr], as far as
    the engine is concerned: the router and the event stream are told, and
    the writer leaves the registry. *)
Definition Writer_Shutdown (fuel : nat) (e : Engine) (routerPID : option PID)
    (writeToAddr : string) (w : Proc) : option (Engine * list Effect) :=
  let evt := RemoteUnreachableEvent writeToAddr in
  effs1 ← Send fuel e routerPID evt;
  effs2 ← BroadcastEvent fuel e evt;
  Some (Registry_Remove e (PID_ w), (effs1 ++ effs2)%list).


(** X21. The end of a writer, on an engine whose event stream is running and
    whose router is registered.  [Shutdown] sends the router one
    [RemoteUnreachableEvent] for the writer's address, broadcasts the same
    event once, and takes the writer out of the registry; the router, on
    that event, forgets the writer.  For a writer that [deliverStream] had
    spawned, router and registry are then as they were before it. *)
Theorem Writer_Shutdown_roundtrip fuel s e es esp r a rpid rp :
  eventstream_live e es esp →
  let w := newStreamWriter e r a in
  let evt := RemoteUnreachableEvent a in
  streams s !! a = None → Registry e !! ID (PID_ w) = None →
  Address rpid = address e → Registry e !! ID rpid = Some rp →
  let s1 := mkRouter (<[a := PID_ w]> (streams s)) (router_pid s) in
  let e1 := {| Registry := <[ID (PID_ w) := w]> (Registry e); address := address e;
               remote := remote e; eventStream := eventStream e |} in
  Writer_Shutdown (S fuel) e1 (Some rpid) a w
  = Some (e, [ProcSend rp (Some rpid) evt None; ProcSend esp (Some es) evt None]) ∧
  Router_Receive fuel s1 e r rpid evt = Returned s e [].
Proof.
  intros Hlive w evt Hs Hr Hra Hrr s1 e1.
  assert (ID rpid ≠ ID (PID_ w)) as Hne.
  { intros E. rewrite E in Hrr. congruence. }
  assert (eventstream_live e1 es esp) as Hlive1.
  { destruct Hlive as (H1 & H2 & H3). split_and!; try done.
    change (Registry e1 !! ID es) with (<[ID (PID_ w) := w]> (Registry e) !! ID es).
    rewrite lookup_insert_ne; [done|].
    intros E. rewrite E in Hr. congruence. }
  split.
  - unfold Writer_Shutdown, Send.
    rewrite (send_local_registered fuel e1 rpid rp); [|done|].
    2:{ simpl. by rewrite lookup_insert_ne. }
    cbn [mbind option_bind].
    rewrite (BroadcastEvent_live fuel e1 es esp) by done. cbn [mbind option_bind].
    unfold e1. by rewrite Registry_Remove_add.
  - unfold Router_Receive, evt, handleTerminateStream, s1. cbn [streams router_pid].
    rewrite delete_insert_id by done. by destruct s.
Qed.

(** An engine with its event stream and a router, and a router that knows no
    stream yet. *)
Definition ex_router_pid : PID := NewPID "local" "router/1".
Definition ex_router_proc : Proc := mkProc 1 ex_router_pid.
Definition ex_engine_r : Engine :=
  mkEngine {[ "eventstream/1" := ex_esp; "router/1" := ex_router_proc ]} "local"
    (Some (mkRemote "local" (Some ex_router_pid))) (Some ex_es).
Definition ex_router : streamRouter := mkRouter ∅ (Some ex_router_pid).

Lemma ex_engine_r_live : eventstream_live ex_engine_r ex_es ex_esp.
Proof. split_and!; reflexivity. Defined.


Lemma Writer_Shutdown_roundtrip_witness :
  let w := mkProc 9 (NewPID "local" "stream/node:80") in
  Router_Receive 0 (mkRouter {[ "node:80" := PID_ w ]} (Some ex_router_pid))
    ex_engine_r 9 ex_router_pid (RemoteUnreachableEvent "node:80")
  = Returned ex_router ex_engine_r [].
Proof.
  intros w.
  destruct (Writer_Shutdown_roundtrip 0 ex_router ex_engine_r ex_es ex_esp 9
              "node:80" ex_router_pid ex_router_proc ex_engine_r_live)
    as (_ & HR); [reflexivity|reflexivity|reflexivity|reflexivity|].
  exact HR.
Defined.

End Remote.

(** ** Package cluster: member sets and the agent *)

Module Cluster.
Import Actor.

Local Open Scope string_scope.

Record Member := mkMember {
  MemberID : string;
  Host : string;
  Region : string;
  Kinds : list string
}.

#[global] Instance Member_eq_dec : EqDecision Member.
Proof. solve_decision. Defined.

(** [Member.PID]: the PID of the agent of the member's node. *)
Definition Member_PID (m : Member) : PID := NewPID (Host m) ("cluster/" ++ MemberID m).

(** [Member.HasKind]. *)
Definition HasKind (m : Member) (kind : string) : bool :=
  bool_decide (kind ∈ Kinds m).

(** A registered kind; the producer is a handle. *)
Record kind := mkKind { name : string; producer : nat }.

(** The messages of the cluster layer, requests and responses included. *)
Inductive CMsg :=
| ActorTopology (Actors : list PID)
| Members (members : list Member)
| Activation (pid : option PID)
| Deactivation (pid : option PID)
| ActivationRequest (Kind ID : string)
| ActivationResponse (pid : option PID) (Success : bool)
| RespPID (pid : option PID)
| RespPIDs (pids : list (option PID))
| RespMembers (members : list Member)
| RespKinds (kinds : list string).

#[global] Instance CMsg_eq_dec : EqDecision CMsg.
Proof. solve_decision. Defined.

Inductive CEvent :=
| MemberJoinEvent (m : Member)
| MemberLeaveEvent (m : Member)
| ActivationEvent (pid : option PID)
| DeactivationEvent (pid : option PID).

#[global] Instance CEvent_eq_dec : EqDecision CEvent.
Proof. solve_decision. Defined.

(** What the agent does to the outside, in order. *)
Inductive Effect :=
| Sent (to : PID) (msg : CMsg)
| Event (ev : CEvent)
| Spawned (k : kind) (pid : PID)
| Requested (to : PID) (msg : CMsg)
| Responded (msg : CMsg).

#[global] Instance kind_eq_dec : EqDecision kind.
Proof. solve_decision. Defined.

#[global] Instance Effect_eq_dec : EqDecision Effect.
Proof. solve_decision. Defined.

(** The outcome of [Request(...).Result()]. *)
Inductive RequestResult :=
| Failed
| Reply (resp : CMsg).

#[global] Instance RequestResult_eq_dec : EqDecision RequestResult.
Proof. solve_decision. Defined.

(** [ActivationDetails] and [ActivationConfig]; a nil [selectMember] is
    [None], and a selector may return nil. *)
Record ActivationDetails := mkDetails {
  d_Region : string;
  d_Members : list Member;
  d_Kind : string
}.

Definition SelectMemberFunc := ActivationDetails → option Member.

Record ActivationConfig := mkConfig {
  cfg_id : string;
  cfg_region : string;
  cfg_selectMember : option SelectMemberFunc
}.

(** [Agent]; [kinds] is a [map[string]bool] whose values are all [true]. *)
Record Agent := mkAgent {
  members : gmap string Member;
  kinds : gset string;
  localKinds : gmap string kind;
  activated : gmap string PID
}.

(** [NewAgent]: the agent its producer returns, for the registered kinds. *)
Definition NewAgent (c_kinds : list kind) : Agent :=
  mkAgent ∅
    (foldl (λ ks k, {[name k]} ∪ ks) ∅ c_kinds)
    (foldl (λ lk k, <[name k := k]> lk) ∅ c_kinds)
    ∅.

(** [strings.Split(id, "/")[0]]: the part of [id] before its first slash. *)
Fixpoint first_part (id : string) : string :=
  match id with
  | EmptyString => EmptyString
  | String c rest =>
      if Ascii.eqb c "/"%char then EmptyString else String c (first_part rest)
  end.

Section Agent.
(** The order in which [range] visits a map is not fixed by Go: any
    enumeration of the entries may occur. *)
Variable range_members : gmap string Member → list Member.
Variable range_activated : gmap string PID → list (string * PID).
Hypothesis range_members_perm :
  ∀ s, range_members s ≡ₚ (map_to_list s).*2.
Hypothesis range_activated_perm :
  ∀ s, range_activated s ≡ₚ map_to_list s.

(** The node: the address of its engine, the id [Spawn] would draw at random
    and the index [rand.Intn] would draw. *)
Variable self : string.
Variable rand_id : string.
Variable rand_index : nat.

(** *** member_set.go *)

Definition NewMemberSet (ms : list Member) : gmap string Member :=
  foldl (λ s m, <[MemberID m := m]> s) ∅ ms.

Definition Slice (s : gmap string Member) : list Member := range_members s.

Definition Except (s : gmap string Member) (ms : list Member) : list Member :=
  let m := NewMemberSet ms in
  filter (λ member, m !! MemberID member = None) (range_members s).

Definition FilterByKind (s : gmap string Member) (k : string) : list Member :=
  filter (λ member, HasKind member k = true) (range_members s).

(** *** agent.go *)

(** The PID [Engine.Spawn] returns for [kind] and [WithID(id)]. *)
Definition Spawn_PID (k id : string) : PID :=
  NewPID self (k ++ pidSeparator ++
               (if decide (String.length id = 0%nat) then rand_id else id)).

Definition hasKindLocal (a : Agent) (k : string) : bool :=
  bool_decide (is_Some (localKinds a !! k)).

(** [Agent.handleActivationRequest]. *)
Definition handleActivationRequest (a : Agent) (Kind ID : string)
    : CMsg * list Effect :=
  match localKinds a !! Kind with
  | None => (ActivationResponse None false, [])
  | Some k =>
      let pid := Spawn_PID Kind ID in
      (ActivationResponse (Some pid) true, [Spawned k pid])
  end.

(** [Agent.bcast]. *)
Definition bcast (a : Agent) (msg : CMsg) : list Effect :=
  (λ m, Sent (Member_PID m) msg) <$> range_members (members a).

(** [SelectRandomMember]; indexing an empty slice panics, but [activate]
    calls it with a non-empty one. *)
Definition SelectRandomMember : SelectMemberFunc :=
  λ details, d_Members details !! (rand_index `mod` length (d_Members details))%nat.

(** [Agent.activate]; [remote] is the outcome of the request to a remote
    activator, should one be made. *)
Definition activate (a : Agent) (k : string) (config : ActivationConfig)
    (remote : RequestResult) : option PID * list Effect :=
  let id := k ++ "/" ++ cfg_id config in
  match activated a !! id with
  | Some _ => (None, [])
  | None =>
      let ms := FilterByKind (members a) k in
      if decide (length ms = 0%nat) then (None, [])
      else
        let select := default SelectRandomMember (cfg_selectMember config) in
        match select (mkDetails (cfg_region config) ms k) with
        | None => (None, [])
        | Some memberPID =>
            let activatorPID := NewPID (Host memberPID) ("cluster/" ++ MemberID memberPID) in
            let '(resp, effs) :=
              if decide (Host memberPID = self) then
                let '(r, e) := handleActivationRequest a k (cfg_id config) in
                (Some r, e)
              else
                (match remote with
                 | Reply (ActivationResponse pid true) =>
                     Some (ActivationResponse pid true)
                 | _ => None
                 end,
                 [Requested activatorPID (ActivationRequest k (cfg_id config))]) in
            match resp with
            | Some (ActivationResponse pid _) =>
                (pid, (effs ++ bcast a (Activation pid))%list)
            | _ => (None, effs)
            end
        end
  end.

(** [Agent.addActivated] and [Agent.removeActivated]. *)
Definition addActivated (a : Agent) (pid : PID) : Agent :=
  match activated a !! ID pid with
  | Some _ => a
  | None => mkAgent (members a) (kinds a) (localKinds a) (<[ID pid := pid]> (activated a))
  end.

Definition removeActivated (a : Agent) (pid : PID) : Agent :=
  mkAgent (members a) (kinds a) (localKinds a) (delete (ID pid) (activated a)).

(** [Agent.handleActivation] and [Agent.handleActorTopology]; a nil PID in
    the message is a nil dereference in [addActivated]. *)
Definition handleActivation (a : Agent) (pid : option PID)
    : option (Agent * list Effect) :=
  pid' ← pid;
  Some (addActivated a pid', [Event (ActivationEvent pid)]).

Definition handleActorTopology (a : Agent) (actors : list PID) : Agent :=
  foldl addActivated a actors.

(** [Agent.rebuildKinds]. *)
Definition rebuildKinds (a : Agent) : Agent :=
  let ks := foldl (λ ks m, foldl (λ ks k, {[k]} ∪ ks) ks (Kinds m)) ∅
              (range_members (members a)) in
  mkAgent (members a) ks (localKinds a) (activated a).

(** [Agent.memberJoin]. *)
Definition memberJoin (a : Agent) (member : Member) : Agent * list Effect :=
  let a := mkAgent (<[MemberID member := member]> (members a))
                   (foldl (λ ks k, {[k]} ∪ ks) (kinds a) (Kinds member))
                   (localKinds a) (activated a) in
  let actorInfos := (range_activated (activated a)).*2 in
  (a,
   ((if decide (0 < length actorInfos)%nat
     then [Sent (Member_PID member) (ActorTopology actorInfos)] else [])
    ++ [Event (MemberJoinEvent member)])%list).

(** The loop of [memberLeave] over the activated map: an entry deleted
    before the loop reaches it is not visited. *)
Definition drop_hosted (host : string) (a : Agent) : Agent :=
  foldl (λ a '(id, _),
           match activated a !! id with
           | Some pid =>
               if decide (Address pid = host) then removeActivated a pid else a
           | None => a
           end) a (range_activated (activated a)).

(** [Agent.memberLeave]. *)
Definition memberLeave (a : Agent) (member : Member) : Agent * list Effect :=
  let a := mkAgent (delete (MemberID member) (members a)) (kinds a)
                   (localKinds a) (activated a) in
  let a := rebuildKinds a in
  let a := drop_hosted (Host member) a in
  (a, [Event (MemberLeaveEvent member)]).

Definition run_all (f : Agent → Member → Agent * list Effect) (a : Agent)
    (ms : list Member) : Agent * list Effect :=
  foldl (λ '(a, effs) m, let '(a', e) := f a m in (a', (effs ++ e)%list)) (a, []) ms.

(** [Agent.handleMembers]. *)
Definition handleMembers (a : Agent) (ms : list Member) : Agent * list Effect :=
  let joined := Except (NewMemberSet ms) (Slice (members a)) in
  let left := Except (members a) ms in
  let '(a, e1) := run_all memberJoin a joined in
  let '(a, e2) := run_all memberLeave a left in
  (a, (e1 ++ e2)%list).

(** [Agent.handleGetActive]: the responses it sends, in order. *)
Definition handleGetActive (a : Agent) (id k : string) : list CMsg :=
  ((if decide (0 < String.length id)%nat then [RespPID (activated a !! id)] else [])
   ++
   (if decide (0 < String.length k)%nat then
      [RespPIDs ((λ '(id, pid), Some pid) <$>
                 filter (λ '(id, _), k = first_part id)
                        (range_activated (activated a)))]
    else []))%list.

(** *** The facade (cluster.go) *)

(** [engine.Request(agentPID, msg, timeout).Result()]: the first response of
    the agent if the exchange completes in time, an error otherwise. *)
Definition Result (in_time : bool) (responses : list CMsg) : RequestResult :=
  match in_time, responses with
  | true, r :: _ => Reply r
  | _, _ => Failed
  end.

(** [Cluster.Activate]: the agent answers [activate] with [c.Respond(pid)]. *)
Definition Activate (a : Agent) (in_time : bool) (k : string)
    (config : ActivationConfig) (remote : RequestResult) : option PID :=
  match Result in_time [RespPID (activate a k config remote).1] with
  | Reply (RespPID pid) => pid
  | _ => None
  end.

(** [Cluster.GetActiveByKind]. *)
Definition GetActiveByKind (a : Agent) (in_time : bool) (k : string)
    : list (option PID) :=
  match Result in_time (handleGetActive a "" k) with
  | Reply (RespPIDs res) =>
      if decide (length res = 0%nat) then [None] else res
  | _ => [None]
  end.

(** *** Invariant and specification vocabulary *)

(** Both maps hold each value under its own id ([Add], [addActivated]). *)
Definition keyed (a : Agent) : Prop :=
  (∀ k m, members a !! k = Some m → MemberID m = k) ∧
  (∀ k pid, activated a !! k = Some pid → ID pid = k).

(** How often [m] is announced as having left. *)
Definition leave_events (m : Member) (effs : list Effect) : nat :=
  length (filter (λ e, e = Event (MemberLeaveEvent m)) effs).

(** The kinds advertised by the members of a set. *)
Definition advertised (s : gmap string Member) (k : string) : Prop :=
  ∃ key m, s !! key = Some m ∧ k ∈ Kinds m.

(** *** Properties of the agent *)

Local Open Scope list_scope.

Lemma string_length_0 (s : string) : String.length s = 0%nat ↔ s = "".
Proof. destruct s; simpl; split; (done || lia || discriminate). Qed.

(** C6. [GetActiveByKind] returns at least one element.  When the request
    to the agent fails or times out (which includes the empty kind, that the
    agent does not answer), or no activated id has [k] before its first
    slash, the result is the single nil PID; otherwise it is, in some order,
    the PIDs of all the activated ids whose part before the first slash is
    [k]. *)
Theorem GetActiveByKind_spec a in_time k :
  let res := GetActiveByKind a in_time k in
  let request := Result in_time (handleGetActive a "" k) in
  let matching := filter (λ '(id, _), k = first_part id) (map_to_list (activated a)) in
  (1 ≤ length res)%nat ∧
  (request = Failed ∨ matching = [] → res = [None]) ∧
  (request ≠ Failed → matching ≠ [] →
     ∃ pids, res = Some <$> pids ∧ pids ≡ₚ matching.*2) ∧
  (∀ id pid, (id, pid) ∈ matching ↔ activated a !! id = Some pid ∧ first_part id = k) ∧
  (request = Failed ↔ in_time = false ∨ k = "").
Proof.
  intros res request matching.
  set (found := filter (λ '(id, _), k = first_part id) (range_activated (activated a))).
  assert (found ≡ₚ matching) as Hperm.
  { unfold found, matching. by rewrite range_activated_perm. }
  assert (request = Failed ↔ in_time = false ∨ k = "") as Hreq.
  { unfold request, handleGetActive, Result. simpl.
    destruct in_time; [|naive_solver].
    destruct (decide (0 < String.length k)%nat) as [Hk|Hk]; simpl.
    - split; [done|]. intros [?| ->]; [done|]. simpl in Hk. lia.
    - split; [|done]. intros _. right. apply string_length_0. lia. }
  assert (request ≠ Failed →
          request = Reply (RespPIDs ((λ '(id, pid), Some pid) <$> found))) as Hrep.
  { intros Hne. unfold request, handleGetActive, Result in *. simpl in *.
    destruct in_time; [|done].
    destruct (decide (0 < String.length k)%nat); [done|]. by simpl in Hne. }
  assert (∀ l : list (string * PID),
            (λ '(id, pid), Some pid) <$> l = Some <$> l.*2) as Hfmap.
  { intros l. rewrite <- list_fmap_compose. apply list_fmap_ext. by intros ? [??]. }
  assert (res = [None] ∨ (request ≠ Failed ∧ found ≠ [] ∧ res = Some <$> found.*2))
    as Hres.
  { unfold res, GetActiveByKind. fold request.
    destruct (decide (request = Failed)) as [->|Hne]; [by left|].
    rewrite (Hrep Hne). rewrite length_fmap.
    destruct found as [|x found'] eqn:E; [by left|].
    right. rewrite decide_False by (simpl; lia). by rewrite Hfmap. }
  split_and!.
  - destruct Hres as [->|(_ & Hf & ->)]; [simpl; lia|].
    rewrite !length_fmap. destruct found; [done|simpl; lia].
  - intros Hcond. destruct Hres as [->|(Hne & Hfound & _)]; [done|].
    destruct Hcond as [?|Hm]; [done|].
    rewrite Hm in Hperm. by apply Permutation_nil_r in Hperm.
  - intros Hne Hm. destruct Hres as [Hnil|(_ & _ & ->)].
    + exfalso. unfold res, GetActiveByKind in Hnil. fold request in Hnil.
      rewrite (Hrep Hne), length_fmap in Hnil.
      destruct found as [|[id pid] found'] eqn:E.
      * apply Hm. symmetry in Hperm. by apply Permutation_nil_r in Hperm.
      * rewrite decide_False in Hnil by (simpl; lia). done.
    + exists found.*2. split; [done|]. by rewrite Hperm.
  - intros id pid. unfold matching. rewrite list_elem_of_filter.
    rewrite elem_of_map_to_list. split; intros [H1 H2]; split; congruence.
  - done.
Qed.

Lemma elem_of_range_members s m :
  m ∈ range_members s ↔ ∃ key, s !! key = Some m.
Proof.
  rewrite range_members_perm, list_elem_of_fmap. split.
  - intros ([key m'] & -> & Hin). exists key. by apply elem_of_map_to_list.
  - intros [key Hkey]. exists (key, m). split; [done|]. by apply elem_of_map_to_list.
Qed.

Lemma FilterByKind_nil s k : FilterByKind s k = [] ↔ ¬ advertised s k.
Proof.
  unfold FilterByKind, advertised, HasKind. split.
  - intros Hnil (key & m & Hm & Hk).
    eapply (filter_nil_not_elem_of _ _ m Hnil).
    + by apply bool_decide_eq_true.
    + apply elem_of_range_members. eauto.
  - intros Hno. destruct (filter _ _) as [|m l] eqn:E; [done|].
    exfalso. apply Hno.
    assert (m ∈ filter (λ member, bool_decide (k ∈ Kinds member) = true)
                  (range_members s)) as Hin by (rewrite E; left).
    apply list_elem_of_filter in Hin as [Hk Hin].
    apply elem_of_range_members in Hin as [key Hkey].
    exists key, m. split; [done|]. by apply bool_decide_eq_true in Hk.
Qed.

(** *** Member departure *)

Lemma foldl_union_kinds (l : list string) : ∀ (ks : gset string) k,
  k ∈ foldl (λ ks k, {[k]} ∪ ks) ks l ↔ k ∈ ks ∨ k ∈ l.
Proof.
  induction l as [|x l IH]; intros ks k; simpl.
  - rewrite elem_of_nil. tauto.
  - rewrite IH, elem_of_cons, elem_of_union, elem_of_singleton. tauto.
Qed.

Lemma foldl_members_kinds (ms : list Member) : ∀ (ks : gset string) k,
  k ∈ foldl (λ ks m, foldl (λ ks k, {[k]} ∪ ks) ks (Kinds m)) ks ms
  ↔ k ∈ ks ∨ ∃ m, m ∈ ms ∧ k ∈ Kinds m.
Proof.
  induction ms as [|m ms IH]; intros ks k; simpl.
  - split; [by left|]. intros [?|(m & Hm & _)]; [done|]. by apply elem_of_nil in Hm.
  - rewrite IH, foldl_union_kinds. split.
    + intros [[?|?]|(m' & Hm' & Hk)]; [by left| |].
      * right. exists m. split; [left|done].
      * right. exists m'. split; [by right|done].
    + intros [?|(m' & Hm' & Hk)]; [by left; left|].
      apply elem_of_cons in Hm' as [->|Hm']; [by left; right|].
      right. by exists m'.
Qed.

Lemma rebuildKinds_spec a k :
  k ∈ kinds (rebuildKinds a) ↔ advertised (members a) k.
Proof.
  unfold rebuildKinds, advertised. simpl. rewrite foldl_members_kinds. split.
  - intros [Hk|(m & Hm & Hk)]; [by apply elem_of_empty in Hk|].
    apply elem_of_range_members in Hm as [key Hkey]. by exists key, m.
  - intros (key & m & Hm & Hk). right. exists m. split; [|done].
    apply elem_of_range_members. by exists key.
Qed.

(** The loop of [memberLeave], on any list of entries. *)
Lemma drop_fold_spec host (l : list (string * PID)) : ∀ a,
  (∀ key pid, activated a !! key = Some pid → ID pid = key) →
  let a' := foldl (λ a '(id, _),
                     match activated a !! id with
                     | Some pid =>
                         if decide (Address pid = host) then removeActivated a pid else a
                     | None => a
                     end) a l in
  members a' = members a ∧ kinds a' = kinds a ∧ localKinds a' = localKinds a ∧
  ∀ j, activated a' !! j =
       match activated a !! j with
       | Some pid => if decide (Address pid = host ∧ j ∈ l.*1) then None else Some pid
       | None => None
       end.
Proof.
  induction l as [|[id x] l IH]; intros a Hkey; simpl.
  - split_and!; try done. intros j. destruct (activated a !! j); [|done].
    rewrite decide_False; [done|]. intros [_ H]. by apply elem_of_nil in H.
  - destruct (activated a !! id) as [pid|] eqn:Hid.
    + destruct (decide (Address pid = host)) as [Hhost|Hhost].
      * specialize (IH (removeActivated a pid)). simpl in IH.
        destruct IH as (Hm & Hk & Hl & Hact).
        { intros key pid' Hlk. apply lookup_delete_Some in Hlk as [_ Hlk]. eauto. }
        split_and!; try done. intros j. rewrite Hact.
        rewrite (Hkey id pid Hid).
        destruct (decide (j = id)) as [->|Hne].
        -- rewrite lookup_delete_eq, Hid.
           rewrite decide_True; [done|]. split; [done|]. left.
        -- rewrite lookup_delete_ne by done.
           destruct (activated a !! j) as [pj|]; [|done].
           destruct (decide (Address pj = host ∧ j ∈ l.*1)) as [[? ?]|Hn].
           ++ rewrite decide_True; [done|]. split; [done|]. by right.
           ++ rewrite decide_False; [done|]. intros [? Hin].
              apply elem_of_cons in Hin as [?|?]; [done|]. by apply Hn.
      * destruct (IH a Hkey) as (Hm & Hk & Hl & Hact).
        split_and!; try done. intros j. rewrite Hact.
        destruct (activated a !! j) as [pj|] eqn:Hj; [|done].
        destruct (decide (Address pj = host ∧ j ∈ l.*1)) as [[? ?]|Hn].
        -- rewrite decide_True; [done|]. split; [done|]. by right.
        -- rewrite decide_False; [done|]. intros [? Hin].
           apply elem_of_cons in Hin as [->|?]; [|by apply Hn].
           rewrite Hid in Hj. by injection Hj as ->.
    + destruct (IH a Hkey) as (Hm & Hk & Hl & Hact).
      split_and!; try done. intros j. rewrite Hact.
      destruct (activated a !! j) as [pj|] eqn:Hj; [|done].
      destruct (decide (Address pj = host ∧ j ∈ l.*1)) as [[? ?]|Hn].
      * rewrite decide_True; [done|]. split; [done|]. by right.
      * rewrite decide_False; [done|]. intros [? Hin].
        apply elem_of_cons in Hin as [->|?]; [|by apply Hn].
        by rewrite Hid in Hj.
Qed.

Lemma drop_hosted_spec host a :
  (∀ key pid, activated a !! key = Some pid → ID pid = key) →
  members (drop_hosted host a) = members a ∧
  kinds (drop_hosted host a) = kinds a ∧
  localKinds (drop_hosted host a) = localKinds a ∧
  ∀ j, activated (drop_hosted host a) !! j =
       match activated a !! j with
       | Some pid => if decide (Address pid = host) then None else Some pid
       | None => None
       end.
Proof.
  intros Hkey.
  destruct (drop_fold_spec host (range_activated (activated a)) a Hkey)
    as (Hm & Hk & Hl & Hact).
  split_and!; try done. intros j. unfold drop_hosted. rewrite Hact.
  destruct (activated a !! j) as [pj|] eqn:Hj; [|done].
  assert (j ∈ (range_activated (activated a)).*1) as Hin.
  { rewrite range_activated_perm. apply list_elem_of_fmap.
    exists (j, pj). split; [done|]. by apply elem_of_map_to_list. }
  destruct (decide (Address pj = host)).
  - by rewrite decide_True.
  - rewrite decide_False; [done|]. by intros [? _].
Qed.

Lemma memberLeave_spec a m :
  (∀ key pid, activated a !! key = Some pid → ID pid = key) →
  (memberLeave a m).2 = [Event (MemberLeaveEvent m)] ∧
  members (memberLeave a m).1 = delete (MemberID m) (members a) ∧
  (∀ k, k ∈ kinds (memberLeave a m).1 ↔ advertised (members (memberLeave a m).1) k) ∧
  (∀ j, activated (memberLeave a m).1 !! j =
        match activated a !! j with
        | Some pid => if decide (Address pid = Host m) then None else Some pid
        | None => None
        end).
Proof.
  intros Hkey. unfold memberLeave. simpl.
  set (a0 := mkAgent (delete (MemberID m) (members a)) (kinds a) (localKinds a)
               (activated a)).
  destruct (drop_hosted_spec (Host m) (rebuildKinds a0)) as (Hm & Hk & _ & Hact);
    [done|].
  split_and!; try done.
  intros k. rewrite Hk, Hm.
  change (members (rebuildKinds a0)) with (members a0).
  apply rebuildKinds_spec.
Qed.

Lemma run_all_acc (f : Agent → Member → Agent * list Effect) ms : ∀ a acc,
  foldl (λ '(a, effs) m, let '(a', e) := f a m in (a', effs ++ e)) (a, acc) ms
  = ((run_all f a ms).1, acc ++ (run_all f a ms).2).
Proof.
  unfold run_all. induction ms as [|m ms IH]; intros a acc; simpl.
  - by rewrite app_nil_r.
  - destruct (f a m) as [a1 e1]. rewrite (IH a1 (acc ++ e1)), (IH a1 e1). simpl.
    by rewrite app_assoc.
Qed.

Lemma run_all_cons (f : Agent → Member → Agent * list Effect) a m ms :
  run_all f a (m :: ms)
  = ((run_all f (f a m).1 ms).1, (f a m).2 ++ (run_all f (f a m).1 ms).2).
Proof.
  unfold run_all at 1. simpl. destruct (f a m) as [a1 e1]. simpl.
  apply run_all_acc.
Qed.

Lemma run_leaves_spec left : ∀ a,
  (∀ key pid, activated a !! key = Some pid → ID pid = key) →
  (run_all memberLeave a left).2 = (λ m, Event (MemberLeaveEvent m)) <$> left ∧
  (∀ key, members (run_all memberLeave a left).1 !! key =
          if decide (key ∈ MemberID <$> left) then None else members a !! key) ∧
  (left ≠ [] → ∀ k, k ∈ kinds (run_all memberLeave a left).1
                    ↔ advertised (members (run_all memberLeave a left).1) k) ∧
  (∀ j pid, activated (run_all memberLeave a left).1 !! j = Some pid →
            activated a !! j = Some pid ∧ ∀ m, m ∈ left → Address pid ≠ Host m).
Proof.
  induction left as [|m ms IH]; intros a Hkey.
  - unfold run_all. simpl. split_and!; try done.
    intros j pid Hj. split; [done|]. intros m Hm. by apply elem_of_nil in Hm.
  - rewrite run_all_cons.
    destruct (memberLeave_spec a m Hkey) as (He & Hm & Hk & Hact).
    set (a1 := (memberLeave a m).1) in *.
    assert (∀ j pid, activated a1 !! j = Some pid →
              activated a !! j = Some pid ∧ Address pid ≠ Host m) as Hsub.
    { intros j pid Hj. rewrite Hact in Hj.
      destruct (activated a !! j) as [pj|]; [|done].
      destruct (decide (Address pj = Host m)); [done|]. by injection Hj as ->. }
    destruct (IH a1) as (He' & Hm' & Hk' & Hact').
    { intros key pid Hj. apply Hsub in Hj as [Hj _]. eauto. }
    cbn [fst snd]. fold a1. split_and!.
    + by rewrite He, He'.
    + intros key. rewrite Hm', Hm, fmap_cons.
      destruct (decide (key ∈ MemberID <$> ms)) as [Hin|Hnin].
      * rewrite decide_True; [done|]. by right.
      * destruct (decide (key = MemberID m)) as [->|Hne].
        -- rewrite lookup_delete_eq. rewrite decide_True; [done|]. left.
        -- rewrite lookup_delete_ne by done. rewrite decide_False; [done|].
           intros Hin. apply elem_of_cons in Hin as [?|?]; done.
    + intros _ k. destruct ms as [|m' ms']; [done|]. by apply Hk'.
    + intros j pid Hj. apply Hact' in Hj as [Hj Hms].
      apply Hsub in Hj as [Hj Hm0]. split; [done|].
      intros m' Hin. apply elem_of_cons in Hin as [->|Hin]; [done|]. by apply Hms.
Qed.

Lemma memberJoin_spec a m m' :
  activated (memberJoin a m).1 = activated a ∧
  leave_events m' (memberJoin a m).2 = 0%nat.
Proof.
  unfold memberJoin, leave_events. cbn [fst snd]. split; [done|].
  rewrite filter_app, length_app.
  destruct (decide _); by rewrite !filter_cons_False.
Qed.

Lemma leave_events_app m e1 e2 :
  leave_events m (e1 ++ e2) = (leave_events m e1 + leave_events m e2)%nat.
Proof. unfold leave_events. by rewrite filter_app, length_app. Qed.

Lemma run_joins_spec joined : ∀ a m,
  activated (run_all memberJoin a joined).1 = activated a ∧
  leave_events m (run_all memberJoin a joined).2 = 0%nat.
Proof.
  induction joined as [|x joined IH]; intros a m.
  - done.
  - rewrite run_all_cons. cbn [fst snd].
    destruct (memberJoin_spec a x m) as [Ha He].
    destruct (IH (memberJoin a x).1 m) as [Ha' He'].
    split; [by rewrite Ha', Ha|]. rewrite leave_events_app. lia.
Qed.

Lemma foldl_insert_members_None (ms : list Member) : ∀ (s : gmap string Member) key,
  foldl (λ s m, <[MemberID m := m]> s) s ms !! key = None
  ↔ s !! key = None ∧ key ∉ MemberID <$> ms.
Proof.
  induction ms as [|m ms IH]; intros s key; simpl.
  - split; [intros H; split; [done|apply not_elem_of_nil]|by intros [? _]].
  - rewrite IH, lookup_insert_None, not_elem_of_cons.
    split; intros H; destruct_and!; split_and!; try done; by intros ->.
Qed.

Lemma NewMemberSet_None ms key :
  NewMemberSet ms !! key = None ↔ key ∉ MemberID <$> ms.
Proof.
  unfold NewMemberSet. rewrite foldl_insert_members_None, lookup_empty. tauto.
Qed.

Lemma NoDup_range_members (s : gmap string Member) :
  (∀ k m, s !! k = Some m → MemberID m = k) → NoDup (range_members s).
Proof.
  intros Hkey. rewrite range_members_perm.
  apply NoDup_fmap_2_strong; [|apply NoDup_map_to_list].
  intros [k1 v1] [k2 v2] H1 H2 Heq. simpl in Heq. subst v2.
  apply elem_of_map_to_list in H1, H2.
  by rewrite <- (Hkey _ _ H1), <- (Hkey _ _ H2).
Qed.

Lemma count_NoDup (l : list Member) m :
  NoDup l → m ∈ l → length (filter (λ x, x = m) l) = 1%nat.
Proof.
  induction 1 as [|x l Hx Hnd IH]; intros Hin; [by apply elem_of_nil in Hin|].
  apply elem_of_cons in Hin as [->|Hin].
  - rewrite filter_cons_True by done. simpl. f_equal.
    destruct (filter _ l) as [|y l'] eqn:E; [done|].
    assert (y ∈ filter (λ x0, x0 = x) l) as Hy by (rewrite E; left).
    apply list_elem_of_filter in Hy as [-> Hy]. done.
  - rewrite filter_cons_False; [by apply IH|]. intros ->. done.
Qed.

Lemma leave_events_fmap m (l : list Member) :
  leave_events m ((λ m, Event (MemberLeaveEvent m)) <$> l)
  = length (filter (λ x, x = m) l).
Proof.
  unfold leave_events. induction l as [|x l IH]; [done|].
  rewrite fmap_cons. destruct (decide (x = m)) as [->|Hne].
  - rewrite !filter_cons_True by done. simpl. by rewrite IH.
  - rewrite !filter_cons_False; [done|done|]. intros [=]. done.
Qed.

(** C7. When the agent processes [Members{new}], for every known member
    [m] that [new] does not list (the agent's maps holding each value under
    its own id): [m] is among the members the code treats as left; afterwards
    [m] is no longer in the member set, the kind set is exactly the union of
    the kinds advertised by the members that remain, no activated PID has
    the address [m.Host], and exactly one [MemberLeaveEvent{m}] was
    broadcast. *)
Theorem handleMembers_leave a new m :
  keyed a →
  members a !! MemberID m = Some m → MemberID m ∉ MemberID <$> new →
  m ∈ Except (members a) new ∧
  members (handleMembers a new).1 !! MemberID m = None ∧
  (∀ k, k ∈ kinds (handleMembers a new).1
        ↔ advertised (members (handleMembers a new).1) k) ∧
  (∀ id pid, activated (handleMembers a new).1 !! id = Some pid →
             Address pid ≠ Host m) ∧
  leave_events m (handleMembers a new).2 = 1%nat.
Proof.
  intros [Hkm Hka] Hm Hnew.
  assert (m ∈ Except (members a) new) as Hleft.
  { unfold Except. apply list_elem_of_filter. split.
    - by apply NewMemberSet_None.
    - apply elem_of_range_members. eauto. }
  assert (NoDup (Except (members a) new)) as Hnd.
  { unfold Except. apply NoDup_filter. by apply NoDup_range_members. }
  split; [done|].
  unfold handleMembers.
  set (joined := Except (NewMemberSet new) (Slice (members a))).
  set (left := Except (members a) new) in *.
  destruct (run_joins_spec joined a m) as [Hact1 Hev1].
  destruct (run_all memberJoin a joined) as [a1 e1]. simpl in Hact1, Hev1.
  destruct (run_leaves_spec left a1) as (Hev2 & Hmem2 & Hk2 & Hact2).
  { rewrite Hact1. done. }
  destruct (run_all memberLeave a1 left) as [a2 e2]. simpl in *.
  split_and!.
  - rewrite Hmem2. rewrite decide_True; [done|].
    apply list_elem_of_fmap. by exists m.
  - apply Hk2. intros E. rewrite E in Hleft. by apply elem_of_nil in Hleft.
  - intros id pid Hid. apply Hact2 in Hid as [_ Hall]. by apply Hall.
  - rewrite leave_events_app, Hev1, Hev2, leave_events_fmap. simpl.
    by apply count_NoDup.
Qed.

(** *** The invariant [keyed] *)

Lemma keyed_NewAgent c_kinds : keyed (NewAgent c_kinds).
Proof. split; intros k x H; simpl in H; by rewrite lookup_empty in H. Qed.

Lemma keyed_addActivated a pid : keyed a → keyed (addActivated a pid).
Proof.
  intros [Hm Ha]. unfold addActivated.
  destruct (activated a !! ID pid) eqn:E; [done|].
  split; [done|]. intros k p Hk. simpl in Hk.
  apply lookup_insert_Some in Hk as [[<- <-]|[_ Hk]]; [done|by apply Ha].
Qed.

Lemma keyed_handleActorTopology actors : ∀ a,
  keyed a → keyed (handleActorTopology a actors).
Proof.
  unfold handleActorTopology.
  induction actors as [|pid actors IH]; intros a Hk; [done|].
  simpl. apply IH. by apply keyed_addActivated.
Qed.

Lemma keyed_run_joins joined : ∀ a,
  keyed a → keyed (run_all memberJoin a joined).1.
Proof.
  induction joined as [|m joined IH]; intros a Hk; [done|].
  rewrite run_all_cons. cbn [fst snd]. apply IH.
  destruct Hk as [Hm Ha]. split; [|done].
  intros k x Hx. simpl in Hx.
  apply lookup_insert_Some in Hx as [[<- <-]|[_ Hx]]; [done|by apply Hm].
Qed.

Lemma keyed_handleMembers a new : keyed a → keyed (handleMembers a new).1.
Proof.
  intros Hk. unfold handleMembers.
  pose proof (keyed_run_joins (Except (NewMemberSet new) (Slice (members a))) a Hk)
    as [Hm1 Ha1].
  destruct (run_all memberJoin a _) as [a1 e1]. simpl in Hm1, Ha1.
  destruct (run_leaves_spec (Except (members a) new) a1 Ha1) as (_ & Hmem & _ & Hact).
  destruct (run_all memberLeave a1 _) as [a2 e2]. simpl in *.
  split.
  - intros k x Hx. rewrite Hmem in Hx. case_decide; [done|]. by apply Hm1.
  - intros k x Hx. apply Hact in Hx as [Hx _]. by apply Ha1.
Qed.

(** The default selector always finds a member in a non-empty slice. *)
Lemma SelectRandomMember_Some region ms k :
  ms ≠ [] → is_Some (SelectRandomMember (mkDetails region ms k)).
Proof.
  intros Hne. unfold SelectRandomMember. simpl.
  apply lookup_lt_is_Some. apply Nat.mod_upper_bound.
  destruct ms; [done|simpl; lia].
Qed.

(** C5 (amended). [Activate] returns nil when the request to the local
    agent fails, when the id is already activated, when no known member
    advertises the kind, when the selector returns no member, when the
    selected activator is remote and does not answer with a successful
    [ActivationResponse], and when it is local and lacks the kind.  In all
    other cases it returns the PID of the activator's response: the PID of
    the process spawned here for a local activator, the PID field of the
    successful response for a remote one. *)
Theorem Activate_cases a in_time k config remote :
  let id := (k ++ "/" ++ cfg_id config)%string in
  let ms := FilterByKind (members a) k in
  let selected := default SelectRandomMember (cfg_selectMember config)
                    (mkDetails (cfg_region config) ms k) in
  let res := Activate a in_time k config remote in
  (in_time = false → res = None) ∧
  (is_Some (activated a !! id) → res = None) ∧
  (¬ advertised (members a) k → res = None) ∧
  (selected = None → res = None) ∧
  (∀ m, selected = Some m → Host m ≠ self →
     (∀ pid, remote ≠ Reply (ActivationResponse pid true)) → res = None) ∧
  (∀ m, selected = Some m → Host m = self → localKinds a !! k = None → res = None) ∧
  (in_time = true → activated a !! id = None → advertised (members a) k →
   ∀ m, selected = Some m →
     (Host m = self → is_Some (localKinds a !! k) →
        res = Some (Spawn_PID k (cfg_id config))) ∧
     (Host m ≠ self → ∀ pid, remote = Reply (ActivationResponse pid true) →
        res = pid)) ∧
  (cfg_selectMember config = None → advertised (members a) k → is_Some selected).
Proof.
  intros id ms selected res.
  assert (in_time = true →
          res = (activate a k config remote).1) as Hres.
  { intros ->. unfold res, Activate, Result. done. }
  assert (in_time = false → res = None) as Hout.
  { intros ->. done. }
  assert (∀ P : Prop, (in_time = true → res = None) → res = None) as Hin.
  { intros _ H. destruct in_time; [by apply H|by apply Hout]. }
  split_and!.
  - done.
  - intros [pid Hpid]. apply (Hin True). intros Ht. rewrite (Hres Ht).
    unfold activate. fold id. by rewrite Hpid.
  - intros Hno. apply (Hin True). intros Ht. rewrite (Hres Ht).
    unfold activate. fold id. destruct (activated a !! id); [done|].
    fold ms. apply FilterByKind_nil in Hno. fold ms in Hno. rewrite Hno. done.
  - intros Hsel. apply (Hin True). intros Ht. rewrite (Hres Ht).
    unfold activate. fold id. destruct (activated a !! id); [done|].
    fold ms. destruct (decide (length ms = 0%nat)); [done|].
    fold selected. by rewrite Hsel.
  - intros m Hsel Hhost Hrem. apply (Hin True). intros Ht. rewrite (Hres Ht).
    unfold activate. fold id. destruct (activated a !! id); [done|].
    fold ms. destruct (decide (length ms = 0%nat)); [done|].
    fold selected. rewrite Hsel. rewrite decide_False by done.
    destruct remote as [|resp]; [done|].
    destruct resp as [| | | | |pid' succ| | | |]; try done.
    destruct succ; [|done]. exfalso. by apply (Hrem pid').
  - intros m Hsel Hhost Hloc. apply (Hin True). intros Ht. rewrite (Hres Ht).
    unfold activate. fold id. destruct (activated a !! id); [done|].
    fold ms. destruct (decide (length ms = 0%nat)); [done|].
    fold selected. rewrite Hsel. rewrite decide_True by done.
    unfold handleActivationRequest. by rewrite Hloc.
  - intros Ht Hid Hadv m Hsel. rewrite (Hres Ht).
    unfold activate. fold id. rewrite Hid. fold ms.
    assert (ms ≠ []) as Hms.
    { intros E. by apply FilterByKind_nil in E. }
    rewrite decide_False by (by destruct ms).
    fold selected. rewrite Hsel. split.
    + intros Hhost [kd Hkd]. rewrite decide_True by done.
      unfold handleActivationRequest. by rewrite Hkd.
    + intros Hhost pid ->. by rewrite decide_False by done.
  - intros Hcfg Hadv. unfold selected. rewrite Hcfg. simpl.
    apply SelectRandomMember_Some. intros E. by apply FilterByKind_nil in E.
Qed.

End Agent.


(** *** A three-node cluster seen from node Y (scenarios S5 and S6) *)

Definition range_values (s : gmap string Member) : list Member := (map_to_list s).*2.
Definition range_entries (s : gmap string PID) : list (string * PID) := map_to_list s.

Lemma range_values_perm s : range_values s ≡ₚ (map_to_list s).*2.
Proof. reflexivity. Defined.

Lemma range_entries_perm s : range_entries s ≡ₚ map_to_list s.
Proof. reflexivity. Defined.

Definition ex_X : Member := mkMember "X" "x:4000" "default" ["player"].
Definition ex_Y : Member := mkMember "Y" "y:4000" "default" [].
Definition ex_Z : Member := mkMember "Z" "z:4000" "default" ["player"].

Definition ex_members : gmap string Member :=
  <["X" := ex_X]> (<["Y" := ex_Y]> (<["Z" := ex_Z]> ∅)).

(** The agent of Y before any activation, and after [player/7] was
    activated on Z. *)
Definition ex_agent0 : Agent := mkAgent ex_members {["player"]} ∅ ∅.
Definition ex_agent : Agent :=
  mkAgent ex_members {["player"]} ∅ (<["player/7" := NewPID "z:4000" "player/7"]> ∅).

Lemma ex_agent_keyed : keyed ex_agent.
Proof.
  split.
  - intros k m Hk. unfold ex_agent, ex_members in Hk. simpl in Hk.
    repeat (rewrite lookup_insert in Hk; case_decide; [by simplify_eq|]).
    by rewrite lookup_empty in Hk.
  - intros k m Hk. unfold ex_agent in Hk. simpl in Hk.
    repeat (rewrite lookup_insert in Hk; case_decide; [by simplify_eq|]).
    by rewrite lookup_empty in Hk.
Defined.

(** A selector that declines every candidate. *)
Definition select_none : SelectMemberFunc := λ _, None.

(** C5 as stated fails: the id is not activated, X and Z advertise the kind
    and a remote activator would answer with success, yet [Activate] returns
    nil because the selector of the configuration returned no member. *)
Lemma Activate_selector_counterexample :
  let config := mkConfig "7" "default" (Some select_none) in
  let remote := Reply (ActivationResponse (Some (NewPID "x:4000" "player/7")) true) in
  activated ex_agent0 !! "player/7" = None ∧
  advertised (members ex_agent0) "player" ∧
  Activate range_values "y:4000" "1" 0 ex_agent0 true "player" config remote = None.
Proof.
  split_and!; [reflexivity| |reflexivity].
  exists "X", ex_X. split; [reflexivity|]. left.
Qed.

(** Scenario S5: activation of [player/7] from Y, which lacks the kind; the
    selected member Z is remote and answers with success. *)
Lemma Activate_cases_witness :
  Activate range_values "y:4000" "1" 0 ex_agent0 true "player"
    (mkConfig "7" "default" None)
    (Reply (ActivationResponse (Some (NewPID "z:4000" "player/7")) true))
  = Some (NewPID "z:4000" "player/7").
Proof.
  destruct (Activate_cases range_values range_values_perm "y:4000" "1" 0
              ex_agent0 true "player" (mkConfig "7" "default" None)
              (Reply (ActivationResponse (Some (NewPID "z:4000" "player/7")) true)))
    as (_ & _ & _ & _ & _ & _ & Hok & _).
  assert (advertised (members ex_agent0) "player") as Hadv.
  { exists "X", ex_X. split; [reflexivity|]. left. }
  destruct (Hok eq_refl eq_refl Hadv ex_Z) as [_ Hremote]; [reflexivity|].
  apply Hremote; [discriminate|reflexivity].
Defined.

Lemma GetActiveByKind_spec_witness :
  GetActiveByKind range_entries ex_agent true "player"
  = [Some (NewPID "z:4000" "player/7")] ∧
  GetActiveByKind range_entries ex_agent true "enemy" = [None].
Proof.
  split.
  - destruct (GetActiveByKind_spec range_entries range_entries_perm ex_agent true
                "player") as (_ & _ & Hres & _).
    destruct Hres as (pids & -> & Hperm);
      [vm_compute; discriminate|vm_compute; discriminate|].
    vm_compute in Hperm. apply Permutation_singleton_r in Hperm.
    by rewrite Hperm.
  - destruct (GetActiveByKind_spec range_entries range_entries_perm ex_agent true
                "enemy") as (_ & Hnil & _).
    apply Hnil. right. vm_compute. reflexivity.
Defined.

(** Scenario S6: Z is missing from the new member list. *)
Lemma handleMembers_leave_witness :
  let r := handleMembers range_values range_entries ex_agent [ex_X; ex_Y] in
  members r.1 !! "Z" = None ∧
  (∀ id pid, activated r.1 !! id = Some pid → Address pid ≠ "z:4000") ∧
  leave_events ex_Z r.2 = 1%nat.
Proof.
  destruct (handleMembers_leave range_values range_entries range_values_perm
              range_entries_perm ex_agent [ex_X; ex_Y] ex_Z ex_agent_keyed)
    as (_ & Hmem & _ & Hact & Hev).
  - vm_compute. reflexivity.
  - simpl. intros Hin. repeat (apply elem_of_cons in Hin as [Hin|Hin]; [done|]).
    by apply elem_of_nil in Hin.
  - split_and!; done.
Defined.


(** *** More of the agent: joining members, the activated map *)

Section AgentMembers.
Variable range_members : gmap string Member → list Member.
Variable range_activated : gmap string PID → list (string * PID).
Hypothesis range_members_perm :
  ∀ s, range_members s ≡ₚ (map_to_list s).*2.
Hypothesis range_activated_perm :
  ∀ s, range_activated s ≡ₚ map_to_list s.

Local Open Scope list_scope.

(** How often [m] is announced as having joined. *)
Definition join_events (m : Member) (effs : list Effect) : nat :=
  length (filter (λ e, e = Event (MemberJoinEvent m)) effs).

(** A member set that holds each member under its own id. *)
Definition set_keyed (s : gmap string Member) : Prop :=
  ∀ k m, s !! k = Some m → MemberID m = k.

Lemma foldl_insert_members_Some (ms : list Member) : ∀ (s : gmap string Member) key m,
  foldl (λ s m, <[MemberID m := m]> s) s ms !! key = Some m →
  s !! key = Some m ∨ (m ∈ ms ∧ MemberID m = key).
Proof.
  induction ms as [|x ms IH]; intros s key m H; [by left|].
  simpl in H. apply IH in H as [H|[H1 H2]].
  - apply lookup_insert_Some in H as [[<- <-]|[_ H]]; [|by left].
    right. split; [left|done].
  - right. split; [by right|done].
Qed.

Lemma foldl_insert_members_notin (ms : list Member) : ∀ (s : gmap string Member) key,
  key ∉ MemberID <$> ms →
  foldl (λ s m, <[MemberID m := m]> s) s ms !! key = s !! key.
Proof.
  induction ms as [|x ms IH]; intros s key H; [done|].
  rewrite fmap_cons, not_elem_of_cons in H. destruct H as [H1 H2].
  simpl. rewrite IH by done. by rewrite lookup_insert_ne.
Qed.

Lemma foldl_insert_members_in (ms : list Member) : ∀ (s : gmap string Member) m,
  NoDup (MemberID <$> ms) → m ∈ ms →
  foldl (λ s m, <[MemberID m := m]> s) s ms !! MemberID m = Some m.
Proof.
  induction ms as [|x ms IH]; intros s m Hnd Hin; [by apply elem_of_nil in Hin|].
  rewrite fmap_cons in Hnd. apply NoDup_cons in Hnd as [Hx Hnd].
  simpl. apply elem_of_cons in Hin as [->|Hin].
  - rewrite foldl_insert_members_notin by done. apply lookup_insert_eq.
  - by apply IH.
Qed.

Lemma NewMemberSet_keyed ms : set_keyed (NewMemberSet ms).
Proof.
  intros k m H. unfold NewMemberSet in H.
  apply foldl_insert_members_Some in H as [H|[_ H]]; [|done].
  by rewrite lookup_empty in H.
Qed.

Lemma NewMemberSet_Some ms key m :
  NewMemberSet ms !! key = Some m → m ∈ ms ∧ MemberID m = key.
Proof.
  intros H. unfold NewMemberSet in H.
  apply foldl_insert_members_Some in H as [H|H]; [|done].
  by rewrite lookup_empty in H.
Qed.

Lemma ids_range_members (s : gmap string Member) key :
  set_keyed s → key ∈ MemberID <$> range_members s ↔ is_Some (s !! key).
Proof.
  intros Hk. rewrite list_elem_of_fmap. split.
  - intros (m & -> & Hm).
    apply (elem_of_range_members range_members range_members_perm) in Hm as [k Hm].
    rewrite <- (Hk _ _ Hm) in Hm. eauto.
  - intros [m Hm]. exists m. split; [by rewrite (Hk _ _ Hm)|].
    apply (elem_of_range_members range_members range_members_perm). eauto.
Qed.

Lemma NoDup_ids_range_members (s : gmap string Member) :
  set_keyed s → NoDup (MemberID <$> range_members s).
Proof.
  intros Hk. apply NoDup_fmap_2_strong.
  - intros x y Hx Hy E.
    apply (elem_of_range_members range_members range_members_perm) in Hx as [kx Hx].
    apply (elem_of_range_members range_members range_members_perm) in Hy as [ky Hy].
    pose proof (Hk _ _ Hx). pose proof (Hk _ _ Hy). congruence.
  - by apply (NoDup_range_members range_members range_members_perm).
Qed.

(** The members that [handleMembers] takes as joined and as left. *)
Lemma joined_spec a ms m :
  keyed a →
  m ∈ Except range_members (NewMemberSet ms) (Slice range_members (members a))
  ↔ NewMemberSet ms !! MemberID m = Some m ∧ members a !! MemberID m = None.
Proof.
  intros [Hkm _]. unfold Except, Slice. rewrite list_elem_of_filter.
  rewrite NewMemberSet_None, (ids_range_members (members a)) by done.
  rewrite (elem_of_range_members range_members range_members_perm).
  rewrite <- eq_None_not_Some. split.
  - intros [Hn [k Hm]]. split; [|done].
    by rewrite (NewMemberSet_keyed ms _ _ Hm).
  - intros [Hm Hn]. split; [done|]. eauto.
Qed.

Lemma left_spec a ms m :
  keyed a →
  m ∈ Except range_members (members a) ms
  ↔ members a !! MemberID m = Some m ∧ MemberID m ∉ MemberID <$> ms.
Proof.
  intros [Hkm _]. unfold Except. rewrite list_elem_of_filter.
  rewrite NewMemberSet_None.
  rewrite (elem_of_range_members range_members range_members_perm). split.
  - intros [Hn [k Hm]]. split; [|done]. by rewrite (Hkm _ _ Hm).
  - intros [Hm Hn]. split; [done|]. eauto.
Qed.

Lemma NoDup_ids_filter (P : Member → Prop) `{∀ m, Decision (P m)} (s : gmap string Member) :
  set_keyed s → NoDup (MemberID <$> filter P (range_members s)).
Proof.
  intros Hk. apply NoDup_fmap_2_strong.
  - intros x y Hx Hy E.
    apply list_elem_of_filter in Hx as [_ Hx]. apply list_elem_of_filter in Hy as [_ Hy].
    apply (elem_of_range_members range_members range_members_perm) in Hx as [kx Hx].
    apply (elem_of_range_members range_members range_members_perm) in Hy as [ky Hy].
    pose proof (Hk _ _ Hx). pose proof (Hk _ _ Hy). congruence.
  - apply NoDup_filter. by apply (NoDup_range_members range_members range_members_perm).
Qed.

Lemma memberJoin_effects a a' m :
  activated a' = activated a →
  (memberJoin range_activated a' m).2 = (memberJoin range_activated a m).2.
Proof. intros E. unfold memberJoin. simpl. by rewrite E. Qed.

Lemma run_joins_full joined : ∀ a,
  members (run_all (memberJoin range_activated) a joined).1
  = foldl (λ s m, <[MemberID m := m]> s) (members a) joined ∧
  (∀ k, k ∈ kinds (run_all (memberJoin range_activated) a joined).1
        ↔ k ∈ kinds a ∨ ∃ m, m ∈ joined ∧ k ∈ Kinds m) ∧
  localKinds (run_all (memberJoin range_activated) a joined).1 = localKinds a ∧
  activated (run_all (memberJoin range_activated) a joined).1 = activated a ∧
  (run_all (memberJoin range_activated) a joined).2
  = joined ≫= (λ m, (memberJoin range_activated a m).2).
Proof.
  induction joined as [|m joined IH]; intros a.
  - simpl. split_and!; try done. intros k. split; [by left|].
    intros [?|(m & Hm & _)]; [done|]. by apply elem_of_nil in Hm.
  - rewrite run_all_cons. cbn [fst snd].
    destruct (IH (memberJoin range_activated a m).1) as (H1 & H2 & H3 & H4 & H5).
    split_and!.
    + rewrite H1. done.
    + intros k. rewrite H2. simpl. rewrite foldl_union_kinds.
      split.
      * intros [[?|?]|(m' & Hm' & Hk)]; [by left| |].
        -- right. exists m. split; [left|done].
        -- right. exists m'. split; [by right|done].
      * intros [?|(m' & Hm' & Hk)]; [by left; left|].
        apply elem_of_cons in Hm' as [->|Hm'].
        -- left. by right.
        -- right. by exists m'.
    + by rewrite H3.
    + by rewrite H4.
    + rewrite H5. simpl. by f_equal.
Qed.

Lemma join_events_app m e1 e2 :
  join_events m (e1 ++ e2) = (join_events m e1 + join_events m e2)%nat.
Proof. unfold join_events. by rewrite filter_app, length_app. Qed.

Lemma join_events_bind a m (l : list Member) :
  join_events m (l ≫= (λ x, (memberJoin range_activated a x).2))
  = length (filter (λ x, x = m) l).
Proof.
  induction l as [|x l IH]; [done|].
  rewrite bind_cons, join_events_app, IH, filter_cons.
  assert (join_events m (memberJoin range_activated a x).2
          = if decide (x = m) then 1%nat else 0%nat) as ->.
  { unfold memberJoin, join_events. simpl.
    rewrite filter_app, length_app.
    assert (∀ l0, filter (λ e, e = Event (MemberJoinEvent m))
                    (if decide (0 < length l0)%nat
                     then [Sent (Member_PID x) (ActorTopology l0)] else []) = []) as ->.
    { intros l0. destruct (decide (0 < length l0)%nat); [|done].
      rewrite filter_cons. by rewrite decide_False by discriminate. }
    rewrite filter_cons. destruct (decide (x = m)) as [->|Hne].
    - by rewrite decide_True.
    - rewrite decide_False; [done|]. congruence. }
  destruct (decide (x = m)); simpl; lia.
Qed.

Lemma join_events_leaves m (l : list Member) :
  join_events m ((λ m, Event (MemberLeaveEvent m)) <$> l) = 0%nat.
Proof.
  induction l as [|x l IH]; [done|].
  unfold join_events in *. rewrite fmap_cons, filter_cons.
  by rewrite decide_False by discriminate.
Qed.

(** What [handleMembers] computes, in terms of its parts. *)
Lemma handleMembers_parts a ms :
  keyed a →
  let joined := Except range_members (NewMemberSet ms) (Slice range_members (members a)) in
  let left := Except range_members (members a) ms in
  let a' := (handleMembers range_members range_activated a ms).1 in
  (∀ key, members a' !! key =
          if decide (key ∈ MemberID <$> left) then None
          else foldl (λ s m, <[MemberID m := m]> s) (members a) joined !! key) ∧
  (handleMembers range_members range_activated a ms).2
  = (joined ≫= (λ m, (memberJoin range_activated a m).2)) ++
    ((λ m, Event (MemberLeaveEvent m)) <$> left) ∧
  (left = [] → ∀ k, k ∈ kinds a' ↔ k ∈ kinds a ∨ ∃ m, m ∈ joined ∧ k ∈ Kinds m) ∧
  (left ≠ [] → ∀ k, k ∈ kinds a' ↔ advertised (members a') k).
Proof.
  intros [Hkm Hka] joined left a'. unfold a', handleMembers. fold joined. fold left.
  clearbody joined left. clear a'.
  destruct (run_joins_full joined a) as (J1 & J2 & J3 & J4 & J5).
  destruct (run_all (memberJoin range_activated) a joined) as [a1 e1].
  cbn [fst snd] in J1, J2, J3, J4, J5.
  destruct (run_leaves_spec range_members range_activated range_members_perm
              range_activated_perm left a1) as (L1 & L2 & L3 & L4).
  { rewrite J4. done. }
  destruct left as [|x left'].
  - change (run_all (memberLeave range_members range_activated) a1 [])
      with (a1, @nil Effect).
    cbn [fst snd]. split_and!; try done.
    + intros key. rewrite decide_False by apply not_elem_of_nil. by rewrite J1.
    + by rewrite J5.
  - set (left := x :: left') in *.
    destruct (run_all (memberLeave range_members range_activated) a1 left) as [a2 e2].
    cbn [fst snd] in *. split_and!.
    + intros key. rewrite L2. by rewrite J1.
    + by rewrite J5, L1.
    + done.
    + intros _. by apply L3.
Qed.

Lemma members_after_handleMembers a ms key :
  keyed a →
  members (handleMembers range_members range_activated a ms).1 !! key =
    if decide (key ∈ MemberID <$> ms) then
      match members a !! key with
      | Some old => Some old
      | None => NewMemberSet ms !! key
      end
    else None.
Proof.
  intros Hk. pose proof Hk as [Hkm Hka].
  destruct (handleMembers_parts a ms Hk) as (Hmem & _).
  rewrite Hmem. clear Hmem.
  set (joined := Except range_members (NewMemberSet ms) (Slice range_members (members a))).
  set (left := Except range_members (members a) ms).
  assert (key ∈ MemberID <$> left ↔ is_Some (members a !! key) ∧ key ∉ MemberID <$> ms)
    as Hleft.
  { rewrite list_elem_of_fmap. split.
    - intros (m & -> & Hm). apply left_spec in Hm as [H1 H2]; [|done]. eauto.
    - intros [[m Hm] Hn]. exists m. pose proof (Hkm _ _ Hm) as E. split; [done|].
      apply left_spec; [done|]. by rewrite E. }
  assert (key ∈ MemberID <$> joined
          ↔ is_Some (NewMemberSet ms !! key) ∧ members a !! key = None) as Hjoined.
  { rewrite list_elem_of_fmap. split.
    - intros (m & -> & Hm). apply joined_spec in Hm as [H1 H2]; [|done]. eauto.
    - intros [[m Hm] Hn]. exists m.
      pose proof (NewMemberSet_keyed ms _ _ Hm) as E. split; [done|].
      apply joined_spec; [done|]. by rewrite E. }
  assert (NoDup (MemberID <$> joined)) as Hnd.
  { unfold joined, Except. apply NoDup_ids_filter. apply NewMemberSet_keyed. }
  destruct (decide (key ∈ MemberID <$> ms)) as [Hin|Hin].
  - rewrite decide_False by (rewrite Hleft; tauto).
    destruct (members a !! key) as [old|] eqn:Hold.
    + rewrite foldl_insert_members_notin; [done|]. rewrite Hjoined. by intros [_ ?].
    + destruct (NewMemberSet ms !! key) as [m|] eqn:Hm.
      2:{ exfalso. by apply NewMemberSet_None in Hm. }
      pose proof (NewMemberSet_keyed ms _ _ Hm) as E. subst key.
      apply foldl_insert_members_in; [done|].
      apply joined_spec; [done|]. done.
  - destruct (members a !! key) as [old|] eqn:Hold.
    + rewrite decide_True; [done|]. rewrite Hleft. split; [eauto|done].
    + rewrite decide_False by (rewrite Hleft; intros [[? ?] _]; done).
      rewrite foldl_insert_members_notin; [done|].
      rewrite Hjoined. intros [Hs _].
      apply (proj2 (NewMemberSet_None ms key)) in Hin. rewrite Hin in Hs.
      by destruct Hs.
Qed.

(** X22. The member set of the agent after a [Members] message, for an
    agent that satisfies [keyed].  The ids it knows are exactly the ids of
    the message.  A member whose id was known before keeps its old record,
    whatever the message says about its host, region or kinds; a new id gets
    the record that comes last under that id in the message. *)
Theorem handleMembers_members a ms :
  keyed a →
  let a' := (handleMembers range_members range_activated a ms).1 in
  (∀ key, is_Some (members a' !! key) ↔ key ∈ MemberID <$> ms) ∧
  (∀ key old, members a !! key = Some old → key ∈ MemberID <$> ms →
     members a' !! key = Some old) ∧
  (∀ key, members a !! key = None → members a' !! key = NewMemberSet ms !! key) ∧
  (∀ m, m ∈ ms → NoDup (MemberID <$> ms) → members a !! MemberID m = None →
     members a' !! MemberID m = Some m).
Proof.
  intros Hk a'. unfold a'.
  assert (∀ key, members a !! key = None →
            members (handleMembers range_members range_activated a ms).1 !! key
            = NewMemberSet ms !! key) as Hnew.
  { intros key Hn. rewrite members_after_handleMembers, Hn by done.
    destruct (decide (key ∈ MemberID <$> ms)) as [|Hin]; [done|].
    symmetry. by apply NewMemberSet_None. }
  split_and!.
  - intros key. rewrite members_after_handleMembers by done.
    destruct (decide (key ∈ MemberID <$> ms)) as [Hin|Hin].
    + split; [done|]. intros _. destruct (members a !! key); [done|].
      apply not_eq_None_Some. rewrite NewMemberSet_None. intros H. exact (H Hin).
    + split; [by intros [? ?]|done].
  - intros key old Hold Hin. rewrite members_after_handleMembers by done.
    by rewrite decide_True, Hold.
  - exact Hnew.
  - intros m Hm Hnd Hn. rewrite Hnew by done.
    unfold NewMemberSet. by apply foldl_insert_members_in.
Qed.

(** X23. A member that joins: its id is in the [Members] message and was not
    known to the agent (which satisfies [keyed]).  Exactly one
    [MemberJoinEvent] is broadcast for it, its kinds are among the kinds of
    the agent afterwards, and it is sent the [ActorTopology] of the agent,
    holding every activated PID, exactly when the agent has activated actors
    to report. *)
Theorem handleMembers_join a ms m :
  keyed a →
  NewMemberSet ms !! MemberID m = Some m → members a !! MemberID m = None →
  let a' := (handleMembers range_members range_activated a ms).1 in
  let effs := (handleMembers range_members range_activated a ms).2 in
  members a' !! MemberID m = Some m ∧
  join_events m effs = 1%nat ∧
  (∀ k, k ∈ Kinds m → k ∈ kinds a') ∧
  (Sent (Member_PID m) (ActorTopology (range_activated (activated a)).*2) ∈ effs
   ↔ activated a ≠ ∅) ∧
  (range_activated (activated a)).*2 ≡ₚ (map_to_list (activated a)).*2.
Proof.
  intros Hk Hm Hn a' effs.
  assert (members a' !! MemberID m = Some m) as Hmem.
  { unfold a'. rewrite members_after_handleMembers, Hn by done.
    rewrite decide_True; [done|]. apply NewMemberSet_Some in Hm as [Hin _].
    apply list_elem_of_fmap. by exists m. }
  destruct (handleMembers_parts a ms Hk) as (_ & Heffs & Hk0 & Hk1).
  fold a' in Hk0, Hk1. fold effs in Heffs.
  set (joined := Except range_members (NewMemberSet ms) (Slice range_members (members a)))
    in *.
  set (left := Except range_members (members a) ms) in *.
  assert (m ∈ joined) as Hj by (by apply joined_spec).
  assert (NoDup joined) as Hnd.
  { unfold joined, Except. apply NoDup_filter.
    apply (NoDup_range_members range_members range_members_perm).
    apply NewMemberSet_keyed. }
  assert (range_activated (activated a) = [] ↔ activated a = ∅) as Hempty.
  { split.
    - intros E. apply map_to_list_empty_iff. apply Permutation_nil_r.
      by rewrite <- range_activated_perm, E.
    - intros E. apply Permutation_nil_r. rewrite range_activated_perm, E.
      by rewrite map_to_list_empty. }
  split_and!.
  - done.
  - rewrite Heffs, join_events_app, join_events_bind, join_events_leaves.
    rewrite (count_NoDup joined m) by done. done.
  - intros k Hkm. destruct (decide (left = [])) as [E|E].
    + apply Hk0; [done|]. right. by exists m.
    + apply Hk1; [done|]. by exists (MemberID m), m.
  - rewrite Heffs, elem_of_app. split.
    + intros [Hin|Hin].
      * apply list_elem_of_bind in Hin as (x & Hin & _).
        unfold memberJoin in Hin. simpl in Hin.
        destruct (decide (0 < length (range_activated (activated a)).*2)%nat) as [Hlen|];
          [|apply list_elem_of_singleton in Hin; discriminate].
        intros E. apply Hempty in E. rewrite E in Hlen. simpl in Hlen. lia.
      * apply list_elem_of_fmap in Hin as (x & Hx & _). discriminate.
    + intros Hne. left. apply list_elem_of_bind. exists m. split; [|done].
      unfold memberJoin. simpl. rewrite decide_True; [left|].
      rewrite length_fmap. destruct (range_activated (activated a)) eqn:E; [|simpl; lia].
      exfalso. by apply Hne, Hempty.
  - by rewrite range_activated_perm.
Qed.

(** X24. A [Members] message that names exactly the ids the agent knows
    changes nothing and causes no event: membership is compared by id
    alone. *)
Theorem handleMembers_unchanged a ms :
  keyed a →
  (∀ m, m ∈ ms → is_Some (members a !! MemberID m)) →
  (∀ k m, members a !! k = Some m → k ∈ MemberID <$> ms) →
  handleMembers range_members range_activated a ms = (a, []).
Proof.
  intros Hk Hknown Hall. pose proof Hk as [Hkm _].
  assert (Except range_members (NewMemberSet ms) (Slice range_members (members a)) = [])
    as Hj.
  { apply elem_of_nil_inv. intros m Hm. apply joined_spec in Hm as [H1 H2]; [|done].
    apply NewMemberSet_Some in H1 as [Hin _]. apply Hknown in Hin as [? ?]. congruence. }
  assert (Except range_members (members a) ms = []) as Hl.
  { apply elem_of_nil_inv. intros m Hm. apply left_spec in Hm as [H1 H2]; [|done].
    apply H2. by eapply Hall. }
  unfold handleMembers. rewrite Hj, Hl. reflexivity.
Qed.

(** X25. The invariant [keyed]: it holds of a new agent, and every message
    handler that changes the two maps keeps it. *)
Theorem keyed_preserved :
  (∀ c_kinds, keyed (NewAgent c_kinds)) ∧
  ∀ a, keyed a →
    (∀ ms, keyed (handleMembers range_members range_activated a ms).1) ∧
    (∀ actors, keyed (handleActorTopology a actors)) ∧
    (∀ pid a' effs, handleActivation a pid = Some (a', effs) → keyed a') ∧
    (∀ pid, keyed (removeActivated a pid)).
Proof.
  split; [apply keyed_NewAgent|]. intros a Hk. split_and!.
  - intros ms. by apply keyed_handleMembers.
  - intros actors. by apply keyed_handleActorTopology.
  - intros [pid|] a' effs H; [|done]. simpl in H. injection H as <- _.
    by apply keyed_addActivated.
  - intros pid. destruct Hk as [Hkm Hka]. split; [done|].
    intros k p H. simpl in H. apply lookup_delete_Some in H as [_ H]. by apply Hka.
Qed.

Lemma handleActorTopology_lookup actors : ∀ a id,
  activated (handleActorTopology a actors) !! id =
    match activated a !! id with
    | Some pid => Some pid
    | None => head (filter (λ pid, ID pid = id) actors)
    end ∧
  members (handleActorTopology a actors) = members a ∧
  kinds (handleActorTopology a actors) = kinds a ∧
  localKinds (handleActorTopology a actors) = localKinds a.
Proof.
  induction actors as [|x actors IH]; intros a id.
  - simpl. by destruct (activated a !! id).
  - unfold handleActorTopology. simpl. fold (handleActorTopology (addActivated a x) actors).
    destruct (IH (addActivated a x) id) as (H1 & H2 & H3 & H4).
    rewrite H1, H2, H3, H4. rewrite filter_cons.
    unfold addActivated.
    destruct (activated a !! ID x) as [old|] eqn:Hx; simpl.
    + split; [|done]. destruct (activated a !! id) as [p|] eqn:Hid; [done|].
      rewrite decide_False; [done|]. congruence.
    + split; [|done]. destruct (decide (ID x = id)) as [<-|Hne].
      * by rewrite lookup_insert_eq, Hx.
      * rewrite lookup_insert_ne by done. by destruct (activated a !! id).
Qed.

(** X26. The activated map is first come, first served.  [ActorTopology]
    and [Activation] never replace a PID that is already known under the
    same id; a new id gets the first PID the message holds for it; the
    members and kinds of the agent are not touched.  An [Activation] for a
    known id changes nothing, yet its [ActivationEvent] is broadcast; one
    without PID is a nil dereference. *)
Theorem activations_first_wins a actors :
  (∀ id pid, activated a !! id = Some pid →
     activated (handleActorTopology a actors) !! id = Some pid) ∧
  (∀ id, activated a !! id = None →
     activated (handleActorTopology a actors) !! id
     = head (filter (λ pid, ID pid = id) actors)) ∧
  (∀ pid, pid ∈ actors → is_Some (activated (handleActorTopology a actors) !! ID pid)) ∧
  members (handleActorTopology a actors) = members a ∧
  kinds (handleActorTopology a actors) = kinds a ∧
  (∀ pid old, activated a !! ID pid = Some old →
     handleActivation a (Some pid) = Some (a, [Event (ActivationEvent (Some pid))])) ∧
  (∀ pid, activated a !! ID pid = None →
     ∃ a', handleActivation a (Some pid) = Some (a', [Event (ActivationEvent (Some pid))]) ∧
           activated a' = <[ID pid := pid]> (activated a)) ∧
  handleActivation a None = None.
Proof.
  split_and!.
  - intros id pid H. destruct (handleActorTopology_lookup actors a id) as [-> _].
    by rewrite H.
  - intros id H. destruct (handleActorTopology_lookup actors a id) as [-> _].
    by rewrite H.
  - intros pid Hin. destruct (handleActorTopology_lookup actors a (ID pid)) as [-> _].
    destruct (activated a !! ID pid); [done|].
    destruct (filter (λ p, ID p = ID pid) actors) as [|y l] eqn:E; [|done].
    exfalso. assert (pid ∈ filter (λ p, ID p = ID pid) actors) as Hf.
    { by apply list_elem_of_filter. }
    rewrite E in Hf. by apply elem_of_nil in Hf.
  - by destruct (handleActorTopology_lookup actors a "") as (_ & -> & _).
  - by destruct (handleActorTopology_lookup actors a "") as (_ & _ & -> & _).
  - intros pid old H. unfold handleActivation. simpl. unfold addActivated. by rewrite H.
  - intros pid H. eexists. unfold handleActivation. simpl. unfold addActivated.
    rewrite H. split; reflexivity.
  - done.
Qed.


(** *** The rest of member_set.go, and the provider that keeps the set *)

(** [MemberSet.Len], [Add], [Contains] and [Remove]. *)
Definition Len (s : gmap string Member) : Z := Z.of_nat (size s).
Definition Add (s : gmap string Member) (m : Member) : gmap string Member :=
  <[MemberID m := m]> s.
Definition Contains (s : gmap string Member) (m : Member) : bool :=
  bool_decide (is_Some (s !! MemberID m)).
Definition Remove (s : gmap string Member) (m : Member) : gmap string Member :=
  delete (MemberID m) s.

(** [MemberSet.GetByHost]: the loop keeps the last member it finds. *)
Definition GetByHost (s : gmap string Member) (host : string) : option Member :=
  last (filter (λ m, Host m = host) (range_members s)).

(** [MemberSet.RemoveByHost]. *)
Definition RemoveByHost (s : gmap string Member) (host : string) : gmap string Member :=
  match GetByHost s host with
  | Some m => Remove s m
  | None => s
  end.

(** [SelfManaged.sendMembersToAgent]; [agent] is [cluster.PID()]. *)
Definition sendMembersToAgent (s : gmap string Member) (agent : PID) : list Effect :=
  [Sent agent (Members (Slice range_members s))].

(** [SelfManaged.addMembers]. *)
Definition addMembers (s : gmap string Member) (ms : list Member) (agent : PID)
    : gmap string Member * list Effect :=
  let s' := foldl (λ s m, if Contains s m then s else Add s m) s ms in
  (s', sendMembersToAgent s' agent).

(** [SelfManaged.removeMember]; a nil member is dereferenced by
    [Contains]. *)
Definition removeMember (s : gmap string Member) (member : option Member) (agent : PID)
    : option (gmap string Member * list Effect) :=
  m ← member;
  let s' := if Contains s m then Remove s m else s in
  Some (s', sendMembersToAgent s' agent).

(** The provider on [memberLeave{ListenAddr}] and on a [Handshake]; [sender]
    is the sender of the context. *)
Definition Provider_memberLeave (s : gmap string Member) (ListenAddr : string)
    (agent : PID) : option (gmap string Member * list Effect) :=
  removeMember s (GetByHost s ListenAddr) agent.

Definition Provider_Handshake (s : gmap string Member) (member : Member)
    (sender : option PID) (agent : PID) : gmap string Member * list Effect :=
  let '(s', effs) := addMembers s [member] agent in
  (s', effs ++ match sender with
               | Some to => [Sent to (Members (Slice range_members s'))]
               | None => []
               end).

Lemma GetByHost_Some s host m :
  GetByHost s host = Some m → Host m = host ∧ ∃ k, s !! k = Some m.
Proof.
  unfold GetByHost. intros H. apply last_Some in H as [l' H].
  assert (m ∈ filter (λ m, Host m = host) (range_members s)) as Hin.
  { rewrite H. apply elem_of_app. right. by apply list_elem_of_singleton. }
  apply list_elem_of_filter in Hin as [Hh Hin]. split; [done|].
  by apply (elem_of_range_members range_members range_members_perm).
Qed.

Lemma GetByHost_None s host :
  GetByHost s host = None ↔ ∀ k m, s !! k = Some m → Host m ≠ host.
Proof.
  unfold GetByHost. rewrite last_None. split.
  - intros E k m Hm Hh.
    assert (m ∈ filter (λ m, Host m = host) (range_members s)) as Hin.
    { apply list_elem_of_filter. split; [done|].
      apply (elem_of_range_members range_members range_members_perm). eauto. }
    rewrite E in Hin. by apply elem_of_nil in Hin.
  - intros H. apply elem_of_nil_inv. intros m Hin.
    apply list_elem_of_filter in Hin as [Hh Hin].
    apply (elem_of_range_members range_members range_members_perm) in Hin as [k Hk].
    by apply (H k m).
Qed.

(** X27. Looking up and removing a member by host, in a set that holds each
    member under its own id.  [GetByHost] finds a member of the set with that
    host, and finds none exactly when no member has it.  [RemoveByHost]
    removes the member found, one member at most; so nothing is left under
    that host if the hosts of the set are pairwise different, and the set is
    left as it is if nobody has the host. *)
Theorem GetByHost_RemoveByHost s host :
  set_keyed s →
  (GetByHost s host = None ↔ ∀ k m, s !! k = Some m → Host m ≠ host) ∧
  (∀ m, GetByHost s host = Some m →
     s !! MemberID m = Some m ∧ Host m = host ∧
     RemoveByHost s host = delete (MemberID m) s ∧
     Len (RemoveByHost s host) = (Len s - 1)%Z) ∧
  (GetByHost s host = None → RemoveByHost s host = s) ∧
  ((∀ k1 k2 m1 m2, s !! k1 = Some m1 → s !! k2 = Some m2 → Host m1 = Host m2 → k1 = k2) →
   GetByHost (RemoveByHost s host) host = None).
Proof.
  intros Hk. split_and!.
  - apply GetByHost_None.
  - intros m Hm. pose proof (GetByHost_Some s host m Hm) as [Hh [k Hkm]].
    pose proof (Hk _ _ Hkm) as <-.
    assert (RemoveByHost s host = delete (MemberID m) s) as HR.
    { unfold RemoveByHost. by rewrite Hm. }
    split_and!; try done.
    rewrite HR. unfold Len. rewrite map_size_delete, Hkm.
    assert (size s ≠ 0%nat); [|lia].
    intros E. apply map_size_empty_iff in E. rewrite E in Hkm.
    by rewrite lookup_empty in Hkm.
  - intros Hn. unfold RemoveByHost. by rewrite Hn.
  - intros Huniq. apply GetByHost_None. intros k m Hm Hh.
    destruct (GetByHost s host) as [m0|] eqn:Hg.
    + pose proof (GetByHost_Some s host m0 Hg) as [Hh0 [k0 Hk0]].
      pose proof (Hk _ _ Hk0) as <-.
      unfold RemoveByHost in Hm. rewrite Hg in Hm. unfold Remove in Hm.
      apply lookup_delete_Some in Hm as [Hne Hm].
      apply Hne. apply (Huniq _ _ m0 m); [done|done|congruence].
    + unfold RemoveByHost in Hm. rewrite Hg in Hm.
      by apply (proj1 (GetByHost_None s host) Hg k m).
Qed.

Lemma addMembers_lookup (ms : list Member) : ∀ (s : gmap string Member) key,
  foldl (λ s m, if Contains s m then s else Add s m) s ms !! key =
    match s !! key with
    | Some old => Some old
    | None => head (filter (λ m, MemberID m = key) ms)
    end.
Proof.
  induction ms as [|x ms IH]; intros s key.
  - simpl. by destruct (s !! key).
  - simpl. rewrite IH, filter_cons. unfold Contains, Add.
    destruct (s !! MemberID x) as [old|] eqn:Hx.
    + rewrite bool_decide_eq_true_2 by eauto.
      destruct (s !! key) eqn:Hkey; [done|].
      rewrite decide_False; [done|]. congruence.
    + rewrite bool_decide_eq_false_2 by (by intros [? ?]).
      destruct (decide (MemberID x = key)) as [<-|Hne].
      * by rewrite lookup_insert_eq, Hx.
      * rewrite lookup_insert_ne by done. by destruct (s !! key).
Qed.

(** X28. The provider's member set.  [addMembers] never replaces a member
    that is known under the same id, gives a new id the first member the
    call holds for it, and reports the resulting set to the agent.  On
    [memberLeave] for an address that no member has, the provider
    dereferences the nil member it looked up; for an address a member has,
    that member is removed and the agent is sent the members that remain. *)
Theorem provider_members s ms addr agent :
  set_keyed s →
  (∀ key, (addMembers s ms agent).1 !! key =
          match s !! key with
          | Some old => Some old
          | None => head (filter (λ m, MemberID m = key) ms)
          end) ∧
  (addMembers s ms agent).2
  = [Sent agent (Members (range_members (addMembers s ms agent).1))] ∧
  ((∀ k m, s !! k = Some m → Host m ≠ addr) → Provider_memberLeave s addr agent = None) ∧
  (∀ m, GetByHost s addr = Some m →
     Provider_memberLeave s addr agent
     = Some (delete (MemberID m) s,
             [Sent agent (Members (range_members (delete (MemberID m) s)))]) ∧
     range_members (delete (MemberID m) s) ≡ₚ (map_to_list (delete (MemberID m) s)).*2).
Proof.
  intros Hk. split_and!.
  - intros key. apply addMembers_lookup.
  - done.
  - intros Hnone. unfold Provider_memberLeave.
    by rewrite (proj2 (GetByHost_None s addr) Hnone).
  - intros m Hm. split; [|apply range_members_perm].
    pose proof (GetByHost_Some s addr m Hm) as [Hh [k Hkm]].
    pose proof (Hk _ _ Hkm) as <-.
    unfold Provider_memberLeave. rewrite Hm. simpl. unfold Contains.
    by rewrite bool_decide_eq_true_2 by eauto.
Qed.

End AgentMembers.

(** *** Activation as the members see it *)

Section AgentActivation.
Variable range_members : gmap string Member → list Member.
Hypothesis range_members_perm :
  ∀ s, range_members s ≡ₚ (map_to_list s).*2.
Variable self : string.
Variable rand_id : string.
Variable rand_index : nat.

Local Open Scope list_scope.

(** X29. A successful [activate].  The id was not activated before, and
    every member of the agent, the node itself included, is sent the
    [Activation] of the new PID.  Once the agent has handled that
    [Activation], and if the PID carries the requested kind and id, a second
    [activate] of the same kind and id is refused without any effect. *)
Theorem activate_announces a k config remote pid effs :
  activate range_members self rand_id rand_index a k config remote = (Some pid, effs) →
  activated a !! (k ++ "/" ++ cfg_id config)%string = None ∧
  (∀ key m, members a !! key = Some m →
     Sent (Member_PID m) (Activation (Some pid)) ∈ effs) ∧
  (∀ a' e remote', handleActivation a (Some pid) = Some (a', e) →
     ID pid = (k ++ "/" ++ cfg_id config)%string →
     activate range_members self rand_id rand_index a' k config remote' = (None, [])).
Proof.
  intros H. unfold activate in H.
  destruct (activated a !! (k ++ "/" ++ cfg_id config)%string) as [old|] eqn:Hact; [done|].
  destruct (decide (length (FilterByKind range_members (members a) k) = 0%nat)); [done|].
  destruct (default (SelectRandomMember rand_index) (cfg_selectMember config) _)
    as [memberPID|]; [|done].
  assert (∀ effs0, (Some pid, effs0 ++ bcast range_members a (Activation (Some pid)))
                   = (Some pid, effs) →
            ∀ key m, members a !! key = Some m →
              Sent (Member_PID m) (Activation (Some pid)) ∈ effs) as Hb.
  { intros effs0 [= <-] key m Hm. apply elem_of_app. right.
    unfold bcast. apply list_elem_of_fmap. exists m. split; [done|].
    apply (elem_of_range_members range_members range_members_perm). eauto. }
  split; [done|]. split.
  - destruct (decide (Host memberPID = self)).
    + unfold handleActivationRequest in H.
      destruct (localKinds a !! k); simpl in H; [|done].
      injection H as <- <-. intros key m Hm.
      by apply (Hb [Spawned _ _] eq_refl key m).
    + destruct remote as [|[]]; try done. destruct Success; [|done].
      destruct pid0 as [pid0|]; [|done]. injection H as <- <-.
      intros key m Hm. by apply (Hb [Requested _ _] eq_refl key m).
  - intros a' e remote' Ha Hid. unfold handleActivation in Ha. simpl in Ha.
    injection Ha as <- _. unfold activate, addActivated.
    rewrite Hid, Hact. simpl. by rewrite lookup_insert_eq.
Qed.

End AgentActivation.

(** *** The cluster object (cluster.go) *)

(** [Cluster], with the id and region of its [Config] and the address of its
    engine. *)
Record Cluster := mkCluster {
  config_id : string;
  config_region : string;
  engine_address : string;
  isStarted : bool;
  c_kinds : list kind
}.

(** [Cluster.RegisterKind]; [p] is the handle of the producer. *)
Definition RegisterKind (c : Cluster) (n : string) (p : nat) : Cluster :=
  if isStarted c then c
  else mkCluster (config_id c) (config_region c) (engine_address c) (isStarted c)
         (c_kinds c ++ [mkKind n p])%list.

(** [Cluster.HasKindLocal]. *)
Definition HasKindLocal (c : Cluster) (n : string) : bool :=
  bool_decide (n ∈ name <$> c_kinds c).

(** [Cluster.Member]. *)
Definition Cluster_Member (c : Cluster) : Member :=
  mkMember (config_id c) (engine_address c) (config_region c) (name <$> c_kinds c).

(** [Cluster.Start]: the started cluster and the agent its producer makes. *)
Definition Cluster_Start (c : Cluster) : Cluster * Agent :=
  (mkCluster (config_id c) (config_region c) (engine_address c) true (c_kinds c),
   NewAgent (c_kinds c)).

Lemma foldl_localKinds (ks : list kind) : ∀ (lk : gmap string kind) n,
  is_Some (foldl (λ lk k, <[name k := k]> lk) lk ks !! n)
  ↔ is_Some (lk !! n) ∨ n ∈ name <$> ks.
Proof.
  induction ks as [|k ks IH]; intros lk n.
  - simpl. rewrite elem_of_nil. tauto.
  - rewrite fmap_cons, elem_of_cons. simpl. rewrite IH.
    destruct (decide (n = name k)) as [->|Hne].
    + rewrite lookup_insert_eq. split; [intros _; right; by left|intros _; left; eauto].
    + rewrite lookup_insert_ne by done. tauto.
Qed.

Lemma foldl_kinds (ks : list kind) : ∀ (s : gset string) n,
  n ∈ foldl (λ s k, {[name k]} ∪ s) s ks ↔ n ∈ s ∨ n ∈ name <$> ks.
Proof.
  induction ks as [|k ks IH]; intros s n.
  - simpl. rewrite elem_of_nil. tauto.
  - rewrite fmap_cons, elem_of_cons. simpl.
    rewrite IH, elem_of_union, elem_of_singleton. tauto.
Qed.

(** X30. The kinds of a node.  What [RegisterKind] has collected is what
    [HasKindLocal] reports, what the node advertises in its [Member] record,
    and what the agent made at [Start] holds as local and as known kinds.
    Once the cluster is started [RegisterKind] changes nothing; before, it
    adds the kind. *)
Theorem registered_kinds_agree c n p k :
  hasKindLocal (Cluster_Start c).2 k = HasKindLocal c k ∧
  (k ∈ kinds (Cluster_Start c).2 ↔ HasKindLocal c k = true) ∧
  HasKind (Cluster_Member c) k = HasKindLocal c k ∧
  RegisterKind (Cluster_Start c).1 n p = (Cluster_Start c).1 ∧
  (isStarted c = false →
   HasKindLocal (RegisterKind c n p) k = HasKindLocal c k || bool_decide (k = n)).
Proof.
  split_and!.
  - unfold hasKindLocal, HasKindLocal, Cluster_Start, NewAgent. simpl.
    apply bool_decide_ext. rewrite foldl_localKinds, lookup_empty.
    split; [intros [[? ?]|?]; done|by right].
  - unfold HasKindLocal, Cluster_Start, NewAgent. simpl.
    rewrite bool_decide_eq_true, foldl_kinds.
    split; [intros [H|H]; [by apply elem_of_empty in H|done]|by right].
  - done.
  - done.
  - intros Hs. unfold RegisterKind, HasKindLocal. rewrite Hs. simpl.
    apply eq_true_iff_eq. rewrite orb_true_iff, !bool_decide_eq_true.
    rewrite fmap_app, elem_of_app. simpl. rewrite list_elem_of_singleton. done.
Qed.

(** *** The cluster of X, Y and Z when W shows up *)

Definition ex_W : Member := mkMember "W" "w:4000" "default" ["enemy"].

Lemma ex_members_keyed : set_keyed ex_members.
Proof. exact (proj1 ex_agent_keyed). Qed.

Lemma handleMembers_members_witness :
  let r := handleMembers range_values range_entries ex_agent [ex_X; ex_Y; ex_Z; ex_W] in
  members r.1 !! "W" = Some ex_W ∧ members r.1 !! "X" = Some ex_X.
Proof.
  destruct (handleMembers_members range_values range_entries range_values_perm
              range_entries_perm ex_agent [ex_X; ex_Y; ex_Z; ex_W] ex_agent_keyed)
    as (_ & Hold & Hnew & _).
  split.
  - rewrite (Hnew "W"); vm_compute; reflexivity.
  - apply Hold; [vm_compute; reflexivity|]. simpl. left.
Defined.

Lemma handleMembers_join_witness :
  let r := handleMembers range_values range_entries ex_agent [ex_X; ex_Y; ex_Z; ex_W] in
  join_events ex_W r.2 = 1%nat ∧ "enemy" ∈ kinds r.1 ∧
  Sent (Member_PID ex_W) (ActorTopology [NewPID "z:4000" "player/7"]) ∈ r.2.
Proof.
  destruct (handleMembers_join range_values range_entries range_values_perm
              range_entries_perm ex_agent [ex_X; ex_Y; ex_Z; ex_W] ex_W ex_agent_keyed)
    as (_ & Hev & Hkinds & Htopo & _);
    [vm_compute; reflexivity|vm_compute; reflexivity|].
  split_and!.
  - exact Hev.
  - apply Hkinds. left.
  - apply Htopo. vm_compute. discriminate.
Defined.

(** X reports another host and other kinds under its old id. *)
Lemma handleMembers_unchanged_witness :
  handleMembers range_values range_entries ex_agent
    [mkMember "X" "elsewhere:1" "default" []; ex_Y; ex_Z]
  = (ex_agent, []).
Proof.
  apply (handleMembers_unchanged range_values range_entries range_values_perm ex_agent
           [mkMember "X" "elsewhere:1" "default" []; ex_Y; ex_Z] ex_agent_keyed).
  - intros m Hm. simpl in Hm.
    repeat (apply elem_of_cons in Hm as [->|Hm]; [vm_compute; eauto|]).
    by apply elem_of_nil in Hm.
  - intros k m Hk.
    assert (k = "X" ∨ k = "Y" ∨ k = "Z") as Hcases.
    { unfold ex_agent, ex_members in Hk. simpl in Hk.
      repeat (rewrite lookup_insert in Hk; case_decide; [subst k; tauto|]).
      by rewrite lookup_empty in Hk. }
    simpl. rewrite !elem_of_cons. tauto.
Defined.

Lemma GetByHost_RemoveByHost_witness :
  RemoveByHost range_values ex_members "z:4000" = delete "Z" ex_members.
Proof.
  destruct (GetByHost_RemoveByHost range_values range_values_perm ex_members "z:4000"
              ex_members_keyed) as (_ & Hsome & _).
  destruct (Hsome ex_Z) as (_ & _ & HR & _); [vm_compute; reflexivity|].
  exact HR.
Defined.

Lemma provider_members_witness :
  Provider_memberLeave range_values ex_members "nowhere:1" (Member_PID ex_Y) = None.
Proof.
  destruct (provider_members range_values range_values_perm ex_members [] "nowhere:1"
              (Member_PID ex_Y) ex_members_keyed) as (_ & _ & Hnone & _).
  apply Hnone. intros k m Hk. unfold ex_members in Hk.
  repeat (rewrite lookup_insert in Hk; case_decide; [by simplify_eq|]).
  by rewrite lookup_empty in Hk.
Defined.

Lemma activate_announces_witness :
  let remote := Reply (ActivationResponse (Some (NewPID "z:4000" "player/7")) true) in
  let r := activate range_values "y:4000" "1" 0 ex_agent0 "player"
             (mkConfig "7" "default" None) remote in
  Sent (Member_PID ex_Y) (Activation (Some (NewPID "z:4000" "player/7"))) ∈ r.2.
Proof.
  intros remote r.
  destruct (activate_announces range_values range_values_perm "y:4000" "1" 0 ex_agent0
              "player" (mkConfig "7" "default" None) remote
              (NewPID "z:4000" "player/7") r.2) as (_ & Hsent & _).
  - vm_compute. reflexivity.
  - apply (Hsent "Y" ex_Y). vm_compute. reflexivity.
Defined.


Lemma keyed_preserved_witness :
  keyed (handleMembers range_values range_entries ex_agent [ex_X; ex_W]).1.
Proof.
  destruct (keyed_preserved range_values range_entries range_values_perm
              range_entries_perm) as [_ H].
  destruct (H ex_agent ex_agent_keyed) as (Hm & _).
  apply Hm.
Defined.

End Cluster.
